(** * Crossword generator: a shallow embedding of [generate.py]

    The file follows the class [CrosswordCreator]: the node-consistency
    filter, [revise], [ac3], the consistency checker, the two ordering
    heuristics, the backtracking search and [solve].

    Conventions of the embedding.
    - A Python [set] is the list of its elements in iteration order; the
      elements of such a list are pairwise distinct.  The statements below
      speak of membership, so they hold for every iteration order.
    - A Python [dict] is an association list in insertion order.
    - A Python exception is the [Raise] branch of [result]. *)

From Stdlib Require Import List String Ascii Arith Lia Bool ZArith.
From Stdlib Require Import Permutation Sorted.
Import ListNotations.

(** ** The Python runtime the solver relies on *)

Inductive exn : Type :=
| KeyError
| IndexError
| TypeError
| ValueError
| RecursionLimit.
(* [RecursionLimit] is the bound of the embedding's loops and recursion; the
   totality lemmas show that the bounds chosen below are never reached. *)

Inductive result (A : Type) : Type :=
| Ok (a : A)
| Raise (e : exn).

Arguments Ok {A} a.
Arguments Raise {A} e.

Definition bind {A B : Type} (m : result A) (k : A -> result B) : result B :=
  match m with
  | Ok a => k a
  | Raise e => Raise e
  end.

Declare Scope py_scope.
Delimit Scope py_scope with py.
Notation "x <- m ;; k" := (bind m (fun x => k))
  (at level 61, m at next level, right associativity) : py_scope.
Notation "' p <- m ;; k" := (bind m (fun x => match x with p => k end))
  (at level 61, p pattern, m at next level, right associativity) : py_scope.
Open Scope py_scope.

(** [s[k]] for a non-negative [k]. *)
Definition str_index (s : string) (k : nat) : result ascii :=
  match String.get k s with
  | Some c => Ok c
  | None => Raise IndexError
  end.

(** [set.remove(w)]: raises when [w] is not an element. *)
Fixpoint set_remove (w : string) (l : list string) : result (list string) :=
  match l with
  | [] => Raise KeyError
  | w' :: l' =>
      if String.eqb w w' then Ok l'
      else l'' <- set_remove w l' ;; Ok (w' :: l'')
  end.

Section Dict.

Context {K V : Type}.
Variable eqb : K -> K -> bool.

(** [d[k]] *)
Fixpoint dict_get (k : K) (d : list (K * V)) : result V :=
  match d with
  | [] => Raise KeyError
  | (k', v) :: d' => if eqb k k' then Ok v else dict_get k d'
  end.

(** [k in d] *)
Fixpoint dict_mem (k : K) (d : list (K * V)) : bool :=
  match d with
  | [] => false
  | (k', _) :: d' => eqb k k' || dict_mem k d'
  end.

(** [d[k] = v]: an existing key keeps its place, a new one goes last. *)
Fixpoint dict_set (k : K) (v : V) (d : list (K * V)) : list (K * V) :=
  match d with
  | [] => [(k, v)]
  | (k', v') :: d' =>
      if eqb k k' then (k', v) :: d' else (k', v') :: dict_set k v d'
  end.

(** [del d[k]] *)
Fixpoint dict_del (k : K) (d : list (K * V)) : result (list (K * V)) :=
  match d with
  | [] => Raise KeyError
  | (k', v') :: d' =>
      if eqb k k' then Ok d'
      else d'' <- dict_del k d' ;; Ok ((k', v') :: d'')
  end.

Definition dict_keys (d : list (K * V)) : list K := map fst d.

End Dict.

(** A [for] loop whose body may [break]. *)
Inductive ctl : Type := Next | Break.

Section Loops.

Context {A S : Type}.

Fixpoint for_in (l : list A) (body : A -> S -> result (ctl * S)) (s : S)
  : result S :=
  match l with
  | [] => Ok s
  | a :: l' =>
      '(c, s') <- body a s ;;
      match c with
      | Break => Ok s'
      | Next => for_in l' body s'
      end
  end.

(** A [for] loop without [break]. *)
Fixpoint for_each (l : list A) (body : A -> S -> result S) (s : S)
  : result S :=
  match l with
  | [] => Ok s
  | a :: l' => s' <- body a s ;; for_each l' body s'
  end.

End Loops.

(** [sorted(l, key=...)]: Python's sort is stable. *)
Section Sorted.

Context {A : Type}.
Variable key : A -> nat.

Fixpoint insert_by (a : A) (l : list A) : list A :=
  match l with
  | [] => [a]
  | b :: l' => if key a <=? key b then a :: b :: l' else b :: insert_by a l'
  end.

Fixpoint sorted_by (l : list A) : list A :=
  match l with
  | [] => []
  | a :: l' => insert_by a (sorted_by l')
  end.

End Sorted.

(** ** The puzzle model ([crossword.py], outside the solver) *)

Inductive Direction : Type := ACROSS | DOWN.

Module Var.

Record t : Type := mk { i : nat; j : nat; direction : Direction; length : nat }.

Definition direction_eqb (a b : Direction) : bool :=
  match a, b with
  | ACROSS, ACROSS | DOWN, DOWN => true
  | _, _ => false
  end.

(** [Variable.__eq__] *)
Definition eqb (a b : t) : bool :=
  (i a =? i b) && (j a =? j b) && direction_eqb (direction a) (direction b)
  && (length a =? length b).

End Var.

(** Modelled from the spec: the class [Crossword] is not part of the solver's
    source.  The solver reads from it the set of variables, the vocabulary and
    the overlap table, which maps an ordered pair of variables to "no overlap"
    or to the offsets of the shared cell in the first and in the second
    word. *)
Record Crossword : Type := mkCrossword {
  variables : list Var.t;
  words : list string;
  overlaps : Var.t -> Var.t -> option (nat * nat)
}.

(** Modelled from the spec: [Crossword.neighbors] is not part of the solver's
    source.  [y] is a neighbor of [x] iff [y] is another variable of the
    puzzle and the overlap for [(x, y)] is not "no overlap". *)
Definition neighbors (cw : Crossword) (x : Var.t) : list Var.t :=
  filter (fun y => negb (Var.eqb y x) &&
                   match overlaps cw x y with Some _ => true | None => false end)
         (variables cw).

(** Modelled from the spec: the keys of the overlap table are the ordered
    pairs of distinct variables. *)
Definition overlap_keys (cw : Crossword) : list (Var.t * Var.t) :=
  filter (fun k => negb (Var.eqb (fst k) (snd k)))
         (list_prod (variables cw) (variables cw)).

(** [self.crossword.overlaps[x, y]]: the overlap table is a dict, and its
    subscript raises [KeyError] at a pair that is not one of its keys, such
    as [(x, x)]. *)
Definition overlaps_get (cw : Crossword) (x y : Var.t)
  : result (option (nat * nat)) :=
  if existsb (fun k => Var.eqb (fst k) x && Var.eqb (snd k) y) (overlap_keys cw)
  then Ok (overlaps cw x y)
  else Raise KeyError.

(** ** [CrosswordCreator] *)

(** [self.domains] *)
Definition Domains : Type := list (Var.t * list string).

(** An assignment, as [backtrack] builds it. *)
Definition Assignment : Type := list (Var.t * string).

Definition dom_get (x : Var.t) (d : Domains) : result (list string) :=
  dict_get Var.eqb x d.

(** [self.domains[x].remove(w)] *)
Definition dom_remove (x : Var.t) (w : string) (d : Domains) : result Domains :=
  l <- dom_get x d ;;
  l' <- set_remove w l ;;
  Ok (dict_set Var.eqb x l' d).

(** [__init__]: every variable starts with a copy of the vocabulary. *)
Definition init (cw : Crossword) : Domains :=
  map (fun var => (var, words cw)) (variables cw).

Definition enforce_node_consistency (d : Domains) : result Domains :=
  for_each (dict_keys d)
    (fun variable d =>
       values_copy <- dom_get variable d ;;
       for_each values_copy
         (fun value d =>
            if negb (String.length value =? Var.length variable)
            then dom_remove variable value d
            else Ok d)
         d)
    d.

(** [any(valueY[oy] == valueX[ox] for valueY in ...)] *)
Fixpoint any_agrees (ox oy : nat) (valueX : string) (ys : list string)
  : result bool :=
  match ys with
  | [] => Ok false
  | valueY :: ys' =>
      cy <- str_index valueY oy ;;
      cx <- str_index valueX ox ;;
      if Ascii.eqb cy cx then Ok true else any_agrees ox oy valueX ys'
  end.

Definition revise (cw : Crossword) (x y : Var.t) (d : Domains)
  : result (bool * Domains) :=
  overlap <- overlaps_get cw x y ;;
  X_copy <- dom_get x d ;;
  match overlap with
  | Some (overlap_X_value, overlap_Y_value) =>
      for_each X_copy
        (fun valueX st =>
           let '(revised, d) := st in
           ys <- dom_get y d ;;
           has_satisfying_value <-
             any_agrees overlap_X_value overlap_Y_value valueX ys ;;
           if negb has_satisfying_value
           then d' <- dom_remove x valueX d ;; Ok (true, d')
           else Ok (revised, d))
        (false, d)
  | None => Ok (false, d)
  end.

(** The worklist of [ac3] is a Python list used as a stack; here its top is
    the head: [arcs.pop()] takes the head and [arcs.append] conses. *)
Definition Arcs : Type := list (Var.t * Var.t).

Definition initial_arcs (cw : Crossword) : Arcs :=
  fold_left
    (fun arcs value =>
       match overlaps cw (fst value) (snd value) with
       | Some _ => value :: arcs
       | None => arcs
       end)
    (overlap_keys cw) [].

Definition enqueue_neighbors (cw : Crossword) (x y : Var.t) (arcs : Arcs)
  : Arcs :=
  fold_left
    (fun arcs z => if negb (Var.eqb z y) then (z, x) :: arcs else arcs)
    (neighbors cw x) arcs.

Fixpoint ac3_loop (cw : Crossword) (fuel : nat) (arcs : Arcs) (d : Domains)
  : result (bool * Domains) :=
  match arcs with
  | [] => Ok (true, d)
  | (x, y) :: arcs' =>
      match fuel with
      | 0 => Raise RecursionLimit
      | S fuel' =>
          '(revised, d') <- revise cw x y d ;;
          if (revised : bool) then
            dx <- dom_get x d' ;;
            if List.length dx =? 0 then Ok (false, d')
            else ac3_loop cw fuel' (enqueue_neighbors cw x y arcs') d'
          else ac3_loop cw fuel' arcs' d'
      end
  end.

Definition total_size (d : Domains) : nat :=
  fold_right (fun e n => List.length (snd e) + n) 0 d.

(** Every iteration either shortens the worklist or removes a word and adds
    at most one arc per variable, which bounds the number of iterations. *)
Definition ac3_bound (cw : Crossword) (arcs : Arcs) (d : Domains) : nat :=
  S (List.length arcs + List.length (variables cw) * total_size d).

Definition ac3 (cw : Crossword) (arcs : option Arcs) (d : Domains)
  : result (bool * Domains) :=
  let arcs :=
    match arcs with
    | None => initial_arcs cw
    | Some arcs => arcs
    end in
  ac3_loop cw (ac3_bound cw arcs d) arcs d.

Definition assignment_complete (d : Domains) (assignment : Assignment) : bool :=
  forallb (fun variable => dict_mem Var.eqb variable assignment) (dict_keys d).

Definition asg_get (v : Var.t) (a : Assignment) : result string :=
  dict_get Var.eqb v a.

Definition consistent (cw : Crossword) (assignment : Assignment)
  : result bool :=
  is_consistent <-
    for_in (dict_keys assignment)
      (fun variable1 is_consistent =>
         is_consistent <-
           for_in (dict_keys assignment)
             (fun variable2 is_consistent =>
                if negb (Var.eqb variable2 variable1) then
                  w1 <- asg_get variable1 assignment ;;
                  w2 <- asg_get variable2 assignment ;;
                  if String.eqb w1 w2 then Ok (Break, false)
                  else Ok (Next, is_consistent)
                else Ok (Next, is_consistent))
             is_consistent ;;
         if negb is_consistent then Ok (Break, is_consistent)
         else Ok (Next, is_consistent))
      true ;;
  for_in (dict_keys assignment)
    (fun variable is_consistent =>
       w <- asg_get variable assignment ;;
       if negb (Var.length variable =? String.length w) then Ok (Break, false)
       else
         is_consistent <-
           for_in (neighbors cw variable)
             (fun neighbor is_consistent =>
                if dict_mem Var.eqb neighbor assignment then
                  match overlaps cw variable neighbor with
                  | Some (o0, o1) =>
                      w <- asg_get variable assignment ;;
                      c0 <- str_index w o0 ;;
                      wn <- asg_get neighbor assignment ;;
                      c1 <- str_index wn o1 ;;
                      if negb (Ascii.eqb c0 c1) then Ok (Break, false)
                      else Ok (Next, is_consistent)
                  | None => Ok (Next, is_consistent)
                  end
                else Ok (Next, is_consistent))
             is_consistent ;;
         Ok (Next, is_consistent))
    is_consistent.

(** [value_ruleout[w] += 1] *)
Definition incr (w : string) (value_ruleout : list (string * nat))
  : result (list (string * nat)) :=
  n <- dict_get String.eqb w value_ruleout ;;
  Ok (dict_set String.eqb w (S n) value_ruleout).

(** The test [variable not in assignment] of the source compares a word with
    the keys of the assignment, which are variables: it always succeeds and
    is left out. *)
Definition order_domain_values (cw : Crossword) (d : Domains) (var : Var.t)
  (assignment : Assignment) : result (list string) :=
  dvar <- dom_get var d ;;
  let value_ruleout := map (fun val => (val, 0)) dvar in
  value_ruleout <-
    for_each dvar
      (fun variable value_ruleout =>
         for_each (neighbors cw var)
           (fun neighbor value_ruleout =>
              if negb (dict_mem Var.eqb neighbor assignment) then
                match overlaps cw var neighbor with
                | Some (x, y) =>
                    dn <- dom_get neighbor d ;;
                    for_each dn
                      (fun neighbor_value value_ruleout =>
                         cx <- str_index variable x ;;
                         cy <- str_index neighbor_value y ;;
                         if negb (Ascii.eqb cx cy)
                         then incr variable value_ruleout
                         else Ok value_ruleout)
                      value_ruleout
                | None => Raise TypeError
                end
              else Ok value_ruleout)
           value_ruleout)
      value_ruleout ;;
  Ok (map fst (sorted_by snd value_ruleout)).

(** The key of [select_unassigned_variable]: a tuple, compared
    lexicographically. *)
Definition key_ltb (k1 k2 : Z * Z) : bool :=
  ((fst k1 <? fst k2) || ((fst k1 =? fst k2) && (snd k1 <? snd k2)))%Z.

(** [min(d, key=...)]: the first of the least elements. *)
Fixpoint min_from (best : Var.t * (Z * Z)) (l : list (Var.t * (Z * Z)))
  : Var.t :=
  match l with
  | [] => fst best
  | e :: l' => min_from (if key_ltb (snd e) (snd best) then e else best) l'
  end.

Definition py_min (l : list (Var.t * (Z * Z))) : result Var.t :=
  match l with
  | [] => Raise ValueError
  | e :: l' => Ok (min_from e l')
  end.

Definition select_unassigned_variable (cw : Crossword) (d : Domains)
  (assignment : Assignment) : result Var.t :=
  variable_value_length <-
    for_each (dict_keys d)
      (fun variable variable_value_length =>
         if negb (dict_mem Var.eqb variable assignment) then
           dv <- dom_get variable d ;;
           Ok (dict_set Var.eqb variable
                 (Z.of_nat (List.length dv),
                  (- Z.of_nat (List.length (neighbors cw variable)))%Z)
                 variable_value_length)
         else Ok variable_value_length)
      [] ;;
  py_min variable_value_length.

(** [if result:] an empty dict is false, like [None]. *)
Definition truthy (r : option Assignment) : bool :=
  match r with
  | Some (_ :: _) => true
  | _ => false
  end.

(** The loop of [backtrack].  The assignment is one dict shared by all the
    calls: every call returns its result together with the dict as it left
    it, and a returned assignment is that same dict. *)
Fixpoint backtrack_values (cw : Crossword)
  (rec : Assignment -> result (option Assignment * Assignment))
  (var : Var.t) (values : list string) (assignment : Assignment)
  : result (option Assignment * Assignment) :=
  match values with
  | [] => Ok (None, assignment)
  | value :: values' =>
      let assignment := dict_set Var.eqb var value assignment in
      c <- consistent cw assignment ;;
      '(result, assignment) <-
        (if (c : bool) then rec assignment else Ok (None, assignment)) ;;
      if truthy result then Ok (result, assignment)
      else
        assignment <- dict_del Var.eqb var assignment ;;
        backtrack_values cw rec var values' assignment
  end.

Fixpoint backtrack_rec (fuel : nat) (cw : Crossword) (d : Domains)
  (assignment : Assignment) : result (option Assignment * Assignment) :=
  match fuel with
  | 0 => Raise RecursionLimit
  | S fuel' =>
      if assignment_complete d assignment then Ok (Some assignment, assignment)
      else
        var <- select_unassigned_variable cw d assignment ;;
        values <- order_domain_values cw d var assignment ;;
        backtrack_values cw (backtrack_rec fuel' cw d) var values assignment
  end.

(** The recursion is one call deep per variable. *)
Definition backtrack (cw : Crossword) (d : Domains) (assignment : Assignment)
  : result (option Assignment * Assignment) :=
  backtrack_rec (S (List.length d)) cw d assignment.

(** [solve], from a fresh [CrosswordCreator]: the result and [self.domains]
    as the call leaves it. *)
Definition solve (cw : Crossword) : result (option Assignment * Domains) :=
  d <- enforce_node_consistency (init cw) ;;
  '(_, d) <- ac3 cw None d ;;
  '(result, _) <- backtrack cw d [] ;;
  Ok (result, d).

(** ** Vocabulary of the specification *)

(** The word [wx] of the first variable and the word [wy] of the second have
    the same character at the offsets [ox] and [oy]. *)
Definition agrees (ox oy : nat) (wx wy : string) : bool :=
  match String.get oy wy, String.get ox wx with
  | Some cy, Some cx => Ascii.eqb cy cx
  | _, _ => false
  end.

(** Some word of [ys] agrees with [wx]. *)
Definition supported (ox oy : nat) (wx : string) (ys : list string) : bool :=
  existsb (agrees ox oy wx) ys.

(** The guarantees of the puzzle model: the variables and the vocabulary are
    sets, no variable overlaps itself, the overlap table is symmetric and its
    offsets lie inside the two slots. *)
Record wf_crossword (cw : Crossword) : Prop := {
  wf_variables : NoDup (variables cw);
  wf_words : NoDup (words cw);
  wf_irrefl : forall x, In x (variables cw) -> overlaps cw x x = None;
  wf_sym : forall x y p q,
    In x (variables cw) -> In y (variables cw) ->
    overlaps cw x y = Some (p, q) -> overlaps cw y x = Some (q, p);
  wf_range : forall x y p q,
    In x (variables cw) -> In y (variables cw) ->
    overlaps cw x y = Some (p, q) -> p < Var.length x /\ q < Var.length y
}.

(** A state of the domain store: one entry per variable of the puzzle, every
    entry a set of words. *)
Record domains_rep (cw : Crossword) (d : Domains) : Prop := {
  rep_keys : dict_keys d = variables cw;
  rep_sets : forall x l, dom_get x d = Ok l -> NoDup l
}.

(** The invariant of the domain store once the node-consistency filter has
    run: moreover every word has the length of its variable. *)
Record domains_inv (cw : Crossword) (d : Domains) : Prop := {
  inv_keys : dict_keys d = variables cw;
  inv_sets : forall x l, dom_get x d = Ok l -> NoDup l;
  inv_node : forall x l w,
    dom_get x d = Ok l -> In w l -> String.length w = Var.length x
}.

(** Arc consistency of [x] with respect to [y]: when the two overlap, every
    word left for [x] agrees with some word left for [y] at the shared
    cell. *)
Definition arc_consistent (cw : Crossword) (d : Domains) (x y : Var.t) : Prop :=
  forall ox oy lx ly wx,
    overlaps cw x y = Some (ox, oy) ->
    dom_get x d = Ok lx -> dom_get y d = Ok ly ->
    In wx lx ->
    exists wy, In wy ly /\ agrees ox oy wx wy = true.

(** The three invariants of an assignment: assigned words have the length of
    their variable, distinct variables have distinct words, and two assigned
    variables that overlap agree at the shared cell. *)
Record valid_assignment (cw : Crossword) (a : Assignment) : Prop := {
  valid_length : forall v w,
    asg_get v a = Ok w -> String.length w = Var.length v;
  valid_distinct : forall v1 v2 w1 w2,
    v1 <> v2 -> asg_get v1 a = Ok w1 -> asg_get v2 a = Ok w2 -> w1 <> w2;
  valid_overlap : forall v n w wn o0 o1,
    In n (neighbors cw v) ->
    asg_get v a = Ok w -> asg_get n a = Ok wn ->
    overlaps cw v n = Some (o0, o1) ->
    agrees o0 o1 w wn = true
}.

(** A complete assignment gives a word to every variable of the puzzle. *)
Definition complete (cw : Crossword) (a : Assignment) : Prop :=
  forall v, In v (variables cw) -> exists w, asg_get v a = Ok w.

(** The domain of [u], empty for a variable the store does not know. *)
Definition dom_of (u : Var.t) (d : Domains) : list string :=
  match dom_get u d with
  | Ok l => l
  | Raise _ => []
  end.

(** The number of words of [l] that do not agree with [w]. *)
Definition conflicts (p q : nat) (w : string) (l : list string) : nat :=
  List.length (filter (fun wn => negb (agrees p q w wn)) l).

(** The elimination count of the candidate [w] for [var]: over the neighbors
    [u] of [var] that are not assigned, the words of [domain[u]] whose
    character at the overlap differs from the one of [w]. *)
Definition elimination_count (cw : Crossword) (d : Domains) (a : Assignment)
  (var : Var.t) (w : string) : nat :=
  list_sum
    (map (fun u =>
            if dict_mem Var.eqb u a then 0
            else match overlaps cw var u with
                 | Some (p, q) => conflicts p q w (dom_of u d)
                 | None => 0
                 end)
         (neighbors cw var)).

(** [b] gives to every variable assigned by [a] the word [a] gives it. *)
Definition extends (a b : Assignment) : Prop :=
  forall v w, asg_get v a = Ok w -> asg_get v b = Ok w.

(** A solution over the domains [d]: a valid assignment that gives every
    variable of the puzzle a word of its domain. *)
Definition solution (cw : Crossword) (d : Domains) (sol : Assignment) : Prop :=
  (forall v, In v (variables cw) ->
             exists w, asg_get v sol = Ok w /\ In w (dom_of v d)) /\
  valid_assignment cw sol.

(** ** Three small puzzles *)

Module Puzzles.

Import StringSyntax.
Local Open Scope string_scope.

(** Two crossing slots of three letters; the shared cell is the middle of
    both. *)
Definition across : Var.t := Var.mk 1 0 ACROSS 3.
Definition down : Var.t := Var.mk 0 1 DOWN 3.

Definition crossing (x y : Var.t) : option (nat * nat) :=
  if Var.eqb x across && Var.eqb y down then Some (1, 1)
  else if Var.eqb x down && Var.eqb y across then Some (1, 1)
  else None.

Definition two_slots : Crossword :=
  mkCrossword [across; down] ["CAT"; "EAR"; "DOG"; "A"] crossing.

(** One slot of four letters and no word of four letters. *)
Definition lonely : Var.t := Var.mk 0 0 ACROSS 4.

Definition lonely_slot : Crossword :=
  mkCrossword [lonely] ["CAT"; "EAR"] (fun _ _ => None).

(** Two slots that start in the same cell, and two words that start with
    different letters. *)
Definition top : Var.t := Var.mk 0 0 ACROSS 3.
Definition left : Var.t := Var.mk 0 0 DOWN 2.

Definition corner (x y : Var.t) : option (nat * nat) :=
  if Var.eqb x top && Var.eqb y left then Some (0, 0)
  else if Var.eqb x left && Var.eqb y top then Some (0, 0)
  else None.

Definition clash : Crossword := mkCrossword [top; left] ["CAT"; "TO"] corner.

(** The store of [two_slots] after the node-consistency filter. *)
Definition two_slots_store : Domains :=
  [(across, ["CAT"; "EAR"; "DOG"]); (down, ["CAT"; "EAR"; "DOG"])].

(** The store of [clash] after the node-consistency filter. *)
Definition clash_store : Domains := [(top, ["CAT"]); (left, ["TO"])].

End Puzzles.

(** ** Auxiliary definitions of the proofs *)

(** [value] has the length of [variable]. *)
Definition node_ok (variable : Var.t) (value : string) : bool :=
  String.length value =? Var.length variable.

(** The bodies of the two loops of [enforce_node_consistency]. *)
Definition node_body (variable : Var.t) (value : string) (d : Domains)
  : result Domains :=
  if negb (String.length value =? Var.length variable)
  then dom_remove variable value d
  else Ok d.

(** The entry of a variable after the filter. *)
Definition node_filter (e : Var.t * list string) : Var.t * list string :=
  (fst e, filter (node_ok (fst e)) (snd e)).

Definition enforce_body (variable : Var.t) (d : Domains) : result Domains :=
  values_copy <- dom_get variable d ;;
  for_each values_copy (node_body variable) d.

(** The body of the loop of [revise]. *)
Definition revise_body (x y : Var.t) (ox oy : nat) (valueX : string)
  (st : bool * Domains) : result (bool * Domains) :=
  let '(revised, d) := st in
  ys <- dom_get y d ;;
  has_satisfying_value <- any_agrees ox oy valueX ys ;;
  if negb has_satisfying_value
  then d' <- dom_remove x valueX d ;; Ok (true, d')
  else Ok (revised, d).

(** What [revise] leaves of [domain[x]]. *)
Definition revised_domain (ox oy : nat) (lx ly : list string) : list string :=
  filter (fun w => supported ox oy w ly) lx.

(** The outcome of a call of [revise] that returns. *)
Definition revise_result (cw : Crossword) (x y : Var.t) (lx ly : list string)
  (d : Domains) : bool * Domains :=
  match overlaps cw x y with
  | Some (ox, oy) =>
      (existsb (fun w => negb (supported ox oy w ly)) lx,
       dict_set Var.eqb x (revised_domain ox oy lx ly) d)
  | None => (false, d)
  end.

(** The runs of the loop of [ac3]: from a worklist and a store to the result
    and the final store, one constructor per path through the body. *)
Inductive ac3_run (cw : Crossword) : Arcs -> Domains -> bool -> Domains -> Prop :=
| run_done d :
    ac3_run cw [] d true d
| run_same x y arcs d d' b df :
    revise cw x y d = Ok (false, d') ->
    ac3_run cw arcs d' b df ->
    ac3_run cw ((x, y) :: arcs) d b df
| run_empty x y arcs d d' :
    revise cw x y d = Ok (true, d') ->
    dom_get x d' = Ok [] ->
    ac3_run cw ((x, y) :: arcs) d false d'
| run_more x y arcs d d' w dx b df :
    revise cw x y d = Ok (true, d') ->
    dom_get x d' = Ok (w :: dx) ->
    ac3_run cw (enqueue_neighbors cw x y arcs) d' b df ->
    ac3_run cw ((x, y) :: arcs) d b df.

(** The arcs of a worklist join distinct variables: the pairs at which the
    overlap table has an entry. *)
Definition arcs_distinct (arcs : Arcs) : Prop :=
  forall x y, In (x, y) arcs -> x <> y.

(** The arcs of a worklist join variables of the puzzle. *)
Definition arcs_ok (cw : Crossword) (arcs : Arcs) : Prop :=
  forall x y, In (x, y) arcs -> In x (variables cw) /\ In y (variables cw).

(** The second store has the keys of the first and no word the first did
    not have. *)
Definition shrinks (d d' : Domains) : Prop :=
  forall z l', dom_get z d' = Ok l' ->
               exists l, dom_get z d = Ok l /\ incl l' l.

(** The invariant of the loop: an arc that is not on the worklist is
    consistent. *)
Definition settled (cw : Crossword) (arcs : Arcs) (d : Domains) : Prop :=
  forall x y, In x (variables cw) -> In y (variables cw) ->
              ~ In (x, y) arcs -> arc_consistent cw d x y.

(** The word of an assigned variable. *)
Definition word_of (v : Var.t) (a : Assignment) : string :=
  match asg_get v a with
  | Ok w => w
  | Raise _ => EmptyString
  end.

(** The three tests of [consistent], on one pair or one variable. *)
Definition distinct_ok (a : Assignment) (v1 v2 : Var.t) : bool :=
  negb (negb (Var.eqb v2 v1) && String.eqb (word_of v1 a) (word_of v2 a)).

Definition length_ok (a : Assignment) (v : Var.t) : bool :=
  Var.length v =? String.length (word_of v a).

Definition overlap_ok (cw : Crossword) (a : Assignment) (v n : Var.t) : bool :=
  if dict_mem Var.eqb n a then
    match overlaps cw v n with
    | Some (o0, o1) => agrees o0 o1 (word_of v a) (word_of n a)
    | None => true
    end
  else true.

(** The value of [consistent] when no index is out of range. *)
Definition consistent_value (cw : Crossword) (a : Assignment) : bool :=
  forallb (fun v1 => forallb (distinct_ok a v1) (dict_keys a)) (dict_keys a)
  && forallb (fun v => length_ok a v
                       && forallb (overlap_ok cw a v) (neighbors cw v))
       (dict_keys a).

(** The offsets of the overlaps between assigned variables lie inside the
    assigned words. *)
Definition asg_indexed (cw : Crossword) (a : Assignment) : Prop :=
  forall v n w wn o0 o1,
    asg_get v a = Ok w -> asg_get n a = Ok wn ->
    overlaps cw v n = Some (o0, o1) ->
    o0 < String.length w /\ o1 < String.length wn.

(** [value_ruleout[w] += k] *)
Definition bump (w : string) (k : nat) (vr : list (string * nat))
  : list (string * nat) :=
  match dict_get String.eqb w vr with
  | Ok n => dict_set String.eqb w (n + k) vr
  | Raise _ => vr
  end.

(** The bodies of the two inner loops of [order_domain_values]. *)
Definition count_body (w : string) (x y : nat) (neighbor_value : string)
  (value_ruleout : list (string * nat)) : result (list (string * nat)) :=
  cx <- str_index w x ;;
  cy <- str_index neighbor_value y ;;
  if negb (Ascii.eqb cx cy) then incr w value_ruleout else Ok value_ruleout.

Definition neighbor_body (cw : Crossword) (d : Domains) (var : Var.t)
  (assignment : Assignment) (w : string) (neighbor : Var.t)
  (value_ruleout : list (string * nat)) : result (list (string * nat)) :=
  if negb (dict_mem Var.eqb neighbor assignment) then
    match overlaps cw var neighbor with
    | Some (x, y) =>
        dn <- dom_get neighbor d ;;
        for_each dn (count_body w x y) value_ruleout
    | None => Raise TypeError
    end
  else Ok value_ruleout.

(** The share of the neighbor [u] in the elimination count of [w]. *)
Definition neighbor_count (cw : Crossword) (d : Domains) (a : Assignment)
  (var : Var.t) (w : string) (u : Var.t) : nat :=
  if dict_mem Var.eqb u a then 0
  else match overlaps cw var u with
       | Some (p, q) => conflicts p q w (dom_of u d)
       | None => 0
       end.

(** [v not in assignment] *)
Definition unassigned (a : Assignment) (v : Var.t) : bool :=
  negb (dict_mem Var.eqb v a).

(** The key and the loop body of [select_unassigned_variable]. *)
Definition select_key (cw : Crossword) (d : Domains) (v : Var.t) : Z * Z :=
  (Z.of_nat (List.length (dom_of v d)),
   (- Z.of_nat (List.length (neighbors cw v)))%Z).

Definition select_body (cw : Crossword) (d : Domains) (a : Assignment)
  (variable : Var.t) (variable_value_length : list (Var.t * (Z * Z)))
  : result (list (Var.t * (Z * Z))) :=
  if negb (dict_mem Var.eqb variable a) then
    dv <- dom_get variable d ;;
    Ok (dict_set Var.eqb variable
          (Z.of_nat (List.length dv),
           (- Z.of_nat (List.length (neighbors cw variable)))%Z)
          variable_value_length)
  else Ok variable_value_length.

(** The order of the keys, as a proposition. *)
Definition key_lt (k1 k2 : Z * Z) : Prop :=
  (fst k1 < fst k2 \/ (fst k1 = fst k2 /\ snd k1 < snd k2))%Z.

(** The assignments [backtrack] works on: a dict whose keys are variables of
    the puzzle and whose words come from the domains. *)
Definition asg_ok (cw : Crossword) (d : Domains) (a : Assignment) : Prop :=
  NoDup (dict_keys a) /\
  forall v w, asg_get v a = Ok w -> In v (variables cw) /\ In w (dom_of v d).

(** The number of variables still to assign. *)
Definition remaining (d : Domains) (a : Assignment) : nat :=
  List.length (filter (unassigned a) (dict_keys d)).

(** What a call on the assignment [a] returns: a complete valid assignment,
    which is the shared dict itself and extends [a]; or [None], with the
    dict back to what it was and no solution extending [a]. *)
Definition found (cw : Crossword) (d : Domains) (a : Assignment)
  (out : option Assignment * Assignment) : Prop :=
  match fst out with
  | Some res =>
      res = snd out /\ extends a res /\ asg_ok cw d res /\
      assignment_complete d res = true /\ valid_assignment cw res
  | None => snd out = a
  end.

(** A call that returns [None] has shown that no solution extends [a]. *)
Definition exhausted (cw : Crossword) (d : Domains) (a : Assignment)
  (out : option Assignment * Assignment) : Prop :=
  fst out = None -> forall sol, extends a sol -> solution cw d sol -> False.

(** [a] comes before [b] in the order of [key]. *)
Definition key_le {A : Type} (key : A -> nat) (a b : A) : Prop :=
  key a <= key b.

(** ** Further vocabulary: [ac3] on a given list of arcs *)

(** The worklist [ac3] starts from. *)
Definition worklist (cw : Crossword) (arcs : option Arcs) : Arcs :=
  match arcs with
  | None => initial_arcs cw
  | Some l => l
  end.

(** A family of words, some for each variable, that lies within the store. *)
Definition within (cw : Crossword) (d : Domains)
  (sub : Var.t -> string -> Prop) : Prop :=
  forall x w, In x (variables cw) -> sub x w -> In w (dom_of x d).

(** A family of words that is arc consistent by itself: each of its words
    agrees, at every overlap, with a word of the family. *)
Definition self_supported (cw : Crossword)
  (sub : Var.t -> string -> Prop) : Prop :=
  forall x y ox oy wx,
    In x (variables cw) -> In y (variables cw) ->
    overlaps cw x y = Some (ox, oy) -> sub x wx ->
    exists wy, sub y wy /\ agrees ox oy wx wy = true.

(** ** [letter_grid] *)

(** [l[k]] and [l[k] = v] on a Python list, for a non-negative [k]. *)
Definition list_get {A : Type} (k : nat) (l : list A) : result A :=
  match nth_error l k with
  | Some a => Ok a
  | None => Raise IndexError
  end.

Fixpoint list_set {A : Type} (k : nat) (v : A) (l : list A) {struct l}
  : result (list A) :=
  match l, k with
  | [], _ => Raise IndexError
  | _ :: l', 0 => Ok (v :: l')
  | a :: l', S k' => l'' <- list_set k' v l' ;; Ok (a :: l'')
  end.

(** The 2D array of [letter_grid]: [None] or a letter in every cell. *)
Definition Grid : Type := list (list (option ascii)).

(** [letters[i][j]] *)
Definition grid_get (i j : nat) (letters : Grid) : result (option ascii) :=
  row <- list_get i letters ;;
  list_get j row.

(** [letters[i][j] = c] *)
Definition grid_set (i j : nat) (c : ascii) (letters : Grid) : result Grid :=
  row <- list_get i letters ;;
  row' <- list_set j (Some c) row ;;
  list_set i row' letters.

(** The cell of the [k]-th letter of a variable. *)
Definition cell (variable : Var.t) (k : nat) : nat * nat :=
  (Var.i variable
   + (match Var.direction variable with DOWN => k | ACROSS => 0 end),
   Var.j variable
   + (match Var.direction variable with ACROSS => k | DOWN => 0 end)).

(** [letter_grid]; [height] and [width] are those of the crossword. *)
Definition letter_grid (height width : nat) (assignment : Assignment)
  : result Grid :=
  let letters := repeat (repeat None width) height in
  for_each assignment
    (fun item letters =>
       let '(variable, word) := item in
       let direction := Var.direction variable in
       for_each (seq 0 (String.length word))
         (fun k letters =>
            let i := Var.i variable
                     + (match direction with DOWN => k | ACROSS => 0 end) in
            let j := Var.j variable
                     + (match direction with ACROSS => k | DOWN => 0 end) in
            c <- str_index word k ;;
            grid_set i j c letters)
         letters)
    letters.

(** The writes of [letter_grid] in the order it makes them: a cell and the
    letter put there. *)
Definition writes_word (variable : Var.t) (word : string) (ks : list nat)
  : list ((nat * nat) * ascii) :=
  flat_map (fun k => match String.get k word with
                     | Some c => [(cell variable k, c)]
                     | None => []
                     end) ks.

Definition writes (assignment : Assignment) : list ((nat * nat) * ascii) :=
  flat_map (fun item => writes_word (fst item) (snd item)
                          (seq 0 (String.length (snd item)))) assignment.

Definition write (wr : (nat * nat) * ascii) (letters : Grid) : result Grid :=
  grid_set (fst (fst wr)) (snd (fst wr)) (snd wr) letters.

(** A grid of [height] rows of [width] cells. *)
Definition dims (height width : nat) (letters : Grid) : Prop :=
  List.length letters = height /\
  forall row, In row letters -> List.length row = width.

(** * Properties *)

(** ** Equality of variables *)

Lemma direction_eqb_eq (a b : Direction) :
  Var.direction_eqb a b = true <-> a = b.
Proof. destruct a, b; simpl; split; congruence. Qed.

Lemma var_eqb_eq (a b : Var.t) : Var.eqb a b = true <-> a = b.
Proof.
  destruct a as [ai aj ad al], b as [bi bj bd bl]; unfold Var.eqb; simpl.
  rewrite !andb_true_iff, !Nat.eqb_eq, direction_eqb_eq.
  split.
  - intros [[[-> ->] ->] ->]; reflexivity.
  - intros H; injection H; auto.
Qed.

Lemma var_eqb_refl (a : Var.t) : Var.eqb a a = true.
Proof. apply var_eqb_eq; reflexivity. Qed.

Lemma var_eqb_neq (a b : Var.t) : Var.eqb a b = false <-> a <> b.
Proof.
  rewrite <- var_eqb_eq. destruct (Var.eqb a b); split; congruence.
Qed.

Lemma var_eq_dec (a b : Var.t) : {a = b} + {a <> b}.
Proof.
  destruct (Var.eqb a b) eqn:E.
  - left; apply var_eqb_eq; exact E.
  - right; apply var_eqb_neq; exact E.
Defined.

(** ** Dictionaries *)

Section DictFacts.

Context {K V : Type}.
Variable eqb : K -> K -> bool.
Hypothesis eqb_spec : forall a b, eqb a b = true <-> a = b.

Lemma eqb_same k : eqb k k = true.
Proof. apply eqb_spec; reflexivity. Qed.

Lemma eqb_diff k k' : k <> k' -> eqb k k' = false.
Proof.
  intros H; destruct (eqb k k') eqn:E; [ | reflexivity].
  apply eqb_spec in E; contradiction.
Qed.

Lemma dict_mem_keys k (d : list (K * V)) :
  dict_mem eqb k d = true <-> In k (dict_keys d).
Proof.
  induction d as [ | [k' v] d IH]; simpl.
  - split; [discriminate | tauto].
  - rewrite orb_true_iff, IH, eqb_spec. intuition congruence.
Qed.

Lemma dict_mem_false k (d : list (K * V)) :
  dict_mem eqb k d = false <-> ~ In k (dict_keys d).
Proof.
  rewrite <- dict_mem_keys. destruct (dict_mem eqb k d); split; congruence.
Qed.

Lemma dict_get_keys k (d : list (K * V)) :
  In k (dict_keys d) <-> exists v, dict_get eqb k d = Ok v.
Proof.
  induction d as [ | [k' v] d IH]; simpl.
  - split; [tauto | intros [v H]; discriminate].
  - destruct (eqb k k') eqn:E.
    + apply eqb_spec in E; subst. split; eauto.
    + rewrite <- IH. split; [ | tauto].
      intros [H | H]; [ | exact H].
      subst; rewrite eqb_same in E; discriminate.
Qed.

Lemma dict_get_raise k (d : list (K * V)) e :
  dict_get eqb k d = Raise e -> e = KeyError /\ ~ In k (dict_keys d).
Proof.
  induction d as [ | [k' v] d IH]; simpl.
  - intros H; injection H as <-; tauto.
  - destruct (eqb k k') eqn:E; [discriminate | ].
    intros H; destruct (IH H) as [He Hn]; split; [exact He | ].
    intros [Hk | Hk]; [ | tauto].
    subst; rewrite eqb_same in E; discriminate.
Qed.

Lemma dict_get_set_eq k v (d : list (K * V)) :
  dict_get eqb k (dict_set eqb k v d) = Ok v.
Proof.
  induction d as [ | [k' v'] d IH]; simpl.
  - rewrite eqb_same; reflexivity.
  - destruct (eqb k k') eqn:E; simpl; rewrite E; auto.
Qed.

Lemma dict_get_set_ne k k' v (d : list (K * V)) :
  k <> k' -> dict_get eqb k' (dict_set eqb k v d) = dict_get eqb k' d.
Proof.
  intros Hne. induction d as [ | [k1 v1] d IH]; simpl.
  - rewrite eqb_diff by congruence; reflexivity.
  - destruct (eqb k k1) eqn:E; simpl.
    + apply eqb_spec in E; subst. rewrite eqb_diff by congruence. reflexivity.
    + rewrite IH; reflexivity.
Qed.

Lemma dict_keys_set_in k v (d : list (K * V)) :
  In k (dict_keys d) -> dict_keys (dict_set eqb k v d) = dict_keys d.
Proof.
  induction d as [ | [k1 v1] d IH]; simpl; [tauto | ].
  intros H. destruct (eqb k k1) eqn:E; simpl; [reflexivity | ].
  f_equal. apply IH. destruct H as [H | H]; [ | exact H].
  subst; rewrite eqb_same in E; discriminate.
Qed.

Lemma dict_set_fresh k v (d : list (K * V)) :
  ~ In k (dict_keys d) -> dict_set eqb k v d = d ++ [(k, v)].
Proof.
  induction d as [ | [k1 v1] d IH]; simpl; [reflexivity | ].
  intros H. rewrite eqb_diff by (intros ->; tauto).
  f_equal. apply IH. tauto.
Qed.

Lemma dict_set_same k v (d : list (K * V)) :
  dict_get eqb k d = Ok v -> dict_set eqb k v d = d.
Proof.
  induction d as [ | [k1 v1] d IH]; simpl; [discriminate | ].
  destruct (eqb k k1) eqn:E.
  - intros H; injection H as ->; reflexivity.
  - intros H; rewrite IH by exact H; reflexivity.
Qed.

Lemma dict_set_set k v v' (d : list (K * V)) :
  dict_set eqb k v' (dict_set eqb k v d) = dict_set eqb k v' d.
Proof.
  induction d as [ | [k1 v1] d IH]; simpl.
  - rewrite eqb_same; reflexivity.
  - destruct (eqb k k1) eqn:E; simpl; rewrite E; [reflexivity | ].
    rewrite IH; reflexivity.
Qed.

Lemma dict_get_app_r k (d1 d2 : list (K * V)) :
  ~ In k (dict_keys d1) ->
  dict_get eqb k (d1 ++ d2) = dict_get eqb k d2.
Proof.
  induction d1 as [ | [k1 v1] d1 IH]; simpl; [reflexivity | ].
  intros H. rewrite eqb_diff by (intros ->; tauto). apply IH; tauto.
Qed.

Lemma dict_set_app_r k v (d1 d2 : list (K * V)) :
  ~ In k (dict_keys d1) ->
  dict_set eqb k v (d1 ++ d2) = d1 ++ dict_set eqb k v d2.
Proof.
  induction d1 as [ | [k1 v1] d1 IH]; simpl; [reflexivity | ].
  intros H. rewrite eqb_diff by (intros ->; tauto).
  rewrite IH by tauto; reflexivity.
Qed.

Lemma dict_del_app_r k (d1 d2 : list (K * V)) :
  ~ In k (dict_keys d1) ->
  dict_del eqb k (d1 ++ d2) = (d <- dict_del eqb k d2 ;; Ok (d1 ++ d)).
Proof.
  induction d1 as [ | [k1 v1] d1 IH]; simpl.
  - intros _. destruct (dict_del eqb k d2); reflexivity.
  - intros H. rewrite eqb_diff by (intros ->; tauto).
    rewrite IH by tauto. destruct (dict_del eqb k d2); reflexivity.
Qed.

(** Adding a fresh key and deleting it again gives the dict back. *)
Lemma dict_del_set_fresh k v (d : list (K * V)) :
  ~ In k (dict_keys d) -> dict_del eqb k (dict_set eqb k v d) = Ok d.
Proof.
  intros H. rewrite dict_set_fresh by exact H.
  rewrite dict_del_app_r by exact H. simpl.
  rewrite eqb_same. simpl. rewrite app_nil_r. reflexivity.
Qed.

End DictFacts.

Lemma string_eqb_eq (a b : string) : String.eqb a b = true <-> a = b.
Proof. apply String.eqb_eq. Qed.

Lemma dom_get_keys x (d : Domains) :
  In x (dict_keys d) <-> exists l, dom_get x d = Ok l.
Proof. apply (dict_get_keys Var.eqb var_eqb_eq). Qed.

Lemma dom_get_set_eq x l (d : Domains) :
  dom_get x (dict_set Var.eqb x l d) = Ok l.
Proof. apply (dict_get_set_eq Var.eqb var_eqb_eq). Qed.

Lemma dom_get_set_ne x z l (d : Domains) :
  x <> z -> dom_get z (dict_set Var.eqb x l d) = dom_get z d.
Proof. apply (dict_get_set_ne Var.eqb var_eqb_eq). Qed.

(** ** Sets of words *)

Lemma set_remove_middle w (l1 l2 : list string) :
  ~ In w l1 -> set_remove w (l1 ++ w :: l2) = Ok (l1 ++ l2).
Proof.
  induction l1 as [ | a l1 IH]; simpl; intros H.
  - rewrite String.eqb_refl; reflexivity.
  - destruct (String.eqb w a) eqn:E.
    + apply String.eqb_eq in E; subst; tauto.
    + rewrite IH by tauto; reflexivity.
Qed.

Lemma NoDup_app_notin {A : Type} (l1 l2 : list A) a :
  NoDup (l1 ++ a :: l2) -> ~ In a l1 /\ ~ In a l2 /\ NoDup (l1 ++ l2).
Proof.
  intros H. pose proof (NoDup_remove_1 _ _ _ H) as H1.
  pose proof (NoDup_remove_2 _ _ _ H) as H2.
  rewrite in_app_iff in H2. tauto.
Qed.

(** ** Node consistency *)

Lemma enforce_values_spec variable (rest pre : list string) (d : Domains) :
  dom_get variable d = Ok (pre ++ rest) ->
  NoDup (pre ++ rest) ->
  for_each rest (node_body variable) d
  = Ok (dict_set Var.eqb variable (pre ++ filter (node_ok variable) rest) d).
Proof.
  revert pre d. induction rest as [ | value rest IH]; intros pre d Hget Hnd.
  - simpl. rewrite (dict_set_same Var.eqb _ _ _ Hget). reflexivity.
  - simpl. unfold node_body at 1, node_ok at 1.
    destruct (String.length value =? Var.length variable) eqn:E; simpl.
    + replace (pre ++ value :: filter (node_ok variable) rest)
        with ((pre ++ [value]) ++ filter (node_ok variable) rest)
        by (rewrite <- app_assoc; reflexivity).
      apply IH; rewrite <- app_assoc; assumption.
    + destruct (NoDup_app_notin _ _ _ Hnd) as [Hpre [_ Hnd']].
      unfold dom_remove. rewrite Hget. simpl.
      rewrite set_remove_middle by exact Hpre. simpl.
      rewrite (IH pre).
      * rewrite (dict_set_set Var.eqb var_eqb_eq). reflexivity.
      * apply dom_get_set_eq.
      * exact Hnd'.
Qed.

Lemma enforce_vars_spec (d2 d1 : Domains) :
  NoDup (dict_keys (d1 ++ d2)) ->
  (forall x l, In (x, l) d2 -> NoDup l) ->
  for_each (dict_keys d2) enforce_body (d1 ++ d2)
  = Ok (d1 ++ map node_filter d2).
Proof.
  revert d1. induction d2 as [ | [v l] d2 IH]; intros d1 Hnd Hsets.
  - simpl. rewrite app_nil_r. reflexivity.
  - simpl. unfold enforce_body at 1.
    assert (Hv : ~ In v (dict_keys d1)).
    { unfold dict_keys in *. rewrite map_app in Hnd. simpl in Hnd.
      apply NoDup_app_notin in Hnd. tauto. }
    assert (Hget : dom_get v (d1 ++ (v, l) :: d2) = Ok l).
    { unfold dom_get. rewrite (dict_get_app_r Var.eqb var_eqb_eq) by exact Hv.
      simpl. rewrite var_eqb_refl. reflexivity. }
    rewrite Hget. simpl.
    rewrite (enforce_values_spec v l [] _ Hget) by (apply (Hsets v); simpl; auto).
    simpl. rewrite (dict_set_app_r Var.eqb var_eqb_eq) by exact Hv.
    simpl. rewrite var_eqb_refl.
    change (d1 ++ (v, filter (node_ok v) l) :: d2)
      with (d1 ++ [(v, filter (node_ok v) l)] ++ d2).
    rewrite app_assoc. rewrite IH.
    + rewrite <- app_assoc. reflexivity.
    + rewrite <- app_assoc. simpl.
      unfold dict_keys in *. rewrite map_app in *. simpl in *. exact Hnd.
    + intros x l' H. apply (Hsets x). simpl; auto.
Qed.

Lemma enforce_node_consistency_spec (d : Domains) :
  NoDup (dict_keys d) ->
  (forall x l, In (x, l) d -> NoDup l) ->
  enforce_node_consistency d = Ok (map node_filter d).
Proof.
  intros Hnd Hsets. apply (enforce_vars_spec d [] Hnd Hsets).
Qed.

Lemma init_keys (cw : Crossword) : dict_keys (init cw) = variables cw.
Proof.
  unfold init, dict_keys. rewrite map_map. simpl. apply map_id.
Qed.

Lemma dom_get_map_filter v (d : Domains) l :
  dom_get v d = Ok l ->
  dom_get v (map node_filter d) = Ok (filter (node_ok v) l).
Proof.
  unfold dom_get. induction d as [ | [k l'] d IH]; simpl; [discriminate | ].
  destruct (Var.eqb v k) eqn:E.
  - apply var_eqb_eq in E; subst. intros H; injection H as ->. reflexivity.
  - exact IH.
Qed.

Lemma dom_get_init (cw : Crossword) v :
  In v (variables cw) -> dom_get v (init cw) = Ok (words cw).
Proof.
  unfold dom_get, init. induction (variables cw) as [ | k l IH]; simpl; [tauto | ].
  intros H. destruct (Var.eqb v k) eqn:E; [reflexivity | ].
  apply IH. destruct H as [H | H]; [ | exact H].
  subst. rewrite var_eqb_refl in E. discriminate.
Qed.

(** ** Characters of words *)

Lemma string_get_lt (s : string) (k : nat) :
  k < String.length s -> exists c, String.get k s = Some c.
Proof.
  revert k. induction s as [ | a s IH]; simpl; intros k H; [lia | ].
  destruct k as [ | k]; [eauto | ]. apply IH. lia.
Qed.

Lemma str_index_lt (s : string) (k : nat) :
  k < String.length s -> exists c, str_index s k = Ok c /\ String.get k s = Some c.
Proof.
  intros H. destruct (string_get_lt s k H) as [c Hc].
  exists c. unfold str_index. rewrite Hc. auto.
Qed.

Lemma agrees_iff ox oy wx wy :
  agrees ox oy wx wy = true <->
  exists c, String.get ox wx = Some c /\ String.get oy wy = Some c.
Proof.
  unfold agrees.
  destruct (String.get oy wy) as [cy | ], (String.get ox wx) as [cx | ].
  - rewrite Ascii.eqb_eq. split.
    + intros ->; eauto.
    + intros [c [H1 H2]]; congruence.
  - split; [discriminate | intros [c [H _]]; discriminate].
  - split; [discriminate | intros [c [_ H]]; discriminate].
  - split; [discriminate | intros [c [H _]]; discriminate].
Qed.

Lemma agrees_sym ox oy wx wy : agrees ox oy wx wy = agrees oy ox wy wx.
Proof.
  unfold agrees.
  destruct (String.get oy wy) as [cy | ], (String.get ox wx) as [cx | ];
    try reflexivity.
  apply Ascii.eqb_sym.
Qed.

(** ** [revise] *)

Lemma any_agrees_spec ox oy valueX (ys : list string) :
  ox < String.length valueX ->
  (forall wy, In wy ys -> oy < String.length wy) ->
  any_agrees ox oy valueX ys = Ok (supported ox oy valueX ys).
Proof.
  intros Hx. induction ys as [ | valueY ys IH]; intros Hy; simpl.
  - reflexivity.
  - destruct (str_index_lt valueY oy (Hy _ (or_introl eq_refl))) as [cy [Hcy Hgy]].
    destruct (str_index_lt valueX ox Hx) as [cx [Hcx Hgx]].
    rewrite Hcy, Hcx. simpl. unfold agrees at 1. rewrite Hgy, Hgx.
    destruct (Ascii.eqb cy cx); simpl; [reflexivity | ].
    apply IH. intros wy H; apply Hy; simpl; auto.
Qed.

Lemma overlap_keys_In cw x y :
  In (x, y) (overlap_keys cw) <->
  In x (variables cw) /\ In y (variables cw) /\ x <> y.
Proof.
  unfold overlap_keys. rewrite filter_In, in_prod_iff. simpl.
  rewrite negb_true_iff, var_eqb_neq. tauto.
Qed.

(** The overlap table answers at every ordered pair of distinct variables of
    the puzzle, and only there. *)
Lemma overlaps_get_Ok cw x y :
  In x (variables cw) -> In y (variables cw) -> x <> y ->
  overlaps_get cw x y = Ok (overlaps cw x y).
Proof.
  intros Hx Hy Hxy. unfold overlaps_get.
  replace (existsb _ (overlap_keys cw)) with true; [reflexivity | ].
  symmetry. apply existsb_exists. exists (x, y). split.
  - apply overlap_keys_In. auto.
  - simpl. rewrite !var_eqb_refl. reflexivity.
Qed.

Lemma overlaps_get_inv cw x y o :
  overlaps_get cw x y = Ok o ->
  o = overlaps cw x y /\
  In x (variables cw) /\ In y (variables cw) /\ x <> y.
Proof.
  unfold overlaps_get.
  destruct (existsb _ (overlap_keys cw)) eqn:E; [ | discriminate].
  intros H; injection H as <-. split; [reflexivity | ].
  apply existsb_exists in E. destruct E as [[a b] [Hin Hab]]. simpl in Hab.
  apply andb_true_iff in Hab. destruct Hab as [Ha Hb].
  apply var_eqb_eq in Ha, Hb. subst a b.
  apply overlap_keys_In. exact Hin.
Qed.

Lemma overlaps_get_raise cw x y e :
  overlaps_get cw x y = Raise e -> e = KeyError.
Proof.
  unfold overlaps_get. destruct (existsb _ (overlap_keys cw)).
  - discriminate.
  - intros H; injection H as <-. reflexivity.
Qed.

Lemma overlaps_get_same cw x : overlaps_get cw x x = Raise KeyError.
Proof.
  destruct (overlaps_get cw x x) as [o | e] eqn:E.
  - apply overlaps_get_inv in E. tauto.
  - apply overlaps_get_raise in E. subst e. reflexivity.
Qed.

Lemma revise_unfold cw x y d :
  revise cw x y d =
  (overlap <- overlaps_get cw x y ;;
   X_copy <- dom_get x d ;;
   match overlap with
   | Some (ox, oy) => for_each X_copy (revise_body x y ox oy) (false, d)
   | None => Ok (false, d)
   end).
Proof. reflexivity. Qed.

(** A call that returns was given two distinct variables of the puzzle. *)
Lemma revise_Ok_distinct cw x y d r :
  revise cw x y d = Ok r ->
  In x (variables cw) /\ In y (variables cw) /\ x <> y.
Proof.
  rewrite revise_unfold.
  destruct (overlaps_get cw x y) as [o | e] eqn:E; [ | discriminate].
  intros _. apply overlaps_get_inv in E. tauto.
Qed.

Lemma revise_loop x y ox oy ly (rest pre : list string) revised (d : Domains) :
  x <> y ->
  dom_get x d = Ok (pre ++ rest) ->
  dom_get y d = Ok ly ->
  NoDup (pre ++ rest) ->
  (forall w, In w rest -> ox < String.length w) ->
  (forall w, In w ly -> oy < String.length w) ->
  for_each rest (revise_body x y ox oy) (revised, d)
  = Ok (revised || existsb (fun w => negb (supported ox oy w ly)) rest,
        dict_set Var.eqb x
          (pre ++ filter (fun w => supported ox oy w ly) rest) d).
Proof.
  intros Hxy. revert pre revised d.
  induction rest as [ | valueX rest IH]; intros pre revised d Hx Hy Hnd Hlx Hly.
  - simpl. rewrite orb_false_r.
    rewrite (dict_set_same Var.eqb _ _ _ Hx). reflexivity.
  - simpl. unfold revise_body at 1. rewrite Hy. simpl.
    rewrite any_agrees_spec by (auto; apply Hlx; simpl; auto). simpl.
    destruct (supported ox oy valueX ly) eqn:E; simpl.
    + replace (pre ++ valueX :: filter (fun w => supported ox oy w ly) rest)
        with ((pre ++ [valueX]) ++ filter (fun w => supported ox oy w ly) rest)
        by (rewrite <- app_assoc; reflexivity).
      apply IH; try rewrite <- app_assoc; simpl; auto.
      intros w Hw; apply Hlx; simpl; auto.
    + destruct (NoDup_app_notin _ _ _ Hnd) as [Hpre [_ Hnd']].
      unfold dom_remove. rewrite Hx. simpl.
      rewrite set_remove_middle by exact Hpre. simpl.
      rewrite (IH pre); auto; [ | | | intros w Hw; apply Hlx; simpl; auto].
      * rewrite (dict_set_set Var.eqb var_eqb_eq).
        rewrite orb_true_r. reflexivity.
      * apply dom_get_set_eq.
      * rewrite dom_get_set_ne by exact Hxy. exact Hy.
Qed.

Lemma inv_dom_get cw d x :
  domains_inv cw d -> In x (variables cw) -> exists l, dom_get x d = Ok l.
Proof.
  intros Hinv Hx. apply dom_get_keys. rewrite (inv_keys _ _ Hinv). exact Hx.
Qed.

(** Replacing a domain by a subset of it keeps the invariant. *)
Lemma inv_shrink cw d x lx lx' :
  domains_inv cw d ->
  dom_get x d = Ok lx ->
  NoDup lx' -> incl lx' lx ->
  domains_inv cw (dict_set Var.eqb x lx' d).
Proof.
  intros Hinv Hx Hnd Hincl.
  assert (Hk : In x (dict_keys d)) by (apply dom_get_keys; eauto).
  split.
  - rewrite (dict_keys_set_in Var.eqb var_eqb_eq) by exact Hk.
    apply (inv_keys _ _ Hinv).
  - intros z l Hz. destruct (var_eq_dec x z) as [-> | Hne].
    + rewrite dom_get_set_eq in Hz. injection Hz as <-. exact Hnd.
    + rewrite dom_get_set_ne in Hz by exact Hne.
      apply (inv_sets _ _ Hinv z l Hz).
  - intros z l w Hz Hw. destruct (var_eq_dec x z) as [-> | Hne].
    + rewrite dom_get_set_eq in Hz. injection Hz as <-.
      apply (inv_node _ _ Hinv z lx w Hx). apply Hincl; exact Hw.
    + rewrite dom_get_set_ne in Hz by exact Hne.
      apply (inv_node _ _ Hinv z l w Hz Hw).
Qed.

Lemma revise_ok cw d x y lx ly :
  wf_crossword cw -> domains_inv cw d ->
  In x (variables cw) -> In y (variables cw) -> x <> y ->
  dom_get x d = Ok lx -> dom_get y d = Ok ly ->
  revise cw x y d =
  Ok (match overlaps cw x y with
      | Some (ox, oy) =>
          (existsb (fun w => negb (supported ox oy w ly)) lx,
           dict_set Var.eqb x (revised_domain ox oy lx ly) d)
      | None => (false, d)
      end).
Proof.
  intros Hwf Hinv Hxin Hyin Hxy Hx Hy.
  rewrite revise_unfold, (overlaps_get_Ok cw x y Hxin Hyin Hxy), Hx. simpl.
  destruct (overlaps cw x y) as [[ox oy] | ] eqn:Hov; [ | reflexivity].
  destruct (wf_range _ Hwf x y ox oy Hxin Hyin Hov) as [Hox Hoy].
  rewrite (revise_loop x y ox oy ly lx [] false d Hxy Hx Hy).
  - reflexivity.
  - apply (inv_sets _ _ Hinv x lx Hx).
  - intros w Hw. rewrite (inv_node _ _ Hinv x lx w Hx Hw). exact Hox.
  - intros w Hw. rewrite (inv_node _ _ Hinv y ly w Hy Hw). exact Hoy.
Qed.

Lemma supported_iff ox oy wx ly :
  supported ox oy wx ly = true <->
  exists wy, In wy ly /\ agrees ox oy wx wy = true.
Proof. unfold supported. apply existsb_exists. Qed.

Lemma revised_domain_In ox oy lx ly w :
  In w (revised_domain ox oy lx ly) <->
  In w lx /\ supported ox oy w ly = true.
Proof. unfold revised_domain. apply filter_In. Qed.

Lemma revised_domain_incl ox oy lx ly : incl (revised_domain ox oy lx ly) lx.
Proof. intros w Hw. apply revised_domain_In in Hw. tauto. Qed.

Lemma revised_domain_NoDup ox oy lx ly :
  NoDup lx -> NoDup (revised_domain ox oy lx ly).
Proof. apply NoDup_filter. Qed.

Lemma revise_inv cw d x y revised d' :
  wf_crossword cw -> domains_inv cw d ->
  In x (variables cw) -> In y (variables cw) ->
  revise cw x y d = Ok (revised, d') ->
  domains_inv cw d'.
Proof.
  intros Hwf Hinv Hxin Hyin Hrev.
  destruct (revise_Ok_distinct _ _ _ _ _ Hrev) as [_ [_ Hxy]].
  destruct (inv_dom_get _ _ _ Hinv Hxin) as [lx Hx].
  destruct (inv_dom_get _ _ _ Hinv Hyin) as [ly Hy].
  rewrite (revise_ok cw d x y lx ly Hwf Hinv Hxin Hyin Hxy Hx Hy) in Hrev.
  destruct (overlaps cw x y) as [[ox oy] | ]; injection Hrev as <- <-.
  - apply (inv_shrink cw d x lx _ Hinv Hx).
    + apply revised_domain_NoDup, (inv_sets _ _ Hinv x lx Hx).
    + apply revised_domain_incl.
  - exact Hinv.
Qed.

(** C6. After [__init__] and [enforce_node_consistency], the domain of every
    variable holds exactly the words of the vocabulary that have the
    variable's length. *)
Theorem node_consistency_exact cw :
  NoDup (variables cw) -> NoDup (words cw) ->
  exists d,
    enforce_node_consistency (init cw) = Ok d /\
    forall v, In v (variables cw) ->
      exists l, dom_get v d = Ok l /\
        forall w, In w l <->
                  In w (words cw) /\ String.length w = Var.length v.
Proof.
  intros Hvars Hwords.
  exists (map node_filter (init cw)). split.
  - apply enforce_node_consistency_spec.
    + rewrite init_keys. exact Hvars.
    + intros x l H. unfold init in H. apply in_map_iff in H.
      destruct H as [v [E _]]. injection E as _ <-. exact Hwords.
  - intros v Hv. exists (filter (node_ok v) (words cw)). split.
    + apply dom_get_map_filter, dom_get_init, Hv.
    + intros w. rewrite filter_In. unfold node_ok. rewrite Nat.eqb_eq.
      reflexivity.
Qed.

Lemma node_filter_keys (d : Domains) :
  dict_keys (map node_filter d) = dict_keys d.
Proof. unfold dict_keys. rewrite map_map. reflexivity. Qed.

(** The state [solve] hands to [ac3] satisfies the invariant of the store. *)
Lemma node_filter_inv cw :
  NoDup (variables cw) -> NoDup (words cw) ->
  domains_inv cw (map node_filter (init cw)).
Proof.
  intros Hvars Hwords.
  assert (Hin : forall x l, dom_get x (map node_filter (init cw)) = Ok l ->
                            l = filter (node_ok x) (words cw)).
  { intros x l Hx.
    assert (Hk : In x (variables cw)).
    { rewrite <- init_keys, <- node_filter_keys. apply dom_get_keys; eauto. }
    rewrite (dom_get_map_filter x _ _ (dom_get_init cw x Hk)) in Hx.
    injection Hx as <-. reflexivity. }
  split.
  - rewrite node_filter_keys. apply init_keys.
  - intros x l Hx. rewrite (Hin x l Hx). apply NoDup_filter, Hwords.
  - intros x l w Hx Hw. rewrite (Hin x l Hx) in Hw.
    apply filter_In in Hw. destruct Hw as [_ Hw].
    unfold node_ok in Hw. apply Nat.eqb_eq. exact Hw.
Qed.

(** ** [revise] without the length invariant: what a returning call did *)

Lemma any_agrees_Ok ox oy valueX (ys : list string) b :
  any_agrees ox oy valueX ys = Ok b -> b = supported ox oy valueX ys.
Proof.
  induction ys as [ | valueY ys IH]; simpl.
  - intros H; injection H as <-; reflexivity.
  - unfold str_index, agrees.
    destruct (String.get oy valueY) as [cy | ]; simpl; [ | discriminate].
    destruct (String.get ox valueX) as [cx | ]; simpl; [ | discriminate].
    destruct (Ascii.eqb cy cx); simpl.
    + intros H; injection H as <-; reflexivity.
    + exact IH.
Qed.

Lemma revise_loop_Ok x y ox oy ly (rest pre : list string) revised (d : Domains)
  r' d' :
  x <> y ->
  dom_get x d = Ok (pre ++ rest) ->
  dom_get y d = Ok ly ->
  NoDup (pre ++ rest) ->
  for_each rest (revise_body x y ox oy) (revised, d) = Ok (r', d') ->
  r' = revised || existsb (fun w => negb (supported ox oy w ly)) rest /\
  d' = dict_set Var.eqb x (pre ++ revised_domain ox oy rest ly) d.
Proof.
  intros Hxy. revert pre revised d.
  induction rest as [ | valueX rest IH];
    intros pre revised d Hx Hy Hnd Hrun; simpl in Hrun.
  - injection Hrun as <- <-. simpl. rewrite orb_false_r.
    rewrite (dict_set_same Var.eqb _ _ _ Hx). auto.
  - unfold revise_body at 1 in Hrun. rewrite Hy in Hrun. simpl in Hrun.
    destruct (any_agrees ox oy valueX ly) as [b | e] eqn:Hany;
      [ | discriminate].
    apply any_agrees_Ok in Hany. subst b. simpl in Hrun.
    unfold revised_domain. simpl.
    destruct (supported ox oy valueX ly) eqn:E; simpl in Hrun |- *.
    + replace (pre ++ valueX :: filter (fun w => supported ox oy w ly) rest)
        with ((pre ++ [valueX]) ++ revised_domain ox oy rest ly)
        by (rewrite <- app_assoc; reflexivity).
      apply IH; try rewrite <- app_assoc; simpl; auto.
    + destruct (NoDup_app_notin _ _ _ Hnd) as [Hpre [_ Hnd']].
      unfold dom_remove in Hrun. rewrite Hx in Hrun. simpl in Hrun.
      rewrite set_remove_middle in Hrun by exact Hpre. simpl in Hrun.
      apply (IH pre) in Hrun; auto.
      * destruct Hrun as [-> ->].
        rewrite (dict_set_set Var.eqb var_eqb_eq).
        rewrite orb_true_r. auto.
      * apply dom_get_set_eq.
      * rewrite dom_get_set_ne by exact Hxy. exact Hy.
Qed.

Lemma inv_rep cw d : domains_inv cw d -> domains_rep cw d.
Proof. intros [H1 H2 _]. split; assumption. Qed.

Lemma rep_dom_get cw d x :
  domains_rep cw d -> In x (variables cw) -> exists l, dom_get x d = Ok l.
Proof.
  intros Hrep Hx. apply dom_get_keys. rewrite (rep_keys _ _ Hrep). exact Hx.
Qed.

Lemma rep_shrink cw d x lx' :
  domains_rep cw d -> In x (variables cw) -> NoDup lx' ->
  domains_rep cw (dict_set Var.eqb x lx' d).
Proof.
  intros Hrep Hx Hnd. split.
  - rewrite (dict_keys_set_in Var.eqb var_eqb_eq).
    + apply (rep_keys _ _ Hrep).
    + rewrite (rep_keys _ _ Hrep). exact Hx.
  - intros z l Hz. destruct (var_eq_dec x z) as [-> | Hne].
    + rewrite dom_get_set_eq in Hz. injection Hz as <-. exact Hnd.
    + rewrite dom_get_set_ne in Hz by exact Hne.
      apply (rep_sets _ _ Hrep z l Hz).
Qed.

Lemma revise_Ok cw d x y r d' :
  wf_crossword cw -> domains_rep cw d ->
  In x (variables cw) -> In y (variables cw) ->
  revise cw x y d = Ok (r, d') ->
  exists lx ly,
    dom_get x d = Ok lx /\ dom_get y d = Ok ly /\
    (r, d') = revise_result cw x y lx ly d.
Proof.
  intros Hwf Hrep Hxin Hyin Hrev.
  destruct (rep_dom_get _ _ _ Hrep Hxin) as [lx Hx].
  destruct (rep_dom_get _ _ _ Hrep Hyin) as [ly Hy].
  exists lx, ly. split; [exact Hx | ]. split; [exact Hy | ].
  destruct (revise_Ok_distinct _ _ _ _ _ Hrev) as [_ [_ Hxy]].
  rewrite revise_unfold, (overlaps_get_Ok cw x y Hxin Hyin Hxy), Hx in Hrev.
  simpl in Hrev. unfold revise_result.
  destruct (overlaps cw x y) as [[ox oy] | ] eqn:Hov.
  - apply (revise_loop_Ok x y ox oy ly lx [] false d r d' Hxy Hx Hy) in Hrev.
    + destruct Hrev as [-> ->]. reflexivity.
    + apply (rep_sets _ _ Hrep x lx Hx).
  - injection Hrev as <- <-. reflexivity.
Qed.

(** A call that reports no change left the store as it was. *)
Lemma revise_result_false cw x y lx ly d d' :
  dom_get x d = Ok lx ->
  revise_result cw x y lx ly d = (false, d') -> d' = d.
Proof.
  intros Hx. unfold revise_result.
  destruct (overlaps cw x y) as [[ox oy] | ]; intros H;
    [injection H as Hr <- | injection H as <-; reflexivity].
  assert (E : revised_domain ox oy lx ly = lx).
  { unfold revised_domain. clear Hx. induction lx as [ | w lx IH]; simpl in *.
    - reflexivity.
    - apply orb_false_iff in Hr. destruct Hr as [Hw Hr].
      apply negb_false_iff in Hw. rewrite Hw, IH by exact Hr. reflexivity. }
  rewrite E. apply (dict_set_same Var.eqb _ _ _ Hx).
Qed.

(** A call that reports a change removed a word. *)
Lemma revise_result_true cw x y lx ly d d' :
  revise_result cw x y lx ly d = (true, d') ->
  exists ox oy,
    overlaps cw x y = Some (ox, oy) /\
    d' = dict_set Var.eqb x (revised_domain ox oy lx ly) d /\
    List.length (revised_domain ox oy lx ly) < List.length lx.
Proof.
  unfold revise_result.
  destruct (overlaps cw x y) as [[ox oy] | ]; intros H; [ | discriminate].
  injection H as Hr <-. exists ox, oy. split; [reflexivity | ].
  split; [reflexivity | ].
  unfold revised_domain. induction lx as [ | w lx IH]; simpl in *.
  - discriminate.
  - destruct (supported ox oy w ly); simpl in *.
    + apply IH in Hr. lia.
    + pose proof (filter_length_le (fun w => supported ox oy w ly) lx). lia.
Qed.

(** C7. [revise(x, y)] for two variables of the puzzle, on any state of the
    domain store.  A call that returns has removed from [domain[x]] exactly
    the words that no word of [domain[y]] agrees with at the overlap; it
    returns [True] iff it removed a word; every other domain, [domain[y]]
    among them, is left as it was and no domain gains a word; without an
    overlap nothing changes and the result is [False].  And for two distinct
    variables, on a store that satisfies the length invariant, the call does
    return; the overlap table has no entry for a variable and itself, where
    the call raises [KeyError]. *)
Theorem revise_spec cw d x y :
  wf_crossword cw -> domains_rep cw d ->
  In x (variables cw) -> In y (variables cw) ->
  (x <> y -> domains_inv cw d ->
   exists revised d', revise cw x y d = Ok (revised, d')) /\
  (x = y -> revise cw x y d = Raise KeyError) /\
  forall revised d',
    revise cw x y d = Ok (revised, d') ->
    exists lx ly lx',
      dom_get x d = Ok lx /\ dom_get y d = Ok ly /\ dom_get x d' = Ok lx' /\
      (forall wx,
          In wx lx' <->
          In wx lx /\
          forall ox oy, overlaps cw x y = Some (ox, oy) ->
                        exists wy, In wy ly /\ agrees ox oy wx wy = true) /\
      (revised = true <-> exists wx, In wx lx /\ ~ In wx lx') /\
      (forall z, z <> x -> dom_get z d' = dom_get z d) /\
      dom_get y d' = dom_get y d /\
      (forall z l' w, dom_get z d' = Ok l' -> In w l' ->
                      exists l, dom_get z d = Ok l /\ In w l) /\
      (overlaps cw x y = None -> revised = false /\ d' = d).
Proof.
  intros Hwf Hrep Hxin Hyin. split; [ | split].
  - intros Hxy Hinv.
    destruct (inv_dom_get _ _ _ Hinv Hxin) as [lx Hx].
    destruct (inv_dom_get _ _ _ Hinv Hyin) as [ly Hy].
    rewrite (revise_ok cw d x y lx ly Hwf Hinv Hxin Hyin Hxy Hx Hy).
    destruct (overlaps cw x y) as [[ox oy] | ]; eauto.
  - intros ->. rewrite revise_unfold, overlaps_get_same. reflexivity.
  - intros revised d' Hrev.
    destruct (revise_Ok_distinct _ _ _ _ _ Hrev) as [_ [_ Hxy]].
    destruct (revise_Ok cw d x y revised d' Hwf Hrep Hxin Hyin Hrev)
      as [lx [ly [Hx [Hy Hres]]]].
    unfold revise_result in Hres.
    destruct (overlaps cw x y) as [[ox oy] | ] eqn:Hov;
      injection Hres as -> ->.
    + exists lx, ly, (revised_domain ox oy lx ly).
      split; [exact Hx | ]. split; [exact Hy | ].
      split; [apply dom_get_set_eq | ].
      split; [ | split; [ | split; [ | split; [ | split]]]].
      * intros wx. rewrite revised_domain_In, supported_iff. split.
        -- intros [Hin Hsup]. split; [exact Hin | ].
           intros ox' oy' E; injection E as <- <-. exact Hsup.
        -- intros [Hin Hsup]. split; [exact Hin | ]. apply Hsup; reflexivity.
      * rewrite existsb_exists. split.
        -- intros [wx [Hin Hneg]]. exists wx. split; [exact Hin | ].
           rewrite revised_domain_In. intros [_ Hsup].
           rewrite Hsup in Hneg. discriminate.
        -- intros [wx [Hin Hnot]]. exists wx. split; [exact Hin | ].
           destruct (supported ox oy wx ly) eqn:E; [ | reflexivity].
           exfalso. apply Hnot. apply revised_domain_In. auto.
      * intros z Hz. apply dom_get_set_ne. congruence.
      * apply dom_get_set_ne. exact Hxy.
      * intros z l' w Hz Hw. destruct (var_eq_dec x z) as [<- | Hne].
        -- rewrite dom_get_set_eq in Hz. injection Hz as <-.
           exists lx. split; [exact Hx | ].
           apply (revised_domain_incl _ _ _ _ _ Hw).
        -- rewrite dom_get_set_ne in Hz by exact Hne. eauto.
      * discriminate.
    + exists lx, ly, lx.
      split; [exact Hx | ]. split; [exact Hy | ]. split; [exact Hx | ].
      split; [ | split; [ | split; [ | split; [ | split]]]].
      * intros wx. split; [ | tauto].
        intros H; split; [exact H | discriminate].
      * split; [discriminate | intros [wx [H1 H2]]; contradiction].
      * reflexivity.
      * reflexivity.
      * intros z l' w Hz Hw. eauto.
      * auto.
Qed.

(** ** The runs of the loop of [ac3] *)

Lemma ac3_loop_run cw fuel arcs d b df :
  ac3_loop cw fuel arcs d = Ok (b, df) -> ac3_run cw arcs d b df.
Proof.
  revert arcs d. induction fuel as [ | fuel IH]; intros arcs d H.
  - destruct arcs as [ | [x y] arcs]; simpl in H.
    + injection H as <- <-. constructor.
    + discriminate.
  - destruct arcs as [ | [x y] arcs]; simpl in H.
    + injection H as <- <-. constructor.
    + destruct (revise cw x y d) as [[revised d'] | e] eqn:Hrev;
        simpl in H; [ | discriminate].
      destruct revised.
      * destruct (dom_get x d') as [dx | e] eqn:Hx; simpl in H; [ | discriminate].
        destruct dx as [ | w dx]; simpl in H.
        -- injection H as <- <-. eapply run_empty; eassumption.
        -- eapply run_more; eauto.
      * eapply run_same; eauto.
Qed.

Lemma neighbors_In cw x z :
  In z (neighbors cw x) <->
  In z (variables cw) /\ z <> x /\ overlaps cw x z <> None.
Proof.
  unfold neighbors. rewrite filter_In, andb_true_iff, negb_true_iff, var_eqb_neq.
  destruct (overlaps cw x z); intuition congruence.
Qed.

Lemma enqueue_neighbors_In cw x y arcs a :
  In a (enqueue_neighbors cw x y arcs) <->
  In a arcs \/ exists z, a = (z, x) /\ In z (neighbors cw x) /\ z <> y.
Proof.
  unfold enqueue_neighbors. revert arcs.
  induction (neighbors cw x) as [ | n l IH]; intros arcs; simpl.
  - split; [auto | intros [H | [z [_ [[] _]]]]; exact H].
  - rewrite IH. destruct (Var.eqb n y) eqn:E; simpl.
    + apply var_eqb_eq in E. subst n. split.
      * intros [H | [z [H1 [H2 H3]]]]; [auto | right; exists z; auto].
      * intros [H | [z [H1 [[H2 | H2] H3]]]]; [auto | congruence | ].
        right; exists z; auto.
    + apply var_eqb_neq in E. split.
      * intros [[H | H] | [z [H1 [H2 H3]]]]; [ | auto | right; exists z; auto].
        right; exists n; auto.
      * intros [H | [z [H1 [[H2 | H2] H3]]]]; [auto | | right; exists z; auto].
        subst. left; left; reflexivity.
Qed.

Lemma enqueue_neighbors_ok cw x y arcs :
  In x (variables cw) -> arcs_ok cw arcs ->
  arcs_ok cw (enqueue_neighbors cw x y arcs).
Proof.
  intros Hx Hok a b H. apply enqueue_neighbors_In in H.
  destruct H as [H | [z [E [Hz _]]]]; [apply Hok; exact H | ].
  injection E as -> ->. apply neighbors_In in Hz. tauto.
Qed.

Lemma enqueue_neighbors_length cw x y arcs :
  List.length (enqueue_neighbors cw x y arcs)
  <= List.length arcs + List.length (neighbors cw x).
Proof.
  unfold enqueue_neighbors. revert arcs.
  induction (neighbors cw x) as [ | n l IH]; intros arcs; simpl; [lia | ].
  specialize (IH (if negb (Var.eqb n y) then (n, x) :: arcs else arcs)).
  destruct (negb (Var.eqb n y)); simpl in IH; lia.
Qed.

Lemma neighbors_length cw x :
  List.length (neighbors cw x) <= List.length (variables cw).
Proof. apply filter_length_le. Qed.

Lemma shrinks_refl d : shrinks d d.
Proof. intros z l H. exists l. split; [exact H | apply incl_refl]. Qed.

Lemma shrinks_trans d1 d2 d3 : shrinks d1 d2 -> shrinks d2 d3 -> shrinks d1 d3.
Proof.
  intros H12 H23 z l3 H3.
  destruct (H23 z l3 H3) as [l2 [H2 I2]].
  destruct (H12 z l2 H2) as [l1 [H1 I1]].
  exists l1. split; [exact H1 | ]. eapply incl_tran; eassumption.
Qed.

Lemma revise_result_shrinks cw x y lx ly d r d' :
  dom_get x d = Ok lx ->
  (r, d') = revise_result cw x y lx ly d ->
  shrinks d d'.
Proof.
  intros Hx H. unfold revise_result in H.
  destruct (overlaps cw x y) as [[ox oy] | ]; injection H as _ ->;
    [ | apply shrinks_refl].
  intros z l' Hz. destruct (var_eq_dec x z) as [<- | Hne].
  - rewrite dom_get_set_eq in Hz. injection Hz as <-.
    exists lx. split; [exact Hx | apply revised_domain_incl].
  - rewrite dom_get_set_ne in Hz by exact Hne.
    exists l'. split; [exact Hz | apply incl_refl].
Qed.

Lemma revise_result_rep cw x y lx ly d r d' :
  domains_rep cw d -> In x (variables cw) ->
  dom_get x d = Ok lx ->
  (r, d') = revise_result cw x y lx ly d ->
  domains_rep cw d'.
Proof.
  intros Hrep Hxin Hx H. unfold revise_result in H.
  destruct (overlaps cw x y) as [[ox oy] | ]; injection H as _ ->;
    [ | exact Hrep].
  apply rep_shrink; auto.
  apply revised_domain_NoDup, (rep_sets _ _ Hrep x lx Hx).
Qed.

(** What one iteration of the loop of [ac3] establishes. *)
Lemma ac3_step cw x y arcs d r d' :
  wf_crossword cw -> domains_rep cw d -> arcs_ok cw ((x, y) :: arcs) ->
  revise cw x y d = Ok (r, d') ->
  In x (variables cw) /\ In y (variables cw) /\
  domains_rep cw d' /\ shrinks d d' /\
  arcs_ok cw arcs /\ arcs_ok cw (enqueue_neighbors cw x y arcs) /\
  exists lx ly,
    dom_get x d = Ok lx /\ dom_get y d = Ok ly /\
    (r, d') = revise_result cw x y lx ly d.
Proof.
  intros Hwf Hrep Hok Hrev.
  destruct (Hok x y (or_introl eq_refl)) as [Hxin Hyin].
  destruct (revise_Ok cw d x y r d' Hwf Hrep Hxin Hyin Hrev)
    as [lx [ly [Hx [Hy Hres]]]].
  assert (Hok' : arcs_ok cw arcs).
  { intros a b H. apply Hok. simpl; auto. }
  split; [exact Hxin | ]. split; [exact Hyin | ].
  split; [exact (revise_result_rep cw x y lx ly d r d' Hrep Hxin Hx Hres) | ].
  split; [exact (revise_result_shrinks cw x y lx ly d r d' Hx Hres) | ].
  split; [exact Hok' | ].
  split; [apply enqueue_neighbors_ok; assumption | ].
  exists lx, ly. auto.
Qed.

Lemma ac3_run_rep cw arcs d b df :
  ac3_run cw arcs d b df ->
  wf_crossword cw -> domains_rep cw d -> arcs_ok cw arcs ->
  domains_rep cw df /\ shrinks d df.
Proof.
  intros Hrun Hwf. induction Hrun as
      [ d
      | x y arcs d d' b df Hrev Hrun IH
      | x y arcs d d' Hrev Hx'
      | x y arcs d d' w dx b df Hrev Hx' Hrun IH ];
    intros Hrep Hok.
  - split; [exact Hrep | apply shrinks_refl].
  - destruct (ac3_step cw x y arcs d false d' Hwf Hrep Hok Hrev)
      as [_ [_ [Hrep' [Hsh [Hok' _]]]]].
    destruct (IH Hrep' Hok') as [Hrepf Hshf].
    split; [exact Hrepf | eapply shrinks_trans; eassumption].
  - destruct (ac3_step cw x y arcs d true d' Hwf Hrep Hok Hrev)
      as [_ [_ [Hrep' [Hsh _]]]].
    split; assumption.
  - destruct (ac3_step cw x y arcs d true d' Hwf Hrep Hok Hrev)
      as [_ [_ [Hrep' [Hsh [_ [Hok' _]]]]]].
    destruct (IH Hrep' Hok') as [Hrepf Hshf].
    split; [exact Hrepf | eapply shrinks_trans; eassumption].
Qed.

Lemma shrinks_inv cw d d' :
  domains_inv cw d -> domains_rep cw d' -> shrinks d d' -> domains_inv cw d'.
Proof.
  intros Hinv Hrep Hsh. split.
  - apply (rep_keys _ _ Hrep).
  - apply (rep_sets _ _ Hrep).
  - intros x l' w Hx Hw. destruct (Hsh x l' Hx) as [l [Hl Hincl]].
    apply (inv_node _ _ Hinv x l w Hl). apply Hincl; exact Hw.
Qed.

(** A run that reports failure emptied a domain that had a word when the
    run started. *)
Lemma ac3_run_false cw arcs d df :
  ac3_run cw arcs d false df ->
  wf_crossword cw -> domains_rep cw d -> arcs_ok cw arcs ->
  exists x l w,
    In x (variables cw) /\ dom_get x df = Ok [] /\
    dom_get x d = Ok l /\ In w l.
Proof.
  intros Hrun Hwf. remember false as b eqn:Hb.
  induction Hrun as
      [ d
      | x y arcs d d' b df Hrev Hrun IH
      | x y arcs d d' Hrev Hx'
      | x y arcs d d' w dx b df Hrev Hx' Hrun IH ];
    intros Hrep Hok.
  - discriminate.
  - destruct (ac3_step cw x y arcs d false d' Hwf Hrep Hok Hrev)
      as [_ [_ [Hrep' [Hsh [Hok' _]]]]].
    destruct (IH Hb Hrep' Hok') as [z [l [w [Hz [Hzf [Hzd Hw]]]]]].
    destruct (Hsh z l Hzd) as [l0 [Hl0 Hincl]].
    exists z, l0, w. auto.
  - destruct (ac3_step cw x y arcs d true d' Hwf Hrep Hok Hrev)
      as [Hxin [_ [_ [_ [_ [_ [lx [ly [Hx [Hy Hres]]]]]]]]]].
    symmetry in Hres. apply revise_result_true in Hres.
    destruct Hres as [ox [oy [_ [_ Hlen]]]].
    destruct lx as [ | w lx]; [simpl in Hlen; lia | ].
    exists x, (w :: lx), w. simpl; auto.
  - destruct (ac3_step cw x y arcs d true d' Hwf Hrep Hok Hrev)
      as [_ [_ [Hrep' [Hsh [_ [Hok' _]]]]]].
    destruct (IH Hb Hrep' Hok') as [z [l [w0 [Hz [Hzf [Hzd Hw]]]]]].
    destruct (Hsh z l Hzd) as [l0 [Hl0 Hincl]].
    exists z, l0, w0. auto.
Qed.

(** ** Arc consistency *)

Lemma existsb_negb_false {A : Type} (f : A -> bool) (l : list A) :
  existsb (fun a => negb (f a)) l = false -> forall a, In a l -> f a = true.
Proof.
  induction l as [ | b l IH]; simpl; intros H a Ha; [tauto | ].
  apply orb_false_iff in H. destruct H as [Hb Hl].
  destruct Ha as [-> | Ha]; [apply negb_false_iff; exact Hb | auto].
Qed.

Lemma settled_same cw x y arcs d lx ly d' :
  wf_crossword cw ->
  dom_get x d = Ok lx -> dom_get y d = Ok ly ->
  (false, d') = revise_result cw x y lx ly d ->
  settled cw ((x, y) :: arcs) d ->
  settled cw arcs d'.
Proof.
  intros Hwf Hx Hy Hres Hset.
  assert (d' = d) by (eapply revise_result_false; [exact Hx | symmetry; exact Hres]).
  subst d'. intros a b Ha Hb Hnotin.
  destruct (var_eq_dec a x) as [-> | Hax];
    [destruct (var_eq_dec b y) as [-> | Hby] | ].
  - intros ox oy lx' ly' wx Hov Hx' Hy' Hwx.
    rewrite Hx in Hx'. injection Hx' as <-.
    rewrite Hy in Hy'. injection Hy' as <-.
    unfold revise_result in Hres. rewrite Hov in Hres.
    injection Hres as Hres. symmetry in Hres.
    apply supported_iff. apply (existsb_negb_false _ _ Hres). exact Hwx.
  - apply Hset; auto. intros [E | H]; [congruence | tauto].
  - apply Hset; auto. intros [E | H]; [congruence | tauto].
Qed.

Lemma settled_more cw x y arcs d lx ly d' :
  wf_crossword cw ->
  In x (variables cw) -> In y (variables cw) ->
  dom_get x d = Ok lx -> dom_get y d = Ok ly ->
  (true, d') = revise_result cw x y lx ly d ->
  settled cw ((x, y) :: arcs) d ->
  settled cw (enqueue_neighbors cw x y arcs) d'.
Proof.
  intros Hwf Hxin Hyin Hx Hy Hres Hset.
  symmetry in Hres. apply revise_result_true in Hres.
  destruct Hres as [ox [oy [Hov [-> _]]]].
  assert (Hxy : x <> y).
  { intros ->. rewrite (wf_irrefl _ Hwf y Hyin) in Hov. discriminate. }
  intros a b Ha Hb Hnotin.
  rewrite enqueue_neighbors_In in Hnotin.
  intros oa ob la lb wa Hab Hla Hlb Hwa.
  destruct (var_eq_dec a x) as [-> | Hax].
  - (* the revised variable comes first *)
    rewrite dom_get_set_eq in Hla. injection Hla as <-.
    apply revised_domain_In in Hwa. destruct Hwa as [Hwa Hsup].
    assert (Hbx : b <> x).
    { intros ->. rewrite (wf_irrefl _ Hwf x Hxin) in Hab. discriminate. }
    rewrite dom_get_set_ne in Hlb by congruence.
    destruct (var_eq_dec b y) as [-> | Hby].
    + rewrite Hov in Hab. injection Hab as <- <-.
      rewrite Hy in Hlb. injection Hlb as <-.
      apply supported_iff. exact Hsup.
    + apply (Hset x b Hxin Hb) with (lx := lx) (ox := oa); auto.
      intros [E | H]; [congruence | tauto].
  - rewrite dom_get_set_ne in Hla by congruence.
    destruct (var_eq_dec b x) as [-> | Hbx].
    + (* the revised variable comes second: the arc is [(y, x)] *)
      rewrite dom_get_set_eq in Hlb. injection Hlb as <-.
      assert (Hxa : overlaps cw x a = Some (ob, oa))
        by (apply (wf_sym _ Hwf); assumption).
      assert (Hnb : In a (neighbors cw x)).
      { apply neighbors_In. rewrite Hxa. repeat split; congruence. }
      destruct (var_eq_dec a y) as [-> | Hay].
      * rewrite Hov in Hxa. injection Hxa as <- <-.
        rewrite Hy in Hla. injection Hla as <-.
        destruct (Hset y x Hyin Hxin) with (ox := oy) (oy := ox)
          (lx := ly) (ly := lx) (wx := wa) as [wx [Hwx Hag]]; auto.
        { intros [E | H]; [congruence | tauto]. }
        exists wx. split; [ | exact Hag].
        apply revised_domain_In. split; [exact Hwx | ].
        apply supported_iff. exists wa. split; [exact Hwa | ].
        rewrite agrees_sym. exact Hag.
      * exfalso. apply Hnotin. right. exists a. auto.
    + rewrite dom_get_set_ne in Hlb by congruence.
      apply (Hset a b Ha Hb) with (lx := la) (ox := oa); auto.
      intros [E | H]; [congruence | tauto].
Qed.

Lemma ac3_run_settled cw arcs d b df :
  ac3_run cw arcs d b df ->
  wf_crossword cw -> domains_rep cw d -> arcs_ok cw arcs ->
  settled cw arcs d -> b = true ->
  settled cw [] df.
Proof.
  intros Hrun Hwf. induction Hrun as
      [ d
      | x y arcs d d' b df Hrev Hrun IH
      | x y arcs d d' Hrev Hx'
      | x y arcs d d' w dx b df Hrev Hx' Hrun IH ];
    intros Hrep Hok Hset Hb.
  - exact Hset.
  - destruct (ac3_step cw x y arcs d false d' Hwf Hrep Hok Hrev)
      as [Hxin [Hyin [Hrep' [_ [Hok' [_ [lx [ly [Hx [Hy Hres]]]]]]]]]].
    apply IH; auto.
    exact (settled_same cw x y arcs d lx ly d' Hwf Hx Hy Hres Hset).
  - discriminate.
  - destruct (ac3_step cw x y arcs d true d' Hwf Hrep Hok Hrev)
      as [Hxin [Hyin [Hrep' [_ [_ [Hok' [lx [ly [Hx [Hy Hres]]]]]]]]]].
    apply IH; auto.
    exact (settled_more cw x y arcs d lx ly d' Hwf Hxin Hyin Hx Hy Hres Hset).
Qed.

Lemma initial_arcs_In cw x y :
  In (x, y) (initial_arcs cw) <->
  In x (variables cw) /\ In y (variables cw) /\ x <> y /\
  overlaps cw x y <> None.
Proof.
  assert (Hfold : forall l acc,
    In (x, y)
      (fold_left
         (fun arcs value =>
            match overlaps cw (fst value) (snd value) with
            | Some _ => value :: arcs
            | None => arcs
            end) l acc) <->
    In (x, y) acc \/ (In (x, y) l /\ overlaps cw x y <> None)).
  { induction l as [ | [a b] l IH]; intros acc; simpl.
    - tauto.
    - rewrite IH. destruct (overlaps cw a b) eqn:E; simpl.
      + split.
        * intros [[H | H] | H]; [ | tauto | tauto].
          injection H as -> ->. right. split; [auto | congruence].
        * intros [H | [[H | H] Hov]]; [tauto | | tauto].
          injection H as -> ->. auto.
      + split; [tauto | ].
        intros [H | [[H | H] Hov]]; [tauto | | tauto].
        injection H as -> ->. congruence. }
  unfold initial_arcs. rewrite Hfold. simpl.
  unfold overlap_keys. rewrite filter_In, in_prod_iff. simpl.
  rewrite negb_true_iff, var_eqb_neq. tauto.
Qed.

Lemma initial_arcs_ok cw : arcs_ok cw (initial_arcs cw).
Proof. intros x y H. apply initial_arcs_In in H. tauto. Qed.

Lemma initial_settled cw d :
  wf_crossword cw -> settled cw (initial_arcs cw) d.
Proof.
  intros Hwf x y Hx Hy Hnotin ox oy lx ly wx Hov.
  exfalso. apply Hnotin. apply initial_arcs_In.
  repeat split; auto; [ | congruence].
  intros ->. rewrite (wf_irrefl _ Hwf y Hy) in Hov. discriminate.
Qed.

(** C3. When [ac3], called with its default list of arcs on a state of the
    domain store, returns [True], then for every ordered pair [(x, y)] of
    overlapping variables every word left in [domain[x]] has a word in
    [domain[y]] with the same character at the overlap. *)
Theorem ac3_arc_consistent cw d d' :
  wf_crossword cw -> domains_rep cw d ->
  ac3 cw None d = Ok (true, d') ->
  forall x y ox oy lx ly wx,
    In x (variables cw) -> In y (variables cw) ->
    overlaps cw x y = Some (ox, oy) ->
    dom_get x d' = Ok lx -> dom_get y d' = Ok ly ->
    In wx lx ->
    exists wy, In wy ly /\ agrees ox oy wx wy = true.
Proof.
  intros Hwf Hrep Hac3 x y ox oy lx ly wx Hx Hy Hov Hlx Hly Hwx.
  unfold ac3 in Hac3. apply ac3_loop_run in Hac3.
  pose proof (ac3_run_settled cw _ d true d' Hac3 Hwf Hrep
                (initial_arcs_ok cw) (initial_settled cw d Hwf) eq_refl)
    as Hset.
  apply (Hset x y Hx Hy (fun H => H)) with (lx := lx); assumption.
Qed.

(** ** Termination of [ac3] *)

Lemma total_size_set x lx l' (d : Domains) :
  dom_get x d = Ok lx ->
  total_size (dict_set Var.eqb x l' d) + List.length lx
  = total_size d + List.length l'.
Proof.
  unfold dom_get. induction d as [ | [k l] d IH]; simpl; [discriminate | ].
  destruct (Var.eqb x k) eqn:E; simpl.
  - intros H; injection H as ->. lia.
  - intros H. specialize (IH H). lia.
Qed.

Lemma revise_total cw d x y lx ly :
  wf_crossword cw -> domains_inv cw d ->
  In x (variables cw) -> In y (variables cw) -> x <> y ->
  dom_get x d = Ok lx -> dom_get y d = Ok ly ->
  revise cw x y d = Ok (revise_result cw x y lx ly d).
Proof. apply revise_ok. Qed.

Lemma initial_arcs_distinct cw : arcs_distinct (initial_arcs cw).
Proof. intros x y H. apply initial_arcs_In in H. tauto. Qed.

Lemma enqueue_neighbors_distinct cw x y arcs :
  arcs_distinct arcs -> arcs_distinct (enqueue_neighbors cw x y arcs).
Proof.
  intros Hd a b H. apply enqueue_neighbors_In in H.
  destruct H as [H | [z [E [Hz _]]]]; [exact (Hd a b H) | ].
  injection E as -> ->. apply neighbors_In in Hz. tauto.
Qed.

(** One turn of the loop for each unit of the measure is enough. *)
Lemma ac3_loop_total cw fuel : forall arcs d,
  wf_crossword cw -> domains_inv cw d ->
  arcs_ok cw arcs -> arcs_distinct arcs ->
  List.length arcs + List.length (variables cw) * total_size d <= fuel ->
  exists b df, ac3_loop cw fuel arcs d = Ok (b, df).
Proof.
  induction fuel as [ | fuel IH]; intros arcs d Hwf Hinv Hok Hdis Hfuel.
  { destruct arcs as [ | a arcs]; simpl in *; [eauto | lia]. }
  destruct arcs as [ | [x y] arcs]; simpl; [eauto | ].
  destruct (Hok x y (or_introl eq_refl)) as [Hxin Hyin].
  pose proof (Hdis x y (or_introl eq_refl)) as Hxy.
  assert (Hok' : arcs_ok cw arcs) by (intros a b H; apply Hok; simpl; auto).
  assert (Hdis' : arcs_distinct arcs)
    by (intros a b H; apply Hdis; simpl; auto).
  destruct (inv_dom_get _ _ _ Hinv Hxin) as [lx Hx].
  destruct (inv_dom_get _ _ _ Hinv Hyin) as [ly Hy].
  pose proof (revise_total cw d x y lx ly Hwf Hinv Hxin Hyin Hxy Hx Hy) as Hrev.
  rewrite Hrev.
  destruct (revise_result cw x y lx ly d) as [revised d'] eqn:Hres. simpl.
  pose proof (revise_inv cw d x y revised d' Hwf Hinv Hxin Hyin Hrev) as Hinv'.
  destruct revised.
  - apply revise_result_true in Hres.
    destruct Hres as [ox [oy [_ [-> Hlen]]]].
    rewrite dom_get_set_eq. simpl.
    destruct (List.length (revised_domain ox oy lx ly) =? 0); [eauto | ].
    apply IH; auto.
    + apply enqueue_neighbors_ok; assumption.
    + apply enqueue_neighbors_distinct; assumption.
    + pose proof (enqueue_neighbors_length cw x y arcs) as H1.
      pose proof (neighbors_length cw x) as H2.
      pose proof (total_size_set x lx (revised_domain ox oy lx ly) d Hx) as H3.
      simpl in Hfuel. nia.
  - apply (revise_result_false _ _ _ _ _ _ _ Hx) in Hres. subst d'.
    apply IH; auto. simpl in Hfuel. lia.
Qed.

(** The bound of the loop is never reached, on any state of the store:
    whatever [ac3] raises there is an exception of [revise]. *)
Lemma dom_get_raise x (d : Domains) e : dom_get x d = Raise e -> e = KeyError.
Proof. intros H. apply (dict_get_raise Var.eqb var_eqb_eq) in H. tauto. Qed.

Lemma set_remove_raise w (l : list string) e :
  set_remove w l = Raise e -> e = KeyError.
Proof.
  induction l as [ | w' l IH]; simpl.
  - intros H; injection H as <-; reflexivity.
  - destruct (String.eqb w w'); [discriminate | ].
    destruct (set_remove w l); simpl; [discriminate | ].
    intros H; injection H as <-. apply IH. reflexivity.
Qed.

Lemma any_agrees_raise ox oy valueX (ys : list string) e :
  any_agrees ox oy valueX ys = Raise e -> e = IndexError.
Proof.
  induction ys as [ | valueY ys IH]; simpl; [discriminate | ].
  unfold str_index.
  destruct (String.get oy valueY); simpl;
    [ | intros H; injection H as <-; reflexivity].
  destruct (String.get ox valueX); simpl;
    [ | intros H; injection H as <-; reflexivity].
  destruct (Ascii.eqb a a0); [discriminate | exact IH].
Qed.

Lemma for_each_raise {A S : Type} (P : exn -> Prop) (l : list A)
  (body : A -> S -> result S) :
  (forall a s e, body a s = Raise e -> P e) ->
  forall s e, for_each l body s = Raise e -> P e.
Proof.
  intros Hbody. induction l as [ | a l IH]; intros s e; simpl; [discriminate | ].
  destruct (body a s) as [s' | e'] eqn:E; simpl.
  - apply IH.
  - intros H; injection H as <-. apply (Hbody a s e' E).
Qed.

Lemma revise_raise cw x y d e :
  revise cw x y d = Raise e -> e <> RecursionLimit.
Proof.
  rewrite revise_unfold.
  destruct (overlaps_get cw x y) as [o | e'] eqn:Hov; simpl;
    [ | intros H; injection H as <-;
        rewrite (overlaps_get_raise _ _ _ _ Hov); discriminate].
  destruct (dom_get x d) as [lx | e'] eqn:Hx; simpl.
  - destruct o as [[ox oy] | ]; [ | discriminate].
    apply (for_each_raise (fun e => e <> RecursionLimit)).
    intros valueX [revised d0] e0. unfold revise_body.
    destruct (dom_get y d0) as [ys | e1] eqn:Hy; simpl.
    + destruct (any_agrees ox oy valueX ys) as [b | e1] eqn:Hany; simpl.
      * destruct b; simpl; [discriminate | ].
        unfold dom_remove.
        destruct (dom_get x d0) as [l | e1] eqn:Hx0; simpl.
        -- destruct (set_remove valueX l) as [l' | e1] eqn:Hrm; simpl;
             [discriminate | ].
           intros H; injection H as <-.
           rewrite (set_remove_raise _ _ _ Hrm). discriminate.
        -- intros H; injection H as <-.
           rewrite (dom_get_raise _ _ _ Hx0). discriminate.
      * intros H; injection H as <-.
        rewrite (any_agrees_raise _ _ _ _ _ Hany). discriminate.
    + intros H; injection H as <-.
      rewrite (dom_get_raise _ _ _ Hy). discriminate.
  - intros H; injection H as <-.
    rewrite (dom_get_raise _ _ _ Hx). discriminate.
Qed.

Lemma ac3_loop_bound cw fuel : forall arcs d,
  wf_crossword cw -> domains_rep cw d -> arcs_ok cw arcs ->
  List.length arcs + List.length (variables cw) * total_size d < fuel ->
  ac3_loop cw fuel arcs d <> Raise RecursionLimit.
Proof.
  induction fuel as [ | fuel IH]; intros arcs d Hwf Hrep Hok Hfuel; [lia | ].
  destruct arcs as [ | [x y] arcs]; simpl; [discriminate | ].
  destruct (revise cw x y d) as [[revised d'] | e] eqn:Hrev; simpl.
  - destruct (ac3_step cw x y arcs d revised d' Hwf Hrep Hok Hrev)
      as [Hxin [Hyin [Hrep' [_ [Hok' [Hok'' [lx [ly [Hx [Hy Hres]]]]]]]]]].
    symmetry in Hres. destruct revised.
    + apply revise_result_true in Hres.
      destruct Hres as [ox [oy [_ [-> Hlen]]]].
      rewrite dom_get_set_eq. simpl.
      destruct (List.length (revised_domain ox oy lx ly) =? 0);
        [discriminate | ].
      apply IH; auto.
      pose proof (enqueue_neighbors_length cw x y arcs) as H1.
      pose proof (neighbors_length cw x) as H2.
      pose proof (total_size_set x lx (revised_domain ox oy lx ly) d Hx) as H3.
      simpl in Hfuel. nia.
    + apply (revise_result_false _ _ _ _ _ _ _ Hx) in Hres. subst d'.
      apply IH; auto. simpl in Hfuel. lia.
  - intros H; injection H as ->. exact (revise_raise _ _ _ _ _ Hrev eq_refl).
Qed.

Lemma ac3_bound_enough cw d :
  wf_crossword cw -> domains_rep cw d ->
  ac3 cw None d <> Raise RecursionLimit.
Proof.
  intros Hwf Hrep. unfold ac3.
  apply ac3_loop_bound; auto using initial_arcs_ok.
Qed.

(** [ac3] on the state [solve] gives it: it returns, and what it returns. *)
Lemma ac3_total cw d :
  wf_crossword cw -> domains_inv cw d ->
  exists b df,
    ac3 cw None d = Ok (b, df) /\
    ac3_run cw (initial_arcs cw) d b df /\
    domains_inv cw df /\ shrinks d df.
Proof.
  intros Hwf Hinv. unfold ac3.
  destruct (ac3_loop_total cw (ac3_bound cw (initial_arcs cw) d)
              (initial_arcs cw) d Hwf Hinv (initial_arcs_ok cw)
              (initial_arcs_distinct cw))
    as [b [df Hloop]]; [unfold ac3_bound; lia | ].
  exists b, df. split; [exact Hloop | ].
  pose proof (ac3_loop_run _ _ _ _ _ _ Hloop) as Hrun.
  split; [exact Hrun | ].
  destruct (ac3_run_rep cw _ d b df Hrun Hwf (inv_rep _ _ Hinv)
              (initial_arcs_ok cw)) as [Hrep Hsh].
  split; [ | exact Hsh]. eapply shrinks_inv; eassumption.
Qed.

(** ** The consistency checker *)

(** A loop that only ever lowers a flag computes a conjunction. *)
Lemma for_in_flag {A : Type} (p : A -> bool) (l : list A)
  (body : A -> bool -> result (ctl * bool)) :
  (forall a s, In a l ->
     exists c, body a s = Ok (c, s && p a) /\
               (c = Break -> s && p a = false)) ->
  forall s, for_in l body s = Ok (s && forallb p l).
Proof.
  induction l as [ | a l IH]; intros Hbody s; simpl.
  - rewrite andb_true_r. reflexivity.
  - destruct (Hbody a s (or_introl eq_refl)) as [c [Hc Hbreak]].
    rewrite Hc. simpl. destruct c.
    + rewrite IH by (intros; apply Hbody; simpl; auto).
      rewrite andb_assoc. reflexivity.
    + rewrite andb_assoc, Hbreak by reflexivity. reflexivity.
Qed.

Lemma asg_get_word_of v (a : Assignment) :
  In v (dict_keys a) -> asg_get v a = Ok (word_of v a).
Proof.
  intros H. apply (dict_get_keys Var.eqb var_eqb_eq) in H.
  destruct H as [w Hw]. unfold word_of, asg_get in *. rewrite Hw. reflexivity.
Qed.

Lemma asg_mem_keys v (a : Assignment) :
  dict_mem Var.eqb v a = true <-> In v (dict_keys a).
Proof. apply (dict_mem_keys Var.eqb var_eqb_eq). Qed.

Lemma consistent_eq cw (a : Assignment) :
  asg_indexed cw a -> consistent cw a = Ok (consistent_value cw a).
Proof.
  intros Hidx. unfold consistent, consistent_value.
  rewrite (for_in_flag
             (fun v1 => forallb (distinct_ok a v1) (dict_keys a))).
  - simpl.
    rewrite (for_in_flag
               (fun v => length_ok a v
                         && forallb (overlap_ok cw a v) (neighbors cw v))).
    + reflexivity.
    + intros v s Hv. rewrite (asg_get_word_of v a Hv). simpl.
      unfold length_ok.
      destruct (Var.length v =? String.length (word_of v a)) eqn:Elen; simpl.
      * rewrite (for_in_flag (overlap_ok cw a v)).
        -- simpl. exists Next. split; [reflexivity | discriminate].
        -- intros n s' Hn. unfold overlap_ok.
           destruct (dict_mem Var.eqb n a) eqn:Emem;
             [ | exists Next; rewrite andb_true_r; split;
                 [reflexivity | discriminate]].
           apply asg_mem_keys in Emem.
           destruct (overlaps cw v n) as [[o0 o1] | ] eqn:Hov;
             [ | exists Next; rewrite andb_true_r; split;
                 [reflexivity | discriminate]].
           destruct (Hidx v n _ _ o0 o1 (asg_get_word_of v a Hv)
                       (asg_get_word_of n a Emem) Hov) as [H0 H1].
           destruct (str_index_lt _ _ H0) as [c0 [Hc0 Hg0]].
           destruct (str_index_lt _ _ H1) as [c1 [Hc1 Hg1]].
           rewrite Hc0. simpl. rewrite (asg_get_word_of n a Emem). simpl.
           rewrite Hc1. simpl. unfold agrees. rewrite Hg0, Hg1.
           rewrite (Ascii.eqb_sym c1 c0).
           destruct (Ascii.eqb c0 c1); simpl.
           ++ exists Next. rewrite andb_true_r. split;
                [reflexivity | discriminate].
           ++ exists Break. rewrite andb_false_r. split; reflexivity.
      * exists Break. rewrite andb_false_r. split; reflexivity.
  - intros v1 s Hv1.
    rewrite (for_in_flag (distinct_ok a v1)).
    + simpl.
      destruct (s && forallb (distinct_ok a v1) (dict_keys a)) eqn:E; simpl.
      * exists Next. split; [reflexivity | discriminate].
      * exists Break. split; reflexivity.
    + intros v2 s' Hv2. unfold distinct_ok.
      destruct (Var.eqb v2 v1); simpl.
      * exists Next. rewrite andb_true_r. split; [reflexivity | discriminate].
      * rewrite (asg_get_word_of v1 a Hv1), (asg_get_word_of v2 a Hv2). simpl.
        destruct (String.eqb (word_of v1 a) (word_of v2 a)); simpl.
        -- exists Break. rewrite andb_false_r. split; reflexivity.
        -- exists Next. rewrite andb_true_r. split;
             [reflexivity | discriminate].
Qed.

Lemma asg_get_keys v (a : Assignment) w :
  asg_get v a = Ok w -> In v (dict_keys a) /\ word_of v a = w.
Proof.
  intros H. split.
  - apply (dict_get_keys Var.eqb var_eqb_eq). eauto.
  - unfold word_of. rewrite H. reflexivity.
Qed.

Lemma consistent_value_valid cw (a : Assignment) :
  consistent_value cw a = true <-> valid_assignment cw a.
Proof.
  unfold consistent_value. rewrite andb_true_iff, !forallb_forall. split.
  - intros [Hdis Hrest]. split.
    + intros v w Hv. apply asg_get_keys in Hv. destruct Hv as [Hv <-].
      specialize (Hrest v Hv). apply andb_true_iff in Hrest.
      destruct Hrest as [Hlen _]. unfold length_ok in Hlen.
      apply Nat.eqb_eq in Hlen. auto.
    + intros v1 v2 w1 w2 Hne H1 H2.
      apply asg_get_keys in H1, H2.
      destruct H1 as [H1 <-], H2 as [H2 <-].
      specialize (Hdis v1 H1). rewrite forallb_forall in Hdis.
      specialize (Hdis v2 H2). unfold distinct_ok in Hdis.
      apply negb_true_iff, andb_false_iff in Hdis.
      destruct Hdis as [Hd | Hd].
      * apply negb_false_iff, var_eqb_eq in Hd. congruence.
      * apply String.eqb_neq. exact Hd.
    + intros v n w wn o0 o1 Hn Hv Hnn Hov.
      apply asg_get_keys in Hv, Hnn.
      destruct Hv as [Hv <-], Hnn as [Hnn <-].
      specialize (Hrest v Hv). apply andb_true_iff in Hrest.
      destruct Hrest as [_ Hnb]. rewrite forallb_forall in Hnb.
      specialize (Hnb n Hn). unfold overlap_ok in Hnb.
      apply asg_mem_keys in Hnn. rewrite Hnn, Hov in Hnb. exact Hnb.
  - intros [Hlen Hdis Hov]. split.
    + intros v1 H1. apply forallb_forall. intros v2 H2.
      unfold distinct_ok. apply negb_true_iff, andb_false_iff.
      destruct (Var.eqb v2 v1) eqn:E; [left; reflexivity | right].
      apply var_eqb_neq in E. apply String.eqb_neq.
      apply (Hdis v1 v2); [congruence | | ]; apply asg_get_word_of; assumption.
    + intros v Hv. apply andb_true_iff. split.
      * unfold length_ok. apply Nat.eqb_eq. symmetry.
        apply Hlen, asg_get_word_of, Hv.
      * apply forallb_forall. intros n Hn. unfold overlap_ok.
        destruct (dict_mem Var.eqb n a) eqn:Emem; [ | reflexivity].
        apply asg_mem_keys in Emem.
        destruct (overlaps cw v n) as [[o0 o1] | ] eqn:Ho; [ | reflexivity].
        apply (Hov v n); auto; apply asg_get_word_of; assumption.
Qed.

(** On an assignment whose words can be indexed at the overlaps, [consistent]
    returns, and it returns [True] exactly for a valid assignment. *)
Lemma consistent_valid cw (a : Assignment) :
  asg_indexed cw a ->
  exists b, consistent cw a = Ok b /\ (b = true <-> valid_assignment cw a).
Proof.
  intros Hidx. exists (consistent_value cw a).
  split; [apply consistent_eq, Hidx | apply consistent_value_valid].
Qed.

(** ** Sorting *)

Section SortedFacts.

Context {A : Type}.
Variable key : A -> nat.

Lemma insert_by_perm a (l : list A) : Permutation (insert_by key a l) (a :: l).
Proof.
  induction l as [ | b l IH]; simpl; [reflexivity | ].
  destruct (key a <=? key b); [reflexivity | ].
  rewrite IH. apply perm_swap.
Qed.

Lemma sorted_by_perm (l : list A) : Permutation (sorted_by key l) l.
Proof.
  induction l as [ | a l IH]; simpl; [reflexivity | ].
  rewrite insert_by_perm, IH. reflexivity.
Qed.

Lemma insert_by_sorted a (l : list A) :
  StronglySorted (key_le key) l -> StronglySorted (key_le key) (insert_by key a l).
Proof.
  induction l as [ | b l IH]; simpl; intros Hs.
  - repeat constructor.
  - inversion Hs as [ | ? ? Hs' Hall]; subst.
    destruct (key a <=? key b) eqn:E.
    + apply Nat.leb_le in E. constructor; [exact Hs | ].
      constructor; [exact E | ].
      eapply Forall_impl; [ | exact Hall].
      intros c Hc. unfold key_le in *. lia.
    + apply Nat.leb_gt in E. constructor; [apply IH; exact Hs' | ].
      apply (Permutation_Forall (Permutation_sym (insert_by_perm a l))).
      constructor; [unfold key_le; lia | exact Hall].
Qed.

Lemma sorted_by_sorted (l : list A) : StronglySorted (key_le key) (sorted_by key l).
Proof.
  induction l as [ | a l IH]; simpl; [constructor | ].
  apply insert_by_sorted, IH.
Qed.

End SortedFacts.

(** Sorting pairs on their second component and keeping the first sorts the
    first components on the value paired with them. *)
Lemma sorted_pairs {A : Type} (r : A -> nat) (l : list A) :
  let values := map fst (sorted_by snd (map (fun w => (w, r w)) l)) in
  Permutation values l /\ StronglySorted (key_le r) values.
Proof.
  simpl. set (pairs := map (fun w => (w, r w)) l).
  pose proof (sorted_by_perm snd pairs) as Hperm.
  pose proof (sorted_by_sorted snd pairs) as Hsorted.
  assert (Hall : Forall (fun p => snd p = r (fst p)) (sorted_by snd pairs)).
  { apply (Permutation_Forall (Permutation_sym Hperm)).
    unfold pairs. apply Forall_forall. intros p Hp.
    apply in_map_iff in Hp. destruct Hp as [w [<- _]]. reflexivity. }
  split.
  - rewrite Hperm. unfold pairs. rewrite map_map. simpl. rewrite map_id.
    reflexivity.
  - clear Hperm.
    induction Hsorted as [ | p ps Hs IH Hle]; simpl; [constructor | ].
    inversion Hall as [ | ? ? Hp Hps]; subst.
    constructor; [apply IH; exact Hps | ].
    apply Forall_map. rewrite Forall_forall in *.
    intros q Hq. unfold key_le in *.
    rewrite <- Hp, <- (Hps q Hq). apply Hle, Hq.
Qed.

(** ** [order_domain_values] *)

Lemma incr_bump w (vr : list (string * nat)) :
  In w (dict_keys vr) -> incr w vr = Ok (bump w 1 vr).
Proof.
  intros H. apply (dict_get_keys String.eqb string_eqb_eq) in H.
  destruct H as [n Hn]. unfold incr, bump. rewrite Hn. simpl.
  rewrite Nat.add_1_r. reflexivity.
Qed.

Lemma bump_0 w (vr : list (string * nat)) : bump w 0 vr = vr.
Proof.
  unfold bump. destruct (dict_get String.eqb w vr) as [n | ] eqn:E;
    [ | reflexivity].
  rewrite Nat.add_0_r. apply (dict_set_same String.eqb _ _ _ E).
Qed.

Lemma bump_bump w j k (vr : list (string * nat)) :
  bump w k (bump w j vr) = bump w (j + k) vr.
Proof.
  unfold bump. destruct (dict_get String.eqb w vr) as [n | ] eqn:E.
  - rewrite (dict_get_set_eq String.eqb string_eqb_eq).
    rewrite (dict_set_set String.eqb string_eqb_eq).
    rewrite Nat.add_assoc. reflexivity.
  - rewrite E. reflexivity.
Qed.

Lemma bump_keys w k (vr : list (string * nat)) :
  dict_keys (bump w k vr) = dict_keys vr.
Proof.
  unfold bump. destruct (dict_get String.eqb w vr) as [n | ] eqn:E;
    [ | reflexivity].
  apply (dict_keys_set_in String.eqb string_eqb_eq).
  apply (dict_get_keys String.eqb string_eqb_eq). eauto.
Qed.

Lemma count_loop w x y (dn : list string) :
  x < String.length w ->
  (forall nv, In nv dn -> y < String.length nv) ->
  forall vr, In w (dict_keys vr) ->
  for_each dn (count_body w x y) vr = Ok (bump w (conflicts x y w dn) vr).
Proof.
  intros Hx. induction dn as [ | nv dn IH]; intros Hy vr Hw; simpl.
  - unfold conflicts. simpl. rewrite bump_0. reflexivity.
  - unfold count_body at 1.
    destruct (str_index_lt w x Hx) as [cx [Hcx Hgx]].
    destruct (str_index_lt nv y (Hy nv (or_introl eq_refl))) as [cy [Hcy Hgy]].
    rewrite Hcx, Hcy. simpl.
    unfold conflicts. simpl. unfold agrees at 1. rewrite Hgx, Hgy.
    rewrite (Ascii.eqb_sym cy cx).
    destruct (Ascii.eqb cx cy); simpl.
    + apply IH; [intros; apply Hy; simpl; auto | exact Hw].
    + rewrite incr_bump by exact Hw. simpl.
      rewrite IH.
      * rewrite bump_bump. reflexivity.
      * intros; apply Hy; simpl; auto.
      * rewrite bump_keys. exact Hw.
Qed.

Lemma neighbor_loop cw d var a w (nb : list Var.t) :
  wf_crossword cw -> domains_inv cw d -> In var (variables cw) ->
  String.length w = Var.length var ->
  (forall n, In n nb -> In n (neighbors cw var)) ->
  forall vr, In w (dict_keys vr) ->
  for_each nb (neighbor_body cw d var a w) vr
  = Ok (bump w (list_sum (map (neighbor_count cw d a var w) nb)) vr).
Proof.
  intros Hwf Hinv Hvar Hlen.
  induction nb as [ | n nb IH]; intros Hnb vr Hw; simpl.
  - rewrite bump_0. reflexivity.
  - unfold neighbor_body at 1, neighbor_count at 1.
    destruct (dict_mem Var.eqb n a); simpl.
    + apply IH; [intros; apply Hnb; simpl; auto | exact Hw].
    + pose proof (Hnb n (or_introl eq_refl)) as Hn.
      apply neighbors_In in Hn. destruct Hn as [Hnin [_ Hov]].
      destruct (overlaps cw var n) as [[x y] | ] eqn:Eov; [ | congruence].
      destruct (wf_range _ Hwf var n x y Hvar Hnin Eov) as [Hx Hy].
      destruct (inv_dom_get _ _ _ Hinv Hnin) as [dn Hdn].
      unfold dom_of. rewrite Hdn. simpl.
      rewrite count_loop; [ | lia | | exact Hw].
      * simpl. rewrite IH.
        -- rewrite bump_bump. reflexivity.
        -- intros; apply Hnb; simpl; auto.
        -- rewrite bump_keys. exact Hw.
      * intros nv Hnv. rewrite (inv_node _ _ Hinv n dn nv Hdn Hnv). exact Hy.
Qed.

Lemma elimination_count_eq cw d a var w :
  elimination_count cw d a var w
  = list_sum (map (neighbor_count cw d a var w) (neighbors cw var)).
Proof. reflexivity. Qed.

Lemma ruleout_loop cw d var a :
  wf_crossword cw -> domains_inv cw d -> In var (variables cw) ->
  forall rest pre,
    NoDup (pre ++ rest) ->
    (forall w, In w rest -> String.length w = Var.length var) ->
    for_each rest
      (fun variable value_ruleout =>
         for_each (neighbors cw var)
           (neighbor_body cw d var a variable) value_ruleout)
      (map (fun w => (w, elimination_count cw d a var w)) pre
       ++ map (fun val => (val, 0)) rest)
    = Ok (map (fun w => (w, elimination_count cw d a var w)) (pre ++ rest)).
Proof.
  intros Hwf Hinv Hvar.
  induction rest as [ | w rest IH]; intros pre Hnd Hlen; simpl.
  - rewrite !app_nil_r. reflexivity.
  - destruct (NoDup_app_notin _ _ _ Hnd) as [Hpre [Hrest _]].
    assert (Hk : ~ In w (dict_keys
                (map (fun w => (w, elimination_count cw d a var w)) pre))).
    { unfold dict_keys. rewrite map_map. simpl. rewrite map_id. exact Hpre. }
    rewrite (neighbor_loop cw d var a w (neighbors cw var) Hwf Hinv Hvar).
    + simpl. rewrite <- elimination_count_eq. unfold bump.
      rewrite (dict_get_app_r String.eqb string_eqb_eq) by exact Hk.
      simpl. rewrite String.eqb_refl.
      rewrite (dict_set_app_r String.eqb string_eqb_eq) by exact Hk.
      simpl. rewrite String.eqb_refl.
      specialize (IH (pre ++ [w])).
      rewrite map_app in IH. simpl in IH. rewrite <- !app_assoc in IH.
      simpl in IH. apply IH; [exact Hnd | ].
      intros; apply Hlen; simpl; auto.
    + apply Hlen; simpl; auto.
    + auto.
    + unfold dict_keys. rewrite map_app, in_app_iff. right. simpl. auto.
Qed.

Lemma order_domain_values_eq cw d var a dvar :
  wf_crossword cw -> domains_inv cw d -> In var (variables cw) ->
  dom_get var d = Ok dvar ->
  order_domain_values cw d var a
  = Ok (map fst (sorted_by snd
          (map (fun w => (w, elimination_count cw d a var w)) dvar))).
Proof.
  intros Hwf Hinv Hvar Hd. unfold order_domain_values. rewrite Hd. simpl.
  pose proof (ruleout_loop cw d var a Hwf Hinv Hvar dvar []) as H.
  simpl in H.
  change (fun variable value_ruleout =>
            for_each (neighbors cw var)
              (neighbor_body cw d var a variable) value_ruleout)
    with (fun variable value_ruleout =>
            for_each (neighbors cw var)
              (fun neighbor value_ruleout =>
                 if negb (dict_mem Var.eqb neighbor a) then
                   match overlaps cw var neighbor with
                   | Some (x, y) =>
                       dn <- dom_get neighbor d ;;
                       for_each dn
                         (fun neighbor_value value_ruleout =>
                            cx <- str_index variable x ;;
                            cy <- str_index neighbor_value y ;;
                            if negb (Ascii.eqb cx cy)
                            then incr variable value_ruleout
                            else Ok value_ruleout)
                         value_ruleout
                   | None => Raise TypeError
                   end
                 else Ok value_ruleout)
              value_ruleout) in H.
  rewrite H.
  - reflexivity.
  - apply (inv_sets _ _ Hinv var dvar Hd).
  - intros w Hw. apply (inv_node _ _ Hinv var dvar w Hd Hw).
Qed.

(** The same loops without the length invariant: what a returning call
    computed. *)
Lemma count_loop_Ok w x y (dn : list string) :
  forall vr vr',
    In w (dict_keys vr) ->
    for_each dn (count_body w x y) vr = Ok vr' ->
    vr' = bump w (conflicts x y w dn) vr.
Proof.
  induction dn as [ | nv dn IH]; intros vr vr' Hw H; simpl in H.
  - injection H as <-. unfold conflicts. simpl. rewrite bump_0. reflexivity.
  - unfold count_body at 1, str_index in H.
    destruct (String.get x w) as [cx | ] eqn:Hgx; simpl in H; [ | discriminate].
    destruct (String.get y nv) as [cy | ] eqn:Hgy; simpl in H; [ | discriminate].
    unfold conflicts. simpl. unfold agrees at 1. rewrite Hgx, Hgy.
    rewrite (Ascii.eqb_sym cy cx).
    destruct (Ascii.eqb cx cy); simpl in H |- *.
    + apply IH; assumption.
    + rewrite incr_bump in H by exact Hw. simpl in H.
      apply IH in H; [ | rewrite bump_keys; exact Hw].
      rewrite bump_bump in H. exact H.
Qed.

Lemma neighbor_loop_Ok cw d var a w (nb : list Var.t) :
  forall vr vr',
    In w (dict_keys vr) ->
    for_each nb (neighbor_body cw d var a w) vr = Ok vr' ->
    vr' = bump w (list_sum (map (neighbor_count cw d a var w) nb)) vr.
Proof.
  induction nb as [ | n nb IH]; intros vr vr' Hw H; simpl in H.
  - injection H as <-. simpl. rewrite bump_0. reflexivity.
  - simpl. unfold neighbor_body at 1 in H. unfold neighbor_count at 1.
    destruct (dict_mem Var.eqb n a); simpl in H.
    + apply IH; assumption.
    + destruct (overlaps cw var n) as [[x y] | ]; simpl in H; [ | discriminate].
      unfold dom_of.
      destruct (dom_get n d) as [dn | e]; simpl in H; [ | discriminate].
      destruct (for_each dn (count_body w x y) vr) as [vr1 | e] eqn:Hcount;
        simpl in H; [ | discriminate].
      apply (count_loop_Ok w x y dn vr vr1 Hw) in Hcount. subst vr1.
      apply IH in H; [ | rewrite bump_keys; exact Hw].
      rewrite bump_bump in H. exact H.
Qed.

Lemma ruleout_loop_Ok cw d var a :
  forall rest pre vr',
    NoDup (pre ++ rest) ->
    for_each rest
      (fun variable value_ruleout =>
         for_each (neighbors cw var)
           (neighbor_body cw d var a variable) value_ruleout)
      (map (fun w => (w, elimination_count cw d a var w)) pre
       ++ map (fun val => (val, 0)) rest)
    = Ok vr' ->
    vr' = map (fun w => (w, elimination_count cw d a var w)) (pre ++ rest).
Proof.
  induction rest as [ | w rest IH]; intros pre vr' Hnd H; simpl in H.
  - injection H as <-. rewrite !app_nil_r. reflexivity.
  - destruct (NoDup_app_notin _ _ _ Hnd) as [Hpre [Hrest _]].
    assert (Hk : ~ In w (dict_keys
                (map (fun w => (w, elimination_count cw d a var w)) pre))).
    { unfold dict_keys. rewrite map_map. simpl. rewrite map_id. exact Hpre. }
    match type of H with
    | bind ?m _ = _ => destruct m as [vr1 | e] eqn:Hnb
    end; simpl in H; [ | discriminate].
    apply neighbor_loop_Ok in Hnb.
    + subst vr1. rewrite <- elimination_count_eq in H. unfold bump in H.
      rewrite (dict_get_app_r String.eqb string_eqb_eq) in H by exact Hk.
      simpl in H. rewrite String.eqb_refl in H.
      rewrite (dict_set_app_r String.eqb string_eqb_eq) in H by exact Hk.
      simpl in H. rewrite String.eqb_refl in H.
      specialize (IH (pre ++ [w]) vr').
      rewrite map_app in IH. simpl in IH. rewrite <- !app_assoc in IH.
      simpl in IH. apply IH; assumption.
    + unfold dict_keys. rewrite map_app, in_app_iff. right. simpl. auto.
Qed.

Lemma order_domain_values_Ok cw d var a values :
  domains_rep cw d ->
  order_domain_values cw d var a = Ok values ->
  exists dvar,
    dom_get var d = Ok dvar /\
    values = map fst (sorted_by snd
               (map (fun w => (w, elimination_count cw d a var w)) dvar)).
Proof.
  intros Hrep H. unfold order_domain_values in H.
  destruct (dom_get var d) as [dvar | e] eqn:Hd; simpl in H; [ | discriminate].
  exists dvar. split; [reflexivity | ].
  match type of H with
  | bind ?m _ = _ => destruct m as [vr | e] eqn:Hloop
  end; simpl in H; [ | discriminate].
  injection H as <-.
  apply (ruleout_loop_Ok cw d var a dvar [] vr) in Hloop.
  - subst vr. reflexivity.
  - apply (rep_sets _ _ Hrep var dvar Hd).
Qed.

(** C8. On any state of the domain store, a call of
    [order_domain_values(var, assignment)] that returns gives the words of
    [domain[var]], each once, in ascending order of their elimination
    counts; and on a store that satisfies the length invariant, for a
    variable of a well-formed puzzle, the call does return. *)
Theorem order_domain_values_spec cw d var a :
  domains_rep cw d ->
  (wf_crossword cw -> domains_inv cw d -> In var (variables cw) ->
   exists values, order_domain_values cw d var a = Ok values) /\
  forall values,
    order_domain_values cw d var a = Ok values ->
    exists dvar,
      dom_get var d = Ok dvar /\
      Permutation values dvar /\
      StronglySorted
        (fun w1 w2 => elimination_count cw d a var w1
                      <= elimination_count cw d a var w2)
        values.
Proof.
  intros Hrep. split.
  - intros Hwf Hinv Hvar.
    destruct (inv_dom_get _ _ _ Hinv Hvar) as [dvar Hd].
    rewrite (order_domain_values_eq cw d var a dvar Hwf Hinv Hvar Hd). eauto.
  - intros values H.
    destruct (order_domain_values_Ok cw d var a values Hrep H)
      as [dvar [Hd ->]].
    exists dvar. split; [exact Hd | ].
    apply (sorted_pairs (elimination_count cw d a var) dvar).
Qed.

(** ** [select_unassigned_variable] *)

Lemma select_loop cw d a (l : list Var.t) :
  forall acc,
    (forall v, In v l -> In v (dict_keys d)) ->
    NoDup (dict_keys acc ++ l) ->
    for_each l (select_body cw d a) acc
    = Ok (acc ++ map (fun v => (v, select_key cw d v)) (filter (unassigned a) l)).
Proof.
  induction l as [ | v l IH]; intros acc Hkeys Hnd; simpl.
  - rewrite app_nil_r. reflexivity.
  - destruct (NoDup_app_notin _ _ _ Hnd) as [Hacc [_ Hnd']].
    unfold select_body at 1, unassigned at 1.
    destruct (dict_mem Var.eqb v a); simpl.
    + apply IH; [intros; apply Hkeys; simpl; auto | exact Hnd'].
    + destruct (proj1 (dom_get_keys v d) (Hkeys v (or_introl eq_refl)))
        as [dv Hdv].
      rewrite Hdv. simpl.
      rewrite (dict_set_fresh Var.eqb var_eqb_eq) by exact Hacc.
      rewrite IH.
      * rewrite <- app_assoc. simpl. unfold select_key at 2, dom_of.
        rewrite Hdv. reflexivity.
      * intros; apply Hkeys; simpl; auto.
      * unfold dict_keys in *. rewrite map_app, <- app_assoc. exact Hnd.
Qed.

Lemma key_ltb_lt k1 k2 : key_ltb k1 k2 = true <-> key_lt k1 k2.
Proof.
  unfold key_ltb, key_lt.
  rewrite orb_true_iff, andb_true_iff, !Z.ltb_lt, Z.eqb_eq. reflexivity.
Qed.

Lemma min_from_least (l : list (Var.t * (Z * Z))) :
  forall best,
  exists m, In m (best :: l) /\ min_from best l = fst m /\
            forall e, In e (best :: l) -> ~ key_lt (snd e) (snd m).
Proof.
  induction l as [ | e l IH]; intros best; simpl.
  - exists best. split; [auto | ]. split; [reflexivity | ].
    intros e [<- | []]. unfold key_lt. lia.
  - destruct (IH (if key_ltb (snd e) (snd best) then e else best))
      as [m [Hm [Heq Hleast]]].
    exists m. split; [ | split; [exact Heq | ]].
    + destruct Hm as [Hm | Hm]; [ | auto].
      destruct (key_ltb (snd e) (snd best)); subst; auto.
    + assert (Hbest' : ~ key_lt
                (snd (if key_ltb (snd e) (snd best) then e else best)) (snd m))
        by (apply Hleast; simpl; auto).
      intros e' [<- | [<- | He']].
      * destruct (key_ltb (snd e) (snd best)) eqn:E.
        -- apply key_ltb_lt in E. unfold key_lt in *. lia.
        -- exact Hbest'.
      * destruct (key_ltb (snd e) (snd best)) eqn:E.
        -- exact Hbest'.
        -- assert (~ key_lt (snd e) (snd best))
             by (rewrite <- key_ltb_lt; congruence).
           unfold key_lt in *. lia.
      * apply Hleast. simpl; auto.
Qed.

(** While some variable is unassigned, the selection returns an unassigned
    variable whose domain is no larger than that of any other. *)
Lemma select_unassigned_variable_spec cw d a :
  NoDup (dict_keys d) ->
  assignment_complete d a = false ->
  exists var,
    select_unassigned_variable cw d a = Ok var /\
    In var (dict_keys d) /\ dict_mem Var.eqb var a = false /\
    forall v, In v (dict_keys d) -> dict_mem Var.eqb v a = false ->
              List.length (dom_of var d) <= List.length (dom_of v d).
Proof.
  intros Hnd Hinc. unfold select_unassigned_variable.
  change (for_each (dict_keys d) _ [])
    with (for_each (dict_keys d) (select_body cw d a) []).
  rewrite select_loop; [ | auto | exact Hnd]. simpl.
  set (l := filter (unassigned a) (dict_keys d)).
  assert (Hl : forall v, In v l <->
                         In v (dict_keys d) /\ dict_mem Var.eqb v a = false).
  { intros v. unfold l. rewrite filter_In. unfold unassigned.
    rewrite negb_true_iff. reflexivity. }
  destruct l as [ | v0 l'] eqn:El.
  - exfalso. unfold assignment_complete in Hinc.
    assert (forallb (fun variable => dict_mem Var.eqb variable a) (dict_keys d)
            = true); [ | congruence].
    apply forallb_forall. intros v Hv.
    destruct (dict_mem Var.eqb v a) eqn:E; [reflexivity | ].
    exfalso. apply (proj2 (Hl v)); auto.
  - simpl.
    destruct (min_from_least
                (map (fun v => (v, select_key cw d v)) l')
                (v0, select_key cw d v0)) as [m [Hm [Heq Hleast]]].
    exists (fst m). split; [rewrite Heq; reflexivity | ].
    change ((v0, select_key cw d v0)
            :: map (fun v => (v, select_key cw d v)) l')
      with (map (fun v => (v, select_key cw d v)) (v0 :: l')) in Hm, Hleast.
    apply in_map_iff in Hm. destruct Hm as [vm [<- Hvm]]. simpl.
    apply Hl in Hvm. destruct Hvm as [Hk Hu].
    split; [exact Hk | ]. split; [exact Hu | ].
    intros v Hv Hvu.
    assert (Hin : In (v, select_key cw d v)
                     (map (fun v => (v, select_key cw d v)) (v0 :: l'))).
    { apply (in_map (fun v => (v, select_key cw d v))). apply Hl. auto. }
    specialize (Hleast _ Hin). simpl in Hleast.
    unfold key_lt, select_key in Hleast. simpl in Hleast. lia.
Qed.

(** ** Assignments during the search *)

Lemma extends_refl a : extends a a.
Proof. intros v w H; exact H. Qed.

Lemma extends_trans a b c : extends a b -> extends b c -> extends a c.
Proof. intros H1 H2 v w H. apply H2, H1, H. Qed.

Lemma valid_extends cw a b :
  extends a b -> valid_assignment cw b -> valid_assignment cw a.
Proof.
  intros Hext [Hlen Hdis Hov]. split.
  - intros v w H. apply Hlen, Hext, H.
  - intros v1 v2 w1 w2 Hne H1 H2. apply (Hdis v1 v2); auto.
  - intros v n w wn o0 o1 Hn H1 H2. apply (Hov v n); auto.
Qed.

Lemma asg_get_set_eq var value (a : Assignment) :
  asg_get var (dict_set Var.eqb var value a) = Ok value.
Proof. apply (dict_get_set_eq Var.eqb var_eqb_eq). Qed.

Lemma asg_get_set_ne var v value (a : Assignment) :
  var <> v -> asg_get v (dict_set Var.eqb var value a) = asg_get v a.
Proof. apply (dict_get_set_ne Var.eqb var_eqb_eq). Qed.

Lemma asg_mem_false v (a : Assignment) :
  dict_mem Var.eqb v a = false <-> ~ In v (dict_keys a).
Proof. apply (dict_mem_false Var.eqb var_eqb_eq). Qed.

Lemma asg_get_fresh v (a : Assignment) w :
  dict_mem Var.eqb v a = false -> asg_get v a = Ok w -> False.
Proof.
  intros Hm Hg. apply asg_mem_false in Hm. apply Hm.
  apply (dict_get_keys Var.eqb var_eqb_eq). eauto.
Qed.

Lemma extends_set var value (a : Assignment) :
  dict_mem Var.eqb var a = false ->
  extends a (dict_set Var.eqb var value a).
Proof.
  intros Hm v w H. destruct (var_eq_dec var v) as [<- | Hne].
  - exfalso. eapply asg_get_fresh; eassumption.
  - rewrite asg_get_set_ne by exact Hne. exact H.
Qed.

Lemma extends_set_sol var value (a sol : Assignment) :
  extends a sol -> asg_get var sol = Ok value ->
  extends (dict_set Var.eqb var value a) sol.
Proof.
  intros Hext Hs v w H. destruct (var_eq_dec var v) as [<- | Hne].
  - rewrite asg_get_set_eq in H. injection H as <-. exact Hs.
  - rewrite asg_get_set_ne in H by exact Hne. apply Hext, H.
Qed.

Lemma asg_ok_set cw d var value (a : Assignment) :
  asg_ok cw d a -> In var (variables cw) -> In value (dom_of var d) ->
  dict_mem Var.eqb var a = false ->
  asg_ok cw d (dict_set Var.eqb var value a).
Proof.
  intros [Hnd Hdom] Hvar Hval Hm. apply asg_mem_false in Hm. split.
  - rewrite (dict_set_fresh Var.eqb var_eqb_eq) by exact Hm.
    unfold dict_keys. rewrite map_app. simpl.
    apply NoDup_app; [exact Hnd | | ].
    + constructor; [simpl; tauto | constructor].
    + intros x Hx [<- | []]. exact (Hm Hx).
  - intros v w H. destruct (var_eq_dec var v) as [<- | Hne].
    + rewrite asg_get_set_eq in H. injection H as <-. auto.
    + rewrite asg_get_set_ne in H by exact Hne. apply Hdom, H.
Qed.

Lemma asg_ok_indexed cw d (a : Assignment) :
  wf_crossword cw -> domains_inv cw d -> asg_ok cw d a -> asg_indexed cw a.
Proof.
  intros Hwf Hinv [_ Hdom] v n w wn o0 o1 Hv Hn Hov.
  destruct (Hdom v w Hv) as [Hvin Hw].
  destruct (Hdom n wn Hn) as [Hnin Hwn].
  destruct (wf_range _ Hwf v n o0 o1 Hvin Hnin Hov) as [H0 H1].
  destruct (inv_dom_get _ _ _ Hinv Hvin) as [lv Hlv].
  destruct (inv_dom_get _ _ _ Hinv Hnin) as [ln Hln].
  unfold dom_of in Hw, Hwn. rewrite Hlv in Hw. rewrite Hln in Hwn.
  rewrite (inv_node _ _ Hinv v lv w Hlv Hw).
  rewrite (inv_node _ _ Hinv n ln wn Hln Hwn). auto.
Qed.

Lemma dict_mem_set {K V : Type} (eqb : K -> K -> bool)
  (eqb_spec : forall a b, eqb a b = true <-> a = b) k k' v (d : list (K * V)) :
  dict_mem eqb k' (dict_set eqb k v d) = eqb k' k || dict_mem eqb k' d.
Proof.
  induction d as [ | [k1 v1] d IH]; simpl.
  - reflexivity.
  - destruct (eqb k k1) eqn:E; simpl.
    + apply eqb_spec in E. subst k1.
      destruct (eqb k' k); reflexivity.
    + rewrite IH. destruct (eqb k' k1), (eqb k' k); reflexivity.
Qed.

Lemma filter_length_lt {A : Type} (f g : A -> bool) (l : list A) x :
  (forall y, f y = true -> g y = true) ->
  In x l -> g x = true -> f x = false ->
  List.length (filter f l) < List.length (filter g l).
Proof.
  intros Hfg. induction l as [ | y l IH]; simpl; [tauto | ].
  intros [<- | Hin] Hg Hf.
  - rewrite Hg, Hf. simpl.
    assert (List.length (filter f l) <= List.length (filter g l)); [ | lia].
    clear IH. induction l as [ | z l IH]; simpl; [lia | ].
    destruct (f z) eqn:E.
    + rewrite (Hfg z E). simpl. lia.
    + destruct (g z); simpl; lia.
  - specialize (IH Hin Hg Hf). destruct (f y) eqn:E.
    + rewrite (Hfg y E). simpl. lia.
    + destruct (g y); simpl; lia.
Qed.

Lemma remaining_set d var value (a : Assignment) :
  In var (dict_keys d) -> dict_mem Var.eqb var a = false ->
  remaining d (dict_set Var.eqb var value a) < remaining d a.
Proof.
  intros Hk Hm. unfold remaining. apply filter_length_lt with (x := var).
  - intros y. unfold unassigned.
    rewrite (dict_mem_set Var.eqb var_eqb_eq), !negb_true_iff, orb_false_iff.
    tauto.
  - exact Hk.
  - unfold unassigned. rewrite Hm. reflexivity.
  - unfold unassigned.
    rewrite (dict_mem_set Var.eqb var_eqb_eq), var_eqb_refl. reflexivity.
Qed.

(** ** [backtrack] *)

Section Search.

Variable cw : Crossword.
Variable d : Domains.
Hypothesis Hwf : wf_crossword cw.
Hypothesis Hinv : domains_inv cw d.

Lemma truthy_extends var value (a1 res : Assignment) :
  asg_get var a1 = Ok value -> extends a1 res -> truthy (Some res) = true.
Proof.
  intros Hg Hext. apply Hext in Hg. destruct res; [discriminate | reflexivity].
Qed.

Lemma backtrack_values_spec
  (rec : Assignment -> result (option Assignment * Assignment))
  (n : nat) (var : Var.t) (a : Assignment) :
  (forall a1, asg_ok cw d a1 -> valid_assignment cw a1 ->
              remaining d a1 < n ->
              exists out, rec a1 = Ok out /\
                          found cw d a1 out /\ exhausted cw d a1 out) ->
  asg_ok cw d a -> In var (variables cw) ->
  dict_mem Var.eqb var a = false -> remaining d a <= n ->
  forall values,
    (forall value, In value values -> In value (dom_of var d)) ->
    exists out,
      backtrack_values cw rec var values a = Ok out /\
      found cw d a out /\
      (fst out = None ->
       forall value sol, In value values ->
         extends (dict_set Var.eqb var value a) sol ->
         solution cw d sol -> False).
Proof.
  intros Hrec Hok Hvar Hfresh Hn.
  assert (Hkey : In var (dict_keys d))
    by (rewrite (inv_keys _ _ Hinv); exact Hvar).
  induction values as [ | value values IH]; intros Hvals; simpl.
  - exists (None, a). split; [reflexivity | ]. split; [reflexivity | ].
    intros _ value sol [].
  - set (a1 := dict_set Var.eqb var value a).
    assert (Hok1 : asg_ok cw d a1)
      by (apply asg_ok_set; auto; apply Hvals; simpl; auto).
    assert (Hdel : dict_del Var.eqb var a1 = Ok a).
    { apply (dict_del_set_fresh Var.eqb var_eqb_eq).
      apply asg_mem_false. exact Hfresh. }
    destruct (consistent_valid cw a1 (asg_ok_indexed cw d a1 Hwf Hinv Hok1))
      as [c [Hc Hvalid]].
    destruct IH as [out [Hloop [Hfound Hnone]]];
      [intros; apply Hvals; simpl; auto | ].
    rewrite Hc. simpl. destruct c.
    + (* the extended assignment is consistent: recurse *)
      destruct (Hrec a1 Hok1 (proj1 Hvalid eq_refl)) as [out1 [Hr [Hf1 He1]]].
      { pose proof (remaining_set d var value a Hkey Hfresh). fold a1 in H. lia. }
      rewrite Hr. simpl. destruct out1 as [r1 a2]. simpl.
      unfold found in Hf1. simpl in Hf1. destruct r1 as [res | ].
      * destruct Hf1 as [-> [Hext [Hokr [Hcomp Hval]]]].
        rewrite (truthy_extends var value a1 a2 (asg_get_set_eq _ _ _) Hext).
        exists (Some a2, a2). split; [reflexivity | ].
        split; [ | discriminate]. unfold found. simpl.
        split; [reflexivity | ].
        split; [ | auto].
        eapply extends_trans; [apply extends_set; exact Hfresh | exact Hext].
      * subst a2. simpl. rewrite Hdel. simpl.
        exists out. split; [exact Hloop | ]. split; [exact Hfound | ].
        intros Hout value' sol [<- | Hin] Hext Hsol.
        -- exact (He1 eq_refl sol Hext Hsol).
        -- exact (Hnone Hout value' sol Hin Hext Hsol).
    + (* the extended assignment is rejected *)
      simpl. rewrite Hdel. simpl.
      exists out. split; [exact Hloop | ]. split; [exact Hfound | ].
      intros Hout value' sol [<- | Hin] Hext Hsol.
      * assert (false = true); [ | discriminate].
        apply Hvalid. apply (valid_extends cw _ sol Hext). apply Hsol.
      * exact (Hnone Hout value' sol Hin Hext Hsol).
Qed.

Lemma backtrack_rec_spec (n : nat) :
  forall a, asg_ok cw d a -> valid_assignment cw a -> remaining d a < n ->
  exists out, backtrack_rec n cw d a = Ok out /\
              found cw d a out /\ exhausted cw d a out.
Proof.
  induction n as [ | n IH]; intros a Hok Hvalid Hrem; [lia | ].
  simpl. destruct (assignment_complete d a) eqn:Hcomp.
  - exists (Some a, a). split; [reflexivity | ].
    split; [ | discriminate]. unfold found. simpl.
    split; [reflexivity | ]. split; [apply extends_refl | auto].
  - assert (Hnd : NoDup (dict_keys d))
      by (rewrite (inv_keys _ _ Hinv); apply (wf_variables _ Hwf)).
    destruct (select_unassigned_variable_spec cw d a Hnd Hcomp)
      as [var [Hsel [Hkey [Hfresh _]]]].
    rewrite Hsel. simpl.
    assert (Hvar : In var (variables cw))
      by (rewrite <- (inv_keys _ _ Hinv); exact Hkey).
    destruct (inv_dom_get _ _ _ Hinv Hvar) as [dvar Hdvar].
    rewrite (order_domain_values_eq cw d var a dvar Hwf Hinv Hvar Hdvar).
    simpl.
    destruct (sorted_pairs (elimination_count cw d a var) dvar) as [Hperm _].
    simpl in Hperm.
    set (values := map fst (sorted_by snd
            (map (fun w => (w, elimination_count cw d a var w)) dvar))) in *.
    destruct (backtrack_values_spec (backtrack_rec n cw d) n var a IH
                Hok Hvar Hfresh ltac:(lia) values)
      as [out [Hloop [Hfound Hnone]]].
    { intros value Hin. unfold dom_of. rewrite Hdvar.
      apply (Permutation_in _ Hperm Hin). }
    exists out. split; [exact Hloop | ]. split; [exact Hfound | ].
    intros Hout sol Hext Hsol.
    destruct (proj1 Hsol var Hvar) as [w [Hw Hwin]].
    apply (Hnone Hout w sol).
    + unfold dom_of in Hwin. rewrite Hdvar in Hwin.
      apply (Permutation_in _ (Permutation_sym Hperm) Hwin).
    + apply extends_set_sol; assumption.
    + exact Hsol.
Qed.

Lemma remaining_le (a : Assignment) : remaining d a <= List.length d.
Proof.
  unfold remaining. etransitivity; [apply filter_length_le | ].
  unfold dict_keys. rewrite length_map. lia.
Qed.

Lemma backtrack_spec (a : Assignment) :
  asg_ok cw d a -> valid_assignment cw a ->
  exists out, backtrack cw d a = Ok out /\
              found cw d a out /\ exhausted cw d a out.
Proof.
  intros Hok Hvalid. apply backtrack_rec_spec; auto.
  pose proof (remaining_le a). lia.
Qed.

End Search.

(** ** [ac3] keeps every solution *)

Lemma revise_result_solution cw x y lx ly d r d' sol :
  wf_crossword cw ->
  In x (variables cw) -> In y (variables cw) ->
  dom_get x d = Ok lx -> dom_get y d = Ok ly ->
  (r, d') = revise_result cw x y lx ly d ->
  solution cw d sol -> solution cw d' sol.
Proof.
  intros Hwf Hxin Hyin Hx Hy Hres [Hdom Hvalid].
  split; [ | exact Hvalid].
  unfold revise_result in Hres.
  destruct (overlaps cw x y) as [[ox oy] | ] eqn:Hov;
    injection Hres as _ ->; [ | exact Hdom].
  intros v Hv. destruct (Hdom v Hv) as [w [Hw Hin]].
  exists w. split; [exact Hw | ].
  destruct (var_eq_dec x v) as [<- | Hne].
  - unfold dom_of in *. rewrite dom_get_set_eq. rewrite Hx in Hin.
    apply revised_domain_In. split; [exact Hin | ].
    destruct (Hdom y Hyin) as [wy [Hwy Hyin']].
    unfold dom_of in Hyin'. rewrite Hy in Hyin'.
    apply supported_iff. exists wy. split; [exact Hyin' | ].
    apply (valid_overlap _ _ Hvalid x y w wy ox oy); auto.
    apply neighbors_In. split; [exact Hyin | ]. split; [ | congruence].
    intros ->. rewrite (wf_irrefl _ Hwf x Hxin) in Hov. discriminate.
  - unfold dom_of in *. rewrite dom_get_set_ne by exact Hne. exact Hin.
Qed.

Lemma ac3_run_solution cw arcs d b df sol :
  ac3_run cw arcs d b df ->
  wf_crossword cw -> domains_rep cw d -> arcs_ok cw arcs ->
  solution cw d sol ->
  b = true /\ solution cw df sol.
Proof.
  intros Hrun Hwf. induction Hrun as
      [ d
      | x y arcs d d' b df Hrev Hrun IH
      | x y arcs d d' Hrev Hx'
      | x y arcs d d' w dx b df Hrev Hx' Hrun IH ];
    intros Hrep Hok Hsol.
  - auto.
  - destruct (ac3_step cw x y arcs d false d' Hwf Hrep Hok Hrev)
      as [Hxin [Hyin [Hrep' [_ [Hok' [_ [lx [ly [Hx [Hy Hres]]]]]]]]]].
    apply IH; auto.
    exact (revise_result_solution cw x y lx ly d false d' sol
             Hwf Hxin Hyin Hx Hy Hres Hsol).
  - destruct (ac3_step cw x y arcs d true d' Hwf Hrep Hok Hrev)
      as [Hxin [Hyin [Hrep' [_ [Hok' [_ [lx [ly [Hx [Hy Hres]]]]]]]]]].
    pose proof (revise_result_solution cw x y lx ly d true d' sol
                  Hwf Hxin Hyin Hx Hy Hres Hsol) as [Hdom _].
    destruct (Hdom x Hxin) as [w [_ Hin]].
    unfold dom_of in Hin. rewrite Hx' in Hin. destruct Hin.
  - destruct (ac3_step cw x y arcs d true d' Hwf Hrep Hok Hrev)
      as [Hxin [Hyin [Hrep' [_ [_ [Hok' [lx [ly [Hx [Hy Hres]]]]]]]]]].
    apply IH; auto.
    exact (revise_result_solution cw x y lx ly d true d' sol
             Hwf Hxin Hyin Hx Hy Hres Hsol).
Qed.

(** ** [solve] *)

Lemma asg_ok_empty cw d : asg_ok cw d [].
Proof. split; [constructor | intros v w H; discriminate]. Qed.

Lemma valid_empty cw : valid_assignment cw [].
Proof. split; intros; discriminate. Qed.

Lemma extends_empty sol : extends [] sol.
Proof. intros v w H; discriminate. Qed.

(** The course of [solve] on a well-formed puzzle. *)
Lemma solve_steps cw :
  wf_crossword cw ->
  let d1 := map node_filter (init cw) in
  exists b d2 out,
    enforce_node_consistency (init cw) = Ok d1 /\
    ac3 cw None d1 = Ok (b, d2) /\
    ac3_run cw (initial_arcs cw) d1 b d2 /\
    domains_inv cw d1 /\ domains_inv cw d2 /\
    backtrack cw d2 [] = Ok out /\
    found cw d2 [] out /\ exhausted cw d2 [] out /\
    solve cw = Ok (fst out, d2).
Proof.
  intros Hwf d1.
  assert (Henf : enforce_node_consistency (init cw) = Ok d1).
  { apply enforce_node_consistency_spec.
    - rewrite init_keys. apply (wf_variables _ Hwf).
    - intros x l H. unfold init in H. apply in_map_iff in H.
      destruct H as [v [E _]]. injection E as _ <-. apply (wf_words _ Hwf). }
  assert (Hinv1 : domains_inv cw d1)
    by (apply node_filter_inv; [apply (wf_variables _ Hwf) | apply (wf_words _ Hwf)]).
  destruct (ac3_total cw d1 Hwf Hinv1) as [b [d2 [Hac3 [Hrun [Hinv2 _]]]]].
  destruct (backtrack_spec cw d2 Hwf Hinv2 [] (asg_ok_empty cw d2)
              (valid_empty cw)) as [out [Hbt [Hfound Hex]]].
  exists b, d2, out. repeat (split; [assumption | ]).
  unfold solve. rewrite Henf. simpl. rewrite Hac3. simpl. rewrite Hbt.
  destruct out; reflexivity.
Qed.

Lemma complete_of_assignment_complete cw d (a : Assignment) :
  domains_inv cw d -> assignment_complete d a = true -> complete cw a.
Proof.
  intros Hinv Hc v Hv. unfold assignment_complete in Hc.
  rewrite forallb_forall in Hc. rewrite <- (inv_keys _ _ Hinv) in Hv.
  apply Hc in Hv. apply asg_mem_keys in Hv.
  apply (dict_get_keys Var.eqb var_eqb_eq). exact Hv.
Qed.

(** C1. On every well-formed puzzle [solve] returns, and what it returns is
    [None] or an assignment that gives a word to every variable of the
    puzzle, each word of its variable's length, no word twice, and agreeing
    words wherever two variables overlap. *)
Theorem solve_sound cw :
  wf_crossword cw ->
  exists r d,
    solve cw = Ok (r, d) /\
    match r with
    | None => True
    | Some a =>
        (forall v, In v (variables cw) -> exists w, asg_get v a = Ok w) /\
        (forall v w, asg_get v a = Ok w ->
                     In v (variables cw) /\ String.length w = Var.length v) /\
        (forall v1 v2 w1 w2,
            v1 <> v2 -> asg_get v1 a = Ok w1 -> asg_get v2 a = Ok w2 ->
            w1 <> w2) /\
        (forall x y wx wy ox oy,
            asg_get x a = Ok wx -> asg_get y a = Ok wy ->
            overlaps cw x y = Some (ox, oy) ->
            agrees ox oy wx wy = true)
    end.
Proof.
  intros Hwf.
  destruct (solve_steps cw Hwf)
    as [b [d2 [[r a'] [_ [_ [_ [_ [Hinv2 [_ [Hfound [_ Hsolve]]]]]]]]]]].
  exists r, d2. split; [exact Hsolve | ].
  unfold found in Hfound. simpl in Hfound. destruct r as [a | ]; [ | exact I].
  destruct Hfound as [_ [_ [[_ Hdom] [Hcomp Hvalid]]]].
  split; [exact (complete_of_assignment_complete cw d2 a Hinv2 Hcomp) | ].
  split; [ | split].
  - intros v w H. split; [apply (Hdom v w H) | ].
    apply (valid_length _ _ Hvalid v w H).
  - apply (valid_distinct _ _ Hvalid).
  - intros x y wx wy ox oy Hx Hy Hov.
    apply (valid_overlap _ _ Hvalid x y wx wy ox oy); auto.
    destruct (Hdom x wx Hx) as [Hxin _]. destruct (Hdom y wy Hy) as [Hyin _].
    apply neighbors_In. split; [exact Hyin | ]. split; [ | congruence].
    intros ->. rewrite (wf_irrefl _ Hwf x Hxin) in Hov. discriminate.
Qed.

(** C2. When some valid assignment gives every variable of the puzzle a word
    of the vocabulary, [solve] returns an assignment, and that assignment is
    complete and valid; the node filter and [ac3] have kept every word of
    the given solution in the store. *)
Theorem solve_complete cw sol :
  wf_crossword cw ->
  (forall v, In v (variables cw) ->
             exists w, asg_get v sol = Ok w /\ In w (words cw)) ->
  valid_assignment cw sol ->
  exists a d,
    solve cw = Ok (Some a, d) /\ complete cw a /\ valid_assignment cw a /\
    (forall v, In v (variables cw) ->
               exists w, asg_get v sol = Ok w /\ In w (dom_of v d)).
Proof.
  intros Hwf Hwords Hvalid.
  destruct (solve_steps cw Hwf)
    as [b [d2 [[r a'] [_ [_ [Hrun [Hinv1 [Hinv2 [_ [Hfound [Hex Hsolve]]]]]]]]]]].
  assert (Hsol1 : solution cw (map node_filter (init cw)) sol).
  { split; [ | exact Hvalid]. intros v Hv.
    destruct (Hwords v Hv) as [w [Hw Hin]]. exists w. split; [exact Hw | ].
    unfold dom_of.
    rewrite (dom_get_map_filter v _ _ (dom_get_init cw v Hv)).
    apply filter_In. split; [exact Hin | ].
    unfold node_ok. apply Nat.eqb_eq. apply (valid_length _ _ Hvalid v w Hw). }
  destruct (ac3_run_solution cw _ _ b d2 sol Hrun Hwf (inv_rep _ _ Hinv1)
              (initial_arcs_ok cw) Hsol1) as [_ Hsol2].
  simpl in Hsolve. destruct r as [a | ].
  - exists a, d2. split; [exact Hsolve | ].
    unfold found in Hfound. simpl in Hfound.
    destruct Hfound as [_ [_ [_ [Hcomp Hval]]]].
    split; [ | split; [exact Hval | exact (proj1 Hsol2)]].
    exact (complete_of_assignment_complete cw d2 a Hinv2 Hcomp).
  - exfalso. apply (Hex eq_refl sol (extends_empty sol) Hsol2).
Qed.

(** ** The example puzzles are well formed *)

Ltac wf_two_variables :=
  split;
  [ repeat constructor; simpl; intuition discriminate
  | repeat constructor; simpl; intuition discriminate
  | intros x [<- | [<- | []]]; reflexivity
  | intros x y p q [<- | [<- | []]] [<- | [<- | []]] H;
    vm_compute in H |- *; congruence
  | intros x y p q [<- | [<- | []]] [<- | [<- | []]] H;
    vm_compute in H; try discriminate; injection H as <- <-; simpl; lia ].

Lemma two_slots_wf : wf_crossword Puzzles.two_slots.
Proof. wf_two_variables. Qed.

Lemma clash_wf : wf_crossword Puzzles.clash.
Proof. wf_two_variables. Qed.

Lemma lonely_slot_wf : wf_crossword Puzzles.lonely_slot.
Proof.
  split.
  - repeat constructor; simpl; tauto.
  - repeat constructor; simpl; intuition discriminate.
  - reflexivity.
  - discriminate.
  - discriminate.
Qed.

Lemma filtered_inv cw :
  wf_crossword cw -> domains_inv cw (map node_filter (init cw)).
Proof.
  intros Hwf. apply node_filter_inv;
    [apply (wf_variables _ Hwf) | apply (wf_words _ Hwf)].
Qed.

(** ** An emptied domain *)

(** With an empty domain in the store the search fails at its first step:
    the selected variable has no candidate. *)
Lemma backtrack_empty_domain cw d x :
  wf_crossword cw -> domains_inv cw d ->
  In x (variables cw) -> dom_get x d = Ok [] ->
  backtrack cw d [] = Ok (None, []).
Proof.
  intros Hwf Hinv Hx Hempty. unfold backtrack. simpl.
  assert (Hcomp : assignment_complete d [] = false).
  { unfold assignment_complete. rewrite (inv_keys _ _ Hinv).
    destruct (forallb (fun variable => dict_mem Var.eqb variable [])
                (variables cw)) eqn:E; [ | reflexivity].
    rewrite forallb_forall in E. specialize (E x Hx). discriminate. }
  rewrite Hcomp.
  assert (Hnd : NoDup (dict_keys d))
    by (rewrite (inv_keys _ _ Hinv); apply (wf_variables _ Hwf)).
  destruct (select_unassigned_variable_spec cw d [] Hnd Hcomp)
    as [var [Hsel [Hkey [_ Hmin]]]].
  rewrite Hsel. simpl.
  assert (Hvar : In var (variables cw))
    by (rewrite <- (inv_keys _ _ Hinv); exact Hkey).
  destruct (inv_dom_get _ _ _ Hinv Hvar) as [dvar Hdvar].
  assert (Hlen : List.length (dom_of var d) <= List.length (dom_of x d)).
  { apply Hmin; [rewrite (inv_keys _ _ Hinv); exact Hx | reflexivity]. }
  unfold dom_of in Hlen. rewrite Hdvar, Hempty in Hlen.
  destruct dvar; [ | simpl in Hlen; lia].
  rewrite (order_domain_values_eq cw d var [] [] Hwf Hinv Hvar Hdvar).
  reflexivity.
Qed.

(** C4. A revision inside [ac3] that leaves the domain of its variable empty
    ends the loop at once with [False], whatever arcs are still on the
    worklist, and the store is left as that revision left it; and when
    [ac3] reports this failure inside [solve], [solve] returns [None]. *)
Theorem ac3_empty_domain_fails cw :
  (forall x y arcs d d' fuel,
      revise cw x y d = Ok (true, d') -> dom_get x d' = Ok [] ->
      ac3_loop cw (S fuel) ((x, y) :: arcs) d = Ok (false, d')) /\
  (wf_crossword cw ->
   forall d1 d2,
     enforce_node_consistency (init cw) = Ok d1 ->
     ac3 cw None d1 = Ok (false, d2) ->
     solve cw = Ok (None, d2)).
Proof.
  split.
  - intros x y arcs d d' fuel Hrev Hx. simpl. rewrite Hrev. simpl.
    rewrite Hx. reflexivity.
  - intros Hwf d1 d2 Henf Hac3.
    pose proof (filtered_inv cw Hwf) as Hinv1.
    assert (Hd1 : d1 = map node_filter (init cw)).
    { rewrite enforce_node_consistency_spec in Henf.
      - injection Henf as <-. reflexivity.
      - rewrite init_keys. apply (wf_variables _ Hwf).
      - intros x l H. unfold init in H. apply in_map_iff in H.
        destruct H as [v [E _]]. injection E as _ <-. apply (wf_words _ Hwf). }
    subst d1.
    pose proof (ac3_loop_run _ _ _ _ _ _ Hac3) as Hrun.
    destruct (ac3_run_rep cw _ _ _ _ Hrun Hwf (inv_rep _ _ Hinv1)
                (initial_arcs_ok cw)) as [Hrep2 Hsh].
    pose proof (shrinks_inv cw _ _ Hinv1 Hrep2 Hsh) as Hinv2.
    destruct (ac3_run_false cw _ _ _ Hrun Hwf (inv_rep _ _ Hinv1)
                (initial_arcs_ok cw)) as [x [_ [_ [Hx [Hempty _]]]]].
    unfold solve. rewrite Henf. simpl. rewrite Hac3. simpl.
    rewrite (backtrack_empty_domain cw d2 x Hwf Hinv2 Hx Hempty).
    reflexivity.
Qed.

(** C10. [ac3] reports failure only when a revision of its own empties a
    domain that held a word when [ac3] was called; so it can return [True]
    on a store with an empty domain, as on the puzzle with one slot of four
    letters and no word of four letters, where [solve] still returns
    [None]. *)
Theorem ac3_true_with_empty_domain :
  (forall cw d d',
      wf_crossword cw -> domains_rep cw d ->
      ac3 cw None d = Ok (false, d') ->
      exists x l w,
        In x (variables cw) /\ dom_get x d' = Ok [] /\
        dom_get x d = Ok l /\ In w l) /\
  (exists d,
      wf_crossword Puzzles.lonely_slot /\
      enforce_node_consistency (init Puzzles.lonely_slot) = Ok d /\
      dom_get Puzzles.lonely d = Ok [] /\
      ac3 Puzzles.lonely_slot None d = Ok (true, d) /\
      solve Puzzles.lonely_slot = Ok (None, d)).
Proof.
  split.
  - intros cw d d' Hwf Hrep Hac3.
    apply ac3_loop_run in Hac3.
    exact (ac3_run_false cw _ d d' Hac3 Hwf Hrep (initial_arcs_ok cw)).
  - exists [(Puzzles.lonely, [])].
    split; [exact lonely_slot_wf | ]. repeat split; reflexivity.
Qed.

(** C5 fails on the code.  In the puzzle of two crossing slots, the second
    slot is given a word of one letter; the first slot is examined first,
    its word has the right length, and the comparison with the second slot
    indexes the short word at the overlap: [consistent] raises [IndexError]
    although a word of the wrong length is assigned.  With the slots
    inserted in the other order it returns [False]. *)
Theorem consistent_raises_on_short_word :
  let short := [(Puzzles.across, "CAT"%string); (Puzzles.down, "A"%string)] in
  wf_crossword Puzzles.two_slots /\
  asg_get Puzzles.down short = Ok "A"%string /\
  String.length "A" <> Var.length Puzzles.down /\
  consistent Puzzles.two_slots short = Raise IndexError /\
  consistent Puzzles.two_slots (rev short) = Ok false.
Proof.
  simpl. split; [exact two_slots_wf | ].
  split; [reflexivity | ]. split; [discriminate | ].
  split; reflexivity.
Qed.

(** ** Undoing a failed candidate *)

(** [solve] leaves in [self.domains] what [ac3] left there. *)
Lemma solve_domains cw r dfin :
  solve cw = Ok (r, dfin) ->
  exists d1 b,
    enforce_node_consistency (init cw) = Ok d1 /\
    ac3 cw None d1 = Ok (b, dfin).
Proof.
  unfold solve. intros H.
  destruct (enforce_node_consistency (init cw)) as [d1 | e] eqn:E1;
    simpl in H; [ | discriminate].
  destruct (ac3 cw None d1) as [[b d2] | e] eqn:E2; simpl in H;
    [ | discriminate].
  destruct (backtrack cw d2 []) as [[r' a'] | e]; simpl in H; [ | discriminate].
  injection H as _ <-. exists d1, b. split; [reflexivity | exact E2].
Qed.

(** C9. Inside a call of [backtrack] on the assignment [a], take a candidate
    [value] for an unassigned variable [var].  Deleting [var] from the
    extended assignment gives back [a] itself.  When [consistent] rejects
    the extended assignment, the loop goes on with the next candidates from
    [a].  When the recursive call returns [None], it has left the dict as
    the extended assignment, and again the loop goes on from [a].  A call
    that returns [None] leaves the dict as it found it.  And the store
    [solve] leaves is the one [ac3] produced. *)
Theorem undo_exact cw d n var value values a :
  wf_crossword cw -> domains_inv cw d ->
  asg_ok cw d a -> valid_assignment cw a ->
  In var (variables cw) -> dict_mem Var.eqb var a = false ->
  In value (dom_of var d) ->
  remaining d a <= n ->
  let rec := backtrack_rec n cw d in
  let a1 := dict_set Var.eqb var value a in
  dict_del Var.eqb var a1 = Ok a /\
  (consistent cw a1 = Ok false ->
   backtrack_values cw rec var (value :: values) a
   = backtrack_values cw rec var values a) /\
  (consistent cw a1 = Ok true ->
   forall a2, rec a1 = Ok (None, a2) ->
     a2 = a1 /\
     backtrack_values cw rec var (value :: values) a
     = backtrack_values cw rec var values a) /\
  (forall a', backtrack cw d a = Ok (None, a') -> a' = a) /\
  (forall r dfin,
      solve cw = Ok (r, dfin) ->
      exists d1 b,
        enforce_node_consistency (init cw) = Ok d1 /\
        ac3 cw None d1 = Ok (b, dfin)).
Proof.
  intros Hwf Hinv Hok Hvalid Hvar Hfresh Hval Hn rec a1.
  assert (Hkey : In var (dict_keys d))
    by (rewrite (inv_keys _ _ Hinv); exact Hvar).
  assert (Hok1 : asg_ok cw d a1) by (apply asg_ok_set; auto).
  assert (Hdel : dict_del Var.eqb var a1 = Ok a).
  { apply (dict_del_set_fresh Var.eqb var_eqb_eq).
    apply asg_mem_false. exact Hfresh. }
  assert (Hrem : remaining d a1 < n).
  { pose proof (remaining_set d var value a Hkey Hfresh) as H.
    fold a1 in H. lia. }
  split; [exact Hdel | ]. split; [ | split; [ | split]].
  - intros Hc. simpl. fold a1. rewrite Hc. simpl. rewrite Hdel. reflexivity.
  - intros Hc a2 Hrec.
    assert (Ha2 : a2 = a1).
    { destruct (consistent_valid cw a1 (asg_ok_indexed cw d a1 Hwf Hinv Hok1))
        as [c [Hc' Hv]].
      rewrite Hc in Hc'. injection Hc' as <-.
      destruct (backtrack_rec_spec cw d Hwf Hinv n a1 Hok1
                  (proj1 Hv eq_refl) Hrem) as [out [Hout [Hfound _]]].
      unfold rec in Hrec. rewrite Hrec in Hout. injection Hout as <-.
      exact Hfound. }
    split; [exact Ha2 | ]. subst a2.
    simpl. fold a1. rewrite Hc. simpl. rewrite Hrec. simpl.
    rewrite Hdel. reflexivity.
  - intros a' Hbt.
    destruct (backtrack_spec cw d Hwf Hinv a Hok Hvalid)
      as [out [Hout [Hfound _]]].
    rewrite Hbt in Hout. injection Hout as <-. exact Hfound.
  - apply solve_domains.
Qed.

(** ** The theorems at the example puzzles *)

Module Witness.

Import Puzzles.
Local Open Scope string_scope.

Lemma two_slots_store_inv : domains_inv two_slots two_slots_store.
Proof. exact (filtered_inv two_slots two_slots_wf). Qed.

Lemma clash_store_inv : domains_inv clash clash_store.
Proof. exact (filtered_inv clash clash_wf). Qed.

Lemma solve_sound_witness :
  wf_crossword two_slots /\ exists r d, solve two_slots = Ok (r, d).
Proof.
  split; [exact two_slots_wf | ].
  destruct (solve_sound two_slots two_slots_wf) as [r [d [H _]]].
  exists r, d. exact H.
Defined.

Lemma solve_complete_witness :
  let sol := [(across, "CAT"); (down, "EAR")] in
  valid_assignment two_slots sol /\
  exists a d,
    solve two_slots = Ok (Some a, d) /\
    complete two_slots a /\ valid_assignment two_slots a.
Proof.
  simpl. split.
  - apply consistent_value_valid. reflexivity.
  - destruct (solve_complete two_slots [(across, "CAT"); (down, "EAR")]
                two_slots_wf) as [a [d [Hs [Hc [Hv _]]]]].
    + intros v [<- | [<- | []]]; eexists; (split; [reflexivity | simpl; auto]).
    + apply consistent_value_valid. reflexivity.
    + exists a, d. auto.
Defined.

Lemma ac3_arc_consistent_witness :
  ac3 two_slots None two_slots_store = Ok (true, two_slots_store) /\
  exists wy, In wy ["CAT"; "EAR"; "DOG"] /\ agrees 1 1 "DOG" wy = true.
Proof.
  split; [reflexivity | ].
  apply (ac3_arc_consistent two_slots two_slots_store two_slots_store
           two_slots_wf (inv_rep _ _ two_slots_store_inv) eq_refl
           across down 1 1 ["CAT"; "EAR"; "DOG"] ["CAT"; "EAR"; "DOG"] "DOG").
  - simpl; auto.
  - simpl; auto.
  - reflexivity.
  - reflexivity.
  - reflexivity.
  - simpl; auto.
Defined.

Lemma ac3_empty_domain_fails_witness :
  ac3 clash None clash_store = Ok (false, [(top, ["CAT"]); (left, [])]) /\
  solve clash = Ok (None, [(top, ["CAT"]); (left, [])]).
Proof.
  split; [reflexivity | ].
  apply (proj2 (ac3_empty_domain_fails clash) clash_wf clash_store);
    reflexivity.
Defined.

Lemma node_consistency_exact_witness :
  exists d,
    enforce_node_consistency (init two_slots) = Ok d /\
    exists l, dom_get across d = Ok l /\
              (In "A" (words two_slots) /\ String.length "A" = 3 <-> In "A" l).
Proof.
  destruct (node_consistency_exact two_slots
              (wf_variables _ two_slots_wf) (wf_words _ two_slots_wf))
    as [d [Hd Hall]].
  exists d. split; [exact Hd | ].
  destruct (Hall across (or_introl eq_refl)) as [l [Hl Hw]].
  exists l. split; [exact Hl | ]. symmetry. apply (Hw "A").
Defined.

Lemma revise_spec_witness :
  exists revised d',
    revise clash top left clash_store = Ok (revised, d') /\
    (revised = true <-> exists wx, In wx ["CAT"] /\ ~ In wx (dom_of top d')).
Proof.
  destruct (revise_spec clash clash_store top left clash_wf
              (inv_rep _ _ clash_store_inv)
              (or_introl eq_refl) (or_intror (or_introl eq_refl)))
    as [Htotal [_ Hspec]].
  assert (Hne : top <> left) by (unfold top, left; discriminate).
  destruct (Htotal Hne clash_store_inv) as [revised [d' Hrev]].
  exists revised, d'. split; [exact Hrev | ].
  destruct (Hspec revised d' Hrev)
    as [lx [ly [lx' [Hx [_ [Hx' [_ [Hiff _]]]]]]]].
  injection Hx as <-. unfold dom_of. rewrite Hx'. exact Hiff.
Defined.

Lemma order_domain_values_spec_witness :
  exists values,
    order_domain_values two_slots two_slots_store across [] = Ok values /\
    Permutation values ["CAT"; "EAR"; "DOG"].
Proof.
  destruct (order_domain_values_spec two_slots two_slots_store across []
              (inv_rep _ _ two_slots_store_inv)) as [Htotal Hspec].
  destruct (Htotal two_slots_wf two_slots_store_inv (or_introl eq_refl))
    as [values Ho].
  exists values. split; [exact Ho | ].
  destruct (Hspec values Ho) as [dvar [Hd [Hperm _]]].
  injection Hd as <-. exact Hperm.
Defined.

Lemma undo_exact_witness :
  consistent two_slots [(across, "DOG"); (down, "CAT")] = Ok false /\
  dict_del Var.eqb down [(across, "DOG"); (down, "CAT")]
  = Ok [(across, "DOG")] /\
  backtrack_values two_slots (backtrack_rec 1 two_slots two_slots_store)
    down ["CAT"; "DOG"] [(across, "DOG")]
  = backtrack_values two_slots (backtrack_rec 1 two_slots two_slots_store)
      down ["DOG"] [(across, "DOG")].
Proof.
  split; [reflexivity | ].
  assert (Hok : asg_ok two_slots two_slots_store [(across, "DOG")]).
  { apply (asg_ok_set two_slots two_slots_store across "DOG" []).
    - apply asg_ok_empty.
    - simpl; auto.
    - simpl; auto.
    - reflexivity. }
  assert (Hvalid : valid_assignment two_slots [(across, "DOG")])
    by (apply consistent_value_valid; reflexivity).
  destruct (undo_exact two_slots two_slots_store 1 down "CAT" ["DOG"]
              [(across, "DOG")] two_slots_wf two_slots_store_inv Hok Hvalid)
    as [Hdel [Hrej _]].
  - simpl; auto.
  - reflexivity.
  - simpl; auto.
  - vm_compute. lia.
  - split; [exact Hdel | ]. apply Hrej. reflexivity.
Defined.

Lemma ac3_true_with_empty_domain_witness :
  exists x l w,
    In x (variables clash) /\
    dom_get x [(top, ["CAT"]); (left, [])] = Ok [] /\
    dom_get x clash_store = Ok l /\ In w l.
Proof.
  apply (proj1 ac3_true_with_empty_domain clash clash_store
           [(top, ["CAT"]); (left, [])] clash_wf
           (inv_rep _ _ clash_store_inv)).
  reflexivity.
Defined.

End Witness.

(** * Further properties of the solver *)

(** ** [ac3] on any worklist *)

Lemma ac3_worklist cw arcs d :
  ac3 cw arcs d
  = ac3_loop cw (ac3_bound cw (worklist cw arcs) d) (worklist cw arcs) d.
Proof. destruct arcs; reflexivity. Qed.

Lemma ac3_worklist_run cw arcs d b d' :
  ac3 cw arcs d = Ok (b, d') -> ac3_run cw (worklist cw arcs) d b d'.
Proof. rewrite ac3_worklist. apply ac3_loop_run. Qed.

(** X5. [ac3], on any list of arcs between variables of the puzzle, only
    removes words: the store keeps its keys in their order, every domain is
    still a set, and every word of the final store was in the same domain of
    the initial one. *)
Theorem ac3_only_removes cw arcs d b d' :
  wf_crossword cw -> domains_rep cw d -> arcs_ok cw (worklist cw arcs) ->
  ac3 cw arcs d = Ok (b, d') ->
  dict_keys d' = dict_keys d /\
  (forall x l', dom_get x d' = Ok l' ->
                NoDup l' /\ exists l, dom_get x d = Ok l /\ incl l' l).
Proof.
  intros Hwf Hrep Hok Hac3. apply ac3_worklist_run in Hac3.
  destruct (ac3_run_rep cw _ d b d' Hac3 Hwf Hrep Hok) as [Hrep' Hsh].
  split.
  - rewrite (rep_keys _ _ Hrep'), (rep_keys _ _ Hrep). reflexivity.
  - intros x l' Hx. split; [apply (rep_sets _ _ Hrep' x l' Hx) | ].
    apply (Hsh x l' Hx).
Qed.

Lemma revise_result_within cw x y lx ly d r d' sub :
  In x (variables cw) -> In y (variables cw) ->
  dom_get x d = Ok lx -> dom_get y d = Ok ly ->
  (r, d') = revise_result cw x y lx ly d ->
  self_supported cw sub -> within cw d sub -> within cw d' sub.
Proof.
  intros Hxin Hyin Hx Hy Hres Hsup Hin.
  unfold revise_result in Hres.
  destruct (overlaps cw x y) as [[ox oy] | ] eqn:Hov;
    injection Hres as _ ->; [ | exact Hin].
  intros v w Hv Hw. pose proof (Hin v w Hv Hw) as Hwd.
  destruct (var_eq_dec x v) as [<- | Hne].
  - unfold dom_of in *. rewrite dom_get_set_eq. rewrite Hx in Hwd.
    apply revised_domain_In. split; [exact Hwd | ].
    destruct (Hsup x y ox oy w Hxin Hyin Hov Hw) as [wy [Hwy Hag]].
    apply supported_iff. exists wy. split; [ | exact Hag].
    pose proof (Hin y wy Hyin Hwy) as Hyd.
    unfold dom_of in Hyd. rewrite Hy in Hyd. exact Hyd.
  - unfold dom_of in *. rewrite dom_get_set_ne by exact Hne. exact Hwd.
Qed.

Lemma ac3_run_within cw arcs d b df sub :
  ac3_run cw arcs d b df ->
  wf_crossword cw -> domains_rep cw d -> arcs_ok cw arcs ->
  self_supported cw sub -> within cw d sub -> within cw df sub.
Proof.
  intros Hrun Hwf Hrep Hok Hsup. revert Hrep Hok.
  induction Hrun as
      [ d
      | x y arcs d d' b df Hrev Hrun IH
      | x y arcs d d' Hrev Hx'
      | x y arcs d d' w dx b df Hrev Hx' Hrun IH ];
    intros Hrep Hok Hin.
  - exact Hin.
  - destruct (ac3_step cw x y arcs d false d' Hwf Hrep Hok Hrev)
      as [Hxin [Hyin [Hrep' [_ [Hok' [_ [lx [ly [Hx [Hy Hres]]]]]]]]]].
    apply IH; auto.
    exact (revise_result_within cw x y lx ly d false d' sub
             Hxin Hyin Hx Hy Hres Hsup Hin).
  - destruct (ac3_step cw x y arcs d true d' Hwf Hrep Hok Hrev)
      as [Hxin [Hyin [_ [_ [_ [_ [lx [ly [Hx [Hy Hres]]]]]]]]]].
    exact (revise_result_within cw x y lx ly d true d' sub
             Hxin Hyin Hx Hy Hres Hsup Hin).
  - destruct (ac3_step cw x y arcs d true d' Hwf Hrep Hok Hrev)
      as [Hxin [Hyin [Hrep' [_ [_ [Hok' [lx [ly [Hx [Hy Hres]]]]]]]]]].
    apply IH; auto.
    exact (revise_result_within cw x y lx ly d true d' sub
             Hxin Hyin Hx Hy Hres Hsup Hin).
Qed.

(** X6. [ac3] never removes a word of a family of words that lies within the
    store and is arc consistent by itself; so when it reports failure, every
    such family leaves some variable without a word: no choice of non-empty
    domains inside the store is arc consistent. *)
Theorem ac3_keeps_supported_words cw arcs d b d' sub :
  wf_crossword cw -> domains_rep cw d -> arcs_ok cw (worklist cw arcs) ->
  self_supported cw sub -> within cw d sub ->
  ac3 cw arcs d = Ok (b, d') ->
  within cw d' sub /\
  (b = false -> exists x, In x (variables cw) /\ forall w, ~ sub x w).
Proof.
  intros Hwf Hrep Hok Hsup Hin Hac3. apply ac3_worklist_run in Hac3.
  pose proof (ac3_run_within cw _ d b d' sub Hac3 Hwf Hrep Hok Hsup Hin)
    as Hin'.
  split; [exact Hin' | ]. intros ->.
  destruct (ac3_run_false cw _ d d' Hac3 Hwf Hrep Hok)
    as [x [_ [_ [Hx [Hempty _]]]]].
  exists x. split; [exact Hx | ]. intros w Hw.
  pose proof (Hin' x w Hx Hw) as H. unfold dom_of in H.
  rewrite Hempty in H. exact H.
Qed.

(** X8. [ac3] on a given list of arcs: when every arc that is not on the list
    is consistent in the store, and [ac3] returns [True], every arc is
    consistent in the final store. *)
Theorem ac3_given_arcs cw l d d' :
  wf_crossword cw -> domains_rep cw d -> arcs_ok cw l ->
  (forall x y, In x (variables cw) -> In y (variables cw) ->
               ~ In (x, y) l -> arc_consistent cw d x y) ->
  ac3 cw (Some l) d = Ok (true, d') ->
  forall x y, In x (variables cw) -> In y (variables cw) ->
              arc_consistent cw d' x y.
Proof.
  intros Hwf Hrep Hok Hset Hac3 x y Hx Hy.
  apply ac3_worklist_run in Hac3.
  apply (ac3_run_settled cw l d true d' Hac3 Hwf Hrep Hok Hset eq_refl x y
           Hx Hy).
  intros [].
Qed.

(** On a store in which every arc is consistent, a revision changes
    nothing. *)
Lemma revise_result_consistent cw x y lx ly d :
  arc_consistent cw d x y ->
  dom_get x d = Ok lx -> dom_get y d = Ok ly ->
  revise_result cw x y lx ly d = (false, d).
Proof.
  intros Hcons Hx Hy. unfold revise_result.
  destruct (overlaps cw x y) as [[ox oy] | ] eqn:Hov; [ | reflexivity].
  assert (Hall : forall w, In w lx -> supported ox oy w ly = true).
  { intros w Hw. apply supported_iff. apply (Hcons ox oy lx ly w); auto. }
  assert (E1 : existsb (fun w => negb (supported ox oy w ly)) lx = false).
  { clear Hx. induction lx as [ | w lx IH]; simpl; [reflexivity | ].
    rewrite (Hall w) by (simpl; auto). simpl.
    apply IH. intros; apply Hall; simpl; auto. }
  assert (E2 : revised_domain ox oy lx ly = lx).
  { unfold revised_domain. clear Hx E1.
    induction lx as [ | w lx IH]; simpl; [reflexivity | ].
    rewrite (Hall w) by (simpl; auto). f_equal.
    apply IH. intros; apply Hall; simpl; auto. }
  rewrite E1, E2, (dict_set_same Var.eqb _ _ _ Hx). reflexivity.
Qed.

Lemma ac3_loop_consistent cw d :
  wf_crossword cw -> domains_inv cw d ->
  (forall x y, In x (variables cw) -> In y (variables cw) ->
               arc_consistent cw d x y) ->
  forall arcs fuel,
    arcs_ok cw arcs -> arcs_distinct arcs -> List.length arcs < fuel ->
    ac3_loop cw fuel arcs d = Ok (true, d).
Proof.
  intros Hwf Hinv Hcons.
  induction arcs as [ | [x y] arcs IH]; intros fuel Hok Hdis Hfuel.
  - destruct fuel; reflexivity.
  - destruct fuel as [ | fuel]; [simpl in Hfuel; lia | ]. simpl.
    destruct (Hok x y (or_introl eq_refl)) as [Hxin Hyin].
    pose proof (Hdis x y (or_introl eq_refl)) as Hxy.
    destruct (inv_dom_get _ _ _ Hinv Hxin) as [lx Hx].
    destruct (inv_dom_get _ _ _ Hinv Hyin) as [ly Hy].
    rewrite (revise_total cw d x y lx ly Hwf Hinv Hxin Hyin Hxy Hx Hy).
    rewrite (revise_result_consistent cw x y lx ly d
               (Hcons x y Hxin Hyin) Hx Hy).
    simpl. apply IH.
    + intros a b H. apply Hok. simpl; auto.
    + intros a b H. apply Hdis. simpl; auto.
    + simpl in Hfuel. lia.
Qed.

(** X7. [ac3] is idempotent: after a call that returned [True], a second call
    (on the default arcs or on any list of arcs between distinct variables
    of the puzzle) returns [True] and leaves the store as it is. *)
Theorem ac3_idempotent cw d d' arcs :
  wf_crossword cw -> domains_inv cw d ->
  arcs_ok cw (worklist cw arcs) -> arcs_distinct (worklist cw arcs) ->
  ac3 cw None d = Ok (true, d') ->
  ac3 cw arcs d' = Ok (true, d').
Proof.
  intros Hwf Hinv Hok Hdis Hac3.
  pose proof (ac3_worklist_run cw None d true d' Hac3) as Hrun.
  destruct (ac3_run_rep cw _ d true d' Hrun Hwf (inv_rep _ _ Hinv)
              (initial_arcs_ok cw)) as [Hrep' Hsh].
  pose proof (shrinks_inv cw d d' Hinv Hrep' Hsh) as Hinv'.
  pose proof (ac3_run_settled cw _ d true d' Hrun Hwf (inv_rep _ _ Hinv)
                (initial_arcs_ok cw) (initial_settled cw d Hwf) eq_refl)
    as Hset.
  rewrite ac3_worklist.
  apply (ac3_loop_consistent cw d' Hwf Hinv'); [ | exact Hok | exact Hdis | ].
  - intros x y Hx Hy. apply (Hset x y Hx Hy). intros [].
  - unfold ac3_bound. lia.
Qed.

(** A loop that ends within its bound does not see the bound. *)
Lemma ac3_loop_fuel cw fuel : forall fuel' arcs d r,
  fuel <= fuel' ->
  ac3_loop cw fuel arcs d = Ok r -> ac3_loop cw fuel' arcs d = Ok r.
Proof.
  induction fuel as [ | fuel IH]; intros fuel' arcs d r Hle Hloop.
  - destruct arcs as [ | [x y] arcs]; simpl in Hloop; [ | discriminate].
    destruct fuel'; exact Hloop.
  - destruct arcs as [ | [x y] arcs]; [destruct fuel'; exact Hloop | ].
    destruct fuel' as [ | fuel']; [lia | ]. simpl in *.
    destruct (revise cw x y d) as [[revised d'] | e]; simpl in *;
      [ | discriminate].
    destruct revised.
    + destruct (dom_get x d') as [dx | e]; simpl in *; [ | discriminate].
      destruct (List.length dx =? 0); [exact Hloop | ].
      apply (IH fuel'); [lia | exact Hloop].
    + apply (IH fuel'); [lia | exact Hloop].
Qed.

(** X9. On a store that satisfies the length invariant, [ac3] returns, on any
    list of arcs between distinct variables of the puzzle: its loop ends
    within [len(arcs) + len(variables) * (number of words in the store)]
    iterations, each turn of the loop taking one unit of the bound, and the
    final store satisfies the invariant again. *)
Theorem ac3_terminates cw arcs d :
  wf_crossword cw -> domains_inv cw d ->
  arcs_ok cw (worklist cw arcs) -> arcs_distinct (worklist cw arcs) ->
  exists b d',
    ac3_loop cw
      (List.length (worklist cw arcs)
       + List.length (variables cw) * total_size d)
      (worklist cw arcs) d = Ok (b, d') /\
    ac3 cw arcs d = Ok (b, d') /\ domains_inv cw d'.
Proof.
  intros Hwf Hinv Hok Hdis.
  destruct (ac3_loop_total cw
              (List.length (worklist cw arcs)
               + List.length (variables cw) * total_size d)
              (worklist cw arcs) d Hwf Hinv Hok Hdis) as [b [d' Hloop]];
    [lia | ].
  exists b, d'. split; [exact Hloop | ].
  split.
  { rewrite ac3_worklist. revert Hloop. apply ac3_loop_fuel.
    unfold ac3_bound. lia. }
  pose proof (ac3_loop_run _ _ _ _ _ _ Hloop) as Hrun.
  destruct (ac3_run_rep cw _ d b d' Hrun Hwf (inv_rep _ _ Hinv) Hok)
    as [Hrep' Hsh].
  exact (shrinks_inv cw d d' Hinv Hrep' Hsh).
Qed.

(** X18. The order of the worklist does not matter: two calls of [ac3] on the
    same store, on two lists of arcs that each hold every arc that is not
    yet consistent, that both return [True], leave the same words in every
    domain. *)
Theorem ac3_order_irrelevant cw l1 l2 d d1 d2 :
  wf_crossword cw -> domains_rep cw d ->
  arcs_ok cw l1 -> arcs_ok cw l2 ->
  (forall x y, In x (variables cw) -> In y (variables cw) ->
               ~ In (x, y) l1 -> arc_consistent cw d x y) ->
  (forall x y, In x (variables cw) -> In y (variables cw) ->
               ~ In (x, y) l2 -> arc_consistent cw d x y) ->
  ac3 cw (Some l1) d = Ok (true, d1) ->
  ac3 cw (Some l2) d = Ok (true, d2) ->
  forall x w, In x (variables cw) ->
              (In w (dom_of x d1) <-> In w (dom_of x d2)).
Proof.
  intros Hwf Hrep Hok1 Hok2 Hset1 Hset2 H1 H2.
  assert (Hone : forall la lb da db,
    arcs_ok cw la -> arcs_ok cw lb ->
    (forall x y, In x (variables cw) -> In y (variables cw) ->
                 ~ In (x, y) la -> arc_consistent cw d x y) ->
    ac3 cw (Some la) d = Ok (true, da) ->
    ac3 cw (Some lb) d = Ok (true, db) ->
    forall x w, In x (variables cw) -> In w (dom_of x da) -> In w (dom_of x db)).
  { intros la lb da db Hoka Hokb Hseta Ha Hb x w Hx Hw.
    pose proof (ac3_worklist_run cw (Some la) d true da Ha) as Hruna.
    pose proof (ac3_worklist_run cw (Some lb) d true db Hb) as Hrunb.
    simpl in Hruna, Hrunb.
    destruct (ac3_run_rep cw la d true da Hruna Hwf Hrep Hoka) as [Hrepa Hsha].
    pose proof (ac3_run_settled cw la d true da Hruna Hwf Hrep Hoka Hseta
                  eq_refl) as Hcons.
    apply (ac3_run_within cw lb d true db (fun x w => In w (dom_of x da))
             Hrunb Hwf Hrep Hokb); auto.
    - intros u v ou ov wu Hu Hv Hov Hwu.
      destruct (rep_dom_get _ _ _ Hrepa Hu) as [lu Hlu].
      destruct (rep_dom_get _ _ _ Hrepa Hv) as [lv Hlv].
      unfold dom_of in *. rewrite Hlu in Hwu. rewrite Hlv.
      apply (Hcons u v Hu Hv (fun H => H) ou ov lu lv wu); auto.
    - intros u wu Hu Hwu. unfold dom_of in *.
      destruct (dom_get u da) as [lu | ] eqn:Hlu; [ | destruct Hwu].
      destruct (Hsha u lu Hlu) as [l0 [Hl0 Hincl]].
      rewrite Hl0. apply Hincl, Hwu. }
  intros x w Hx. split.
  - apply (Hone l1 l2 d1 d2); auto.
  - apply (Hone l2 l1 d2 d1); auto.
Qed.

(** ** The selection of the next variable *)

(** X1. While some variable is unassigned, [select_unassigned_variable]
    returns an unassigned variable of the store with the fewest remaining
    words, and among those with as few words one with the most neighbors. *)
Theorem select_minimum_remaining_values cw d a :
  NoDup (dict_keys d) ->
  assignment_complete d a = false ->
  exists var,
    select_unassigned_variable cw d a = Ok var /\
    In var (dict_keys d) /\ dict_mem Var.eqb var a = false /\
    forall v, In v (dict_keys d) -> dict_mem Var.eqb v a = false ->
      List.length (dom_of var d) <= List.length (dom_of v d) /\
      (List.length (dom_of v d) = List.length (dom_of var d) ->
       List.length (neighbors cw v) <= List.length (neighbors cw var)).
Proof.
  intros Hnd Hinc. unfold select_unassigned_variable.
  change (for_each (dict_keys d) _ [])
    with (for_each (dict_keys d) (select_body cw d a) []).
  rewrite select_loop; [ | auto | exact Hnd]. simpl.
  set (l := filter (unassigned a) (dict_keys d)).
  assert (Hl : forall v, In v l <->
                         In v (dict_keys d) /\ dict_mem Var.eqb v a = false).
  { intros v. unfold l. rewrite filter_In. unfold unassigned.
    rewrite negb_true_iff. reflexivity. }
  destruct l as [ | v0 l'] eqn:El.
  - exfalso. unfold assignment_complete in Hinc.
    assert (forallb (fun variable => dict_mem Var.eqb variable a) (dict_keys d)
            = true); [ | congruence].
    apply forallb_forall. intros v Hv.
    destruct (dict_mem Var.eqb v a) eqn:E; [reflexivity | ].
    exfalso. apply (proj2 (Hl v)); auto.
  - simpl.
    destruct (min_from_least
                (map (fun v => (v, select_key cw d v)) l')
                (v0, select_key cw d v0)) as [m [Hm [Heq Hleast]]].
    exists (fst m). split; [rewrite Heq; reflexivity | ].
    change ((v0, select_key cw d v0)
            :: map (fun v => (v, select_key cw d v)) l')
      with (map (fun v => (v, select_key cw d v)) (v0 :: l')) in Hm, Hleast.
    apply in_map_iff in Hm. destruct Hm as [vm [<- Hvm]]. simpl.
    apply Hl in Hvm. destruct Hvm as [Hk Hu].
    split; [exact Hk | ]. split; [exact Hu | ].
    intros v Hv Hvu.
    assert (Hin : In (v, select_key cw d v)
                     (map (fun v => (v, select_key cw d v)) (v0 :: l'))).
    { apply (in_map (fun v => (v, select_key cw d v))). apply Hl. auto. }
    specialize (Hleast _ Hin). simpl in Hleast.
    unfold key_lt, select_key in Hleast. simpl in Hleast. lia.
Qed.

(** X2. When every variable of the store is assigned there is nothing to take
    the minimum of: [select_unassigned_variable] raises [ValueError]. *)
Theorem select_on_complete_assignment cw d a :
  NoDup (dict_keys d) ->
  assignment_complete d a = true ->
  select_unassigned_variable cw d a = Raise ValueError.
Proof.
  intros Hnd Hcomp. unfold select_unassigned_variable.
  change (for_each (dict_keys d) _ [])
    with (for_each (dict_keys d) (select_body cw d a) []).
  rewrite select_loop; [ | auto | exact Hnd]. simpl.
  assert (E : filter (unassigned a) (dict_keys d) = []).
  { unfold assignment_complete in Hcomp. rewrite forallb_forall in Hcomp.
    clear Hnd.
    induction (dict_keys d) as [ | v l IH]; simpl; [reflexivity | ].
    unfold unassigned at 1. rewrite (Hcomp v) by (simpl; auto). simpl.
    apply IH. intros; apply Hcomp; simpl; auto. }
  rewrite E. reflexivity.
Qed.

(** ** The node-consistency filter on any store *)

Lemma filter_filter {A : Type} (f : A -> bool) (l : list A) :
  filter f (filter f l) = filter f l.
Proof.
  induction l as [ | a l IH]; simpl; [reflexivity | ].
  destruct (f a) eqn:E; simpl; [rewrite E, IH | ]; auto.
Qed.

(** X3. On any store, not only the initial one, [enforce_node_consistency]
    returns; it keeps the variables in their order, leaves in every domain
    exactly its words of the variable's length, in their order, and running
    it again changes nothing. *)
Theorem enforce_node_consistency_filters (d : Domains) :
  NoDup (dict_keys d) ->
  (forall x l, In (x, l) d -> NoDup l) ->
  exists d',
    enforce_node_consistency d = Ok d' /\
    dict_keys d' = dict_keys d /\
    (forall v l, dom_get v d = Ok l ->
       dom_get v d'
       = Ok (filter (fun w => String.length w =? Var.length v) l)) /\
    enforce_node_consistency d' = Ok d'.
Proof.
  intros Hnd Hsets. exists (map node_filter d).
  split; [apply enforce_node_consistency_spec; assumption | ].
  split; [apply node_filter_keys | ].
  split; [intros v l H; apply (dom_get_map_filter v d l H) | ].
  rewrite enforce_node_consistency_spec.
  - rewrite map_map. apply f_equal. apply map_ext. intros [v l].
    unfold node_filter. simpl. rewrite filter_filter. reflexivity.
  - rewrite node_filter_keys. exact Hnd.
  - intros x l H. apply in_map_iff in H. destruct H as [[v l0] [E Hin]].
    unfold node_filter in E. simpl in E. injection E as <- <-.
    apply NoDup_filter. apply (Hsets v l0 Hin).
Qed.

(** ** [revise] twice *)

(** X4. [revise] is idempotent: right after a call [revise(x, y)], a second
    call with the same arguments removes nothing and returns [False]. *)
Theorem revise_idempotent cw d x y revised d' :
  wf_crossword cw -> domains_inv cw d ->
  In x (variables cw) -> In y (variables cw) ->
  revise cw x y d = Ok (revised, d') ->
  revise cw x y d' = Ok (false, d').
Proof.
  intros Hwf Hinv Hxin Hyin Hrev.
  pose proof (revise_inv cw d x y revised d' Hwf Hinv Hxin Hyin Hrev) as Hinv'.
  destruct (revise_Ok cw d x y revised d' Hwf (inv_rep _ _ Hinv) Hxin Hyin Hrev)
    as [lx [ly [Hx [Hy Hres]]]].
  destruct (inv_dom_get _ _ _ Hinv' Hxin) as [lx' Hx'].
  destruct (inv_dom_get _ _ _ Hinv' Hyin) as [ly' Hy'].
  destruct (revise_Ok_distinct _ _ _ _ _ Hrev) as [_ [_ Hxy]].
  rewrite (revise_total cw d' x y lx' ly' Hwf Hinv' Hxin Hyin Hxy Hx' Hy').
  rewrite (revise_result_consistent cw x y lx' ly' d'); auto.
  intros ox oy l1 l2 wx Hov H1 H2 Hwx.
  rewrite Hx' in H1. injection H1 as <-.
  rewrite Hy' in H2. injection H2 as <-.
  unfold revise_result in Hres. rewrite Hov in Hres.
  injection Hres as _ ->.
  rewrite dom_get_set_eq in Hx'. injection Hx' as <-.
  rewrite dom_get_set_ne in Hy' by exact Hxy.
  rewrite Hy in Hy'. injection Hy' as <-.
  apply revised_domain_In in Hwx. apply supported_iff. tauto.
Qed.

(** ** The consistency checker on words that are long enough *)

(** X10. On an assignment of variables of the puzzle whose words are at
    least as long as their slots, [consistent] does not raise, whatever the
    order of insertion, and returns [True] exactly when the assignment is
    valid: a word that is too long, a word used twice or a disagreement at
    an overlap each give [False]. *)
Theorem consistent_decides cw (a : Assignment) :
  wf_crossword cw ->
  (forall v w, asg_get v a = Ok w ->
               In v (variables cw) /\ Var.length v <= String.length w) ->
  exists b, consistent cw a = Ok b /\ (b = true <-> valid_assignment cw a).
Proof.
  intros Hwf Hlong. apply consistent_valid.
  intros v n w wn o0 o1 Hv Hn Hov.
  destruct (Hlong v w Hv) as [Hvin Hlv].
  destruct (Hlong n wn Hn) as [Hnin Hln].
  destruct (wf_range _ Hwf v n o0 o1 Hvin Hnin Hov). lia.
Qed.

(** ** The order of the candidates *)

Lemma sorted_by_sorted_same {A : Type} (key : A -> nat) (l : list A) :
  StronglySorted (key_le key) l -> sorted_by key l = l.
Proof.
  induction 1 as [ | a l Hs IH Hall]; simpl; [reflexivity | ].
  rewrite IH. destruct l as [ | b l]; simpl; [reflexivity | ].
  inversion Hall as [ | ? ? Hab _]; subst. unfold key_le in Hab.
  apply Nat.leb_le in Hab. rewrite Hab. reflexivity.
Qed.

Lemma sorted_pairs_same {A : Type} (r : A -> nat) (l : list A) :
  StronglySorted (key_le r) l ->
  map fst (sorted_by snd (map (fun w => (w, r w)) l)) = l.
Proof.
  intros Hs. rewrite sorted_by_sorted_same.
  - rewrite map_map. simpl. apply map_id.
  - induction Hs as [ | a l Hs IH Hall]; simpl; constructor; [exact IH | ].
    apply Forall_map. exact Hall.
Qed.

(** X11. The sort of [order_domain_values] is stable.  When the words of
    [domain[var]] already stand in ascending order of their elimination
    counts the result is the domain in its own order; this is the case when
    every neighbor of [var] is assigned, since every count is then zero. *)
Theorem order_domain_values_keeps_order cw d var a dvar :
  wf_crossword cw -> domains_inv cw d -> In var (variables cw) ->
  dom_get var d = Ok dvar ->
  (StronglySorted
     (fun w1 w2 => elimination_count cw d a var w1
                   <= elimination_count cw d a var w2) dvar ->
   order_domain_values cw d var a = Ok dvar) /\
  ((forall n, In n (neighbors cw var) -> dict_mem Var.eqb n a = true) ->
   order_domain_values cw d var a = Ok dvar).
Proof.
  intros Hwf Hinv Hvar Hd.
  rewrite (order_domain_values_eq cw d var a dvar Hwf Hinv Hvar Hd).
  assert (Hsorted : StronglySorted
     (fun w1 w2 => elimination_count cw d a var w1
                   <= elimination_count cw d a var w2) dvar ->
     Ok (map fst (sorted_by snd
           (map (fun w => (w, elimination_count cw d a var w)) dvar)))
     = Ok dvar).
  { intros Hs. apply f_equal.
    apply (sorted_pairs_same (elimination_count cw d a var) dvar Hs). }
  split; [exact Hsorted | ].
  intros Hall. apply Hsorted.
  assert (Hzero : forall w, elimination_count cw d a var w = 0).
  { intros w. unfold elimination_count.
    induction (neighbors cw var) as [ | n l IH]; simpl; [reflexivity | ].
    rewrite (Hall n) by (simpl; auto). simpl.
    apply IH. intros; apply Hall; simpl; auto. }
  clear Hd Hsorted. induction dvar as [ | w l IH]; constructor; [exact IH | ].
  apply Forall_forall. intros w' _. rewrite !Hzero. lia.
Qed.

(** ** [backtrack] from a partial assignment *)

(** X12. [backtrack] called on any valid partial assignment over the store
    returns; a returned assignment is the dict it was given, it keeps every
    entry the dict had, gives every variable a word of its domain and is
    valid; and [None] is returned, with the dict as it was, only when no
    solution over the store agrees with the given entries. *)
Theorem backtrack_from_partial cw d a :
  wf_crossword cw -> domains_inv cw d ->
  asg_ok cw d a -> valid_assignment cw a ->
  exists r a',
    backtrack cw d a = Ok (r, a') /\
    match r with
    | Some res =>
        res = a' /\ extends a res /\ valid_assignment cw res /\
        forall v, In v (variables cw) ->
                  exists w, asg_get v res = Ok w /\ In w (dom_of v d)
    | None =>
        a' = a /\
        forall sol, extends a sol -> solution cw d sol -> False
    end.
Proof.
  intros Hwf Hinv Hok Hvalid.
  destruct (backtrack_spec cw d Hwf Hinv a Hok Hvalid)
    as [[r a'] [Hbt [Hfound Hex]]].
  exists r, a'. split; [exact Hbt | ].
  unfold found in Hfound. simpl in Hfound. destruct r as [res | ].
  - destruct Hfound as [-> [Hext [[_ Hdom] [Hcomp Hval]]]].
    split; [reflexivity | ]. split; [exact Hext | ]. split; [exact Hval | ].
    intros v Hv.
    destruct (complete_of_assignment_complete cw d a' Hinv Hcomp v Hv)
      as [w Hw].
    exists w. split; [exact Hw | apply (Hdom v w Hw)].
  - split; [exact Hfound | ]. intros sol. apply (Hex eq_refl).
Qed.

(** X13. The assignment [solve] returns has exactly the variables of the
    puzzle as its keys, each once, and every word of it is in the final
    domain of its variable, hence in the vocabulary. *)
Theorem solve_assignment_shape cw a d :
  wf_crossword cw ->
  solve cw = Ok (Some a, d) ->
  Permutation (dict_keys a) (variables cw) /\
  forall v w, asg_get v a = Ok w -> In w (dom_of v d) /\ In w (words cw).
Proof.
  intros Hwf Hsolve.
  destruct (solve_steps cw Hwf)
    as [b [d2 [[r a'] [_ [Hac3 [Hrun [Hinv1 [Hinv2 [_ [Hfound [_ Hs]]]]]]]]]]].
  rewrite Hs in Hsolve. simpl in Hsolve. injection Hsolve as -> ->.
  unfold found in Hfound. simpl in Hfound.
  destruct Hfound as [_ [_ [[Hnd Hdom] [Hcomp _]]]].
  destruct (ac3_run_rep cw _ _ b d Hrun Hwf (inv_rep _ _ Hinv1)
              (initial_arcs_ok cw)) as [_ Hsh].
  split.
  - apply NoDup_Permutation; [exact Hnd | apply (wf_variables _ Hwf) | ].
    intros v. split.
    + intros Hv. apply (dict_get_keys Var.eqb var_eqb_eq) in Hv.
      destruct Hv as [w Hw]. apply (Hdom v w Hw).
    + intros Hv. apply (dict_get_keys Var.eqb var_eqb_eq).
      apply (complete_of_assignment_complete cw d a Hinv2 Hcomp v Hv).
  - intros v w Hw. destruct (Hdom v w Hw) as [Hv Hin].
    split; [exact Hin | ].
    unfold dom_of in Hin.
    destruct (dom_get v d) as [l | ] eqn:Hl; [ | destruct Hin].
    destruct (Hsh v l Hl) as [l0 [Hl0 Hincl]].
    rewrite (dom_get_map_filter v _ _ (dom_get_init cw v Hv)) in Hl0.
    injection Hl0 as <-. apply Hincl in Hin. apply filter_In in Hin. tauto.
Qed.

(** ** The depth of the recursion *)

Lemma backtrack_values_mono cw
  (rec1 rec2 : Assignment -> result (option Assignment * Assignment)) var :
  (forall a out, rec1 a = Ok out -> rec2 a = Ok out) ->
  forall values a out,
    backtrack_values cw rec1 var values a = Ok out ->
    backtrack_values cw rec2 var values a = Ok out.
Proof.
  intros Hrec. induction values as [ | value values IH]; intros a out H;
    simpl in H |- *; [exact H | ].
  destruct (consistent cw (dict_set Var.eqb var value a)) as [c | e];
    simpl in H |- *; [ | discriminate].
  destruct c.
  - destruct (rec1 (dict_set Var.eqb var value a)) as [[r a2] | e] eqn:E;
      simpl in H; [ | discriminate].
    rewrite (Hrec _ _ E). simpl.
    destruct (truthy r); [exact H | ].
    destruct (dict_del Var.eqb var a2) as [a3 | e]; simpl in H |- *;
      [ | discriminate].
    apply IH. exact H.
  - simpl in H |- *.
    destruct (dict_del Var.eqb var (dict_set Var.eqb var value a))
      as [a3 | e]; simpl in H |- *; [ | discriminate].
    apply IH. exact H.
Qed.

Lemma backtrack_rec_mono cw d (n : nat) :
  forall a out,
    backtrack_rec n cw d a = Ok out -> backtrack_rec (S n) cw d a = Ok out.
Proof.
  induction n as [ | n IH]; intros a out H; [discriminate | ].
  simpl in H. simpl.
  destruct (assignment_complete d a); [exact H | ].
  destruct (select_unassigned_variable cw d a) as [var | e];
    simpl in H |- *; [ | discriminate].
  destruct (order_domain_values cw d var a) as [values | e];
    simpl in H |- *; [ | discriminate].
  apply (backtrack_values_mono cw (backtrack_rec n cw d)
           (backtrack_rec (S n) cw d) var IH values a out H).
Qed.

(** X17. The recursion of [backtrack] is never deeper than one call more
    than the number of unassigned variables: that many nested calls give
    the result of [backtrack], and so does any larger allowance. *)
Theorem backtrack_depth cw d a n :
  wf_crossword cw -> domains_inv cw d ->
  asg_ok cw d a -> valid_assignment cw a ->
  remaining d a < n ->
  backtrack_rec n cw d a = backtrack_rec (S (remaining d a)) cw d a /\
  backtrack cw d a = backtrack_rec (S (remaining d a)) cw d a.
Proof.
  intros Hwf Hinv Hok Hvalid Hn.
  destruct (backtrack_rec_spec cw d Hwf Hinv (S (remaining d a)) a Hok Hvalid)
    as [out [Hout _]]; [lia | ].
  assert (Hmono : forall k,
    backtrack_rec (k + S (remaining d a)) cw d a = Ok out).
  { induction k as [ | k IH]; simpl; [exact Hout | ].
    apply (backtrack_rec_mono cw d (k + S (remaining d a)) a out IH). }
  rewrite Hout. split.
  - replace n with ((n - S (remaining d a)) + S (remaining d a)) by lia.
    apply Hmono.
  - unfold backtrack. pose proof (remaining_le d a) as Hle.
    replace (S (List.length d))
      with ((List.length d - remaining d a) + S (remaining d a)) by lia.
    apply Hmono.
Qed.

(** ** [letter_grid] *)

Lemma list_set_Ok {A : Type} (k : nat) (v : A) (l : list A) :
  k < List.length l ->
  exists l', list_set k v l = Ok l'.
Proof.
  revert k. induction l as [ | a l IH]; intros k Hk; simpl in Hk; [lia | ].
  destruct k as [ | k']; simpl.
  - eauto.
  - destruct (IH k') as [l' Hl']; [lia | ]. rewrite Hl'. simpl. eauto.
Qed.

Lemma list_set_spec {A : Type} (k : nat) (v : A) (l l' : list A) :
  list_set k v l = Ok l' ->
  k < List.length l /\ List.length l' = List.length l /\
  nth_error l' k = Some v /\
  (forall k', k' <> k -> nth_error l' k' = nth_error l k') /\
  (forall a, In a l' -> a = v \/ In a l).
Proof.
  revert k l'. induction l as [ | a l IH]; intros k l' H; simpl in H;
    [discriminate | ].
  destruct k as [ | k]; simpl in H.
  - injection H as <-. simpl. repeat split; try lia; auto.
    + intros [ | k'] Hk'; [congruence | reflexivity].
    + intros b [<- | Hb]; auto.
  - destruct (list_set k v l) as [l'' | e] eqn:E; simpl in H; [ | discriminate].
    injection H as <-. destruct (IH k l'' E) as [H1 [H2 [H3 [H4 H5]]]].
    simpl. repeat split; try lia; auto.
    + intros [ | k'] Hk'; [reflexivity | ]. simpl. apply H4. congruence.
    + intros b [<- | Hb]; auto. destruct (H5 b Hb); auto.
Qed.

Lemma list_set_raise {A : Type} (k : nat) (v : A) (l : list A) e :
  list_set k v l = Raise e -> e = IndexError /\ List.length l <= k.
Proof.
  revert k. induction l as [ | a l IH]; intros k H; simpl in H.
  - injection H as <-. simpl. split; [reflexivity | lia].
  - destruct k as [ | k]; simpl in H; [discriminate | ].
    destruct (list_set k v l) as [l'' | e'] eqn:E; simpl in H; [discriminate | ].
    injection H as <-. destruct (IH k E). simpl. split; [assumption | lia].
Qed.

Lemma list_get_Ok {A : Type} (k : nat) (l : list A) :
  k < List.length l -> exists a, list_get k l = Ok a /\ In a l.
Proof.
  intros Hk. unfold list_get.
  destruct (nth_error l k) as [a | ] eqn:E.
  - exists a. split; [reflexivity | ]. eapply nth_error_In; eassumption.
  - apply nth_error_None in E. lia.
Qed.

Lemma list_get_raise {A : Type} (k : nat) (l : list A) e :
  list_get k l = Raise e -> e = IndexError /\ List.length l <= k.
Proof.
  unfold list_get. destruct (nth_error l k) eqn:E; [discriminate | ].
  intros H; injection H as <-. apply nth_error_None in E. auto.
Qed.

(** One write into the grid. *)
Lemma grid_set_Ok h w i j c (g : Grid) :
  dims h w g -> i < h -> j < w -> exists g', grid_set i j c g = Ok g'.
Proof.
  intros [Hh Hw] Hi Hj. unfold grid_set.
  destruct (list_get_Ok i g) as [row [Hrow Hin]]; [lia | ].
  rewrite Hrow. simpl.
  destruct (list_set_Ok j (Some c) row) as [row' Hrow'];
    [rewrite (Hw row Hin); exact Hj | ].
  rewrite Hrow'. simpl. apply list_set_Ok. lia.
Qed.

Lemma grid_set_spec h w i j c (g g' : Grid) :
  dims h w g -> grid_set i j c g = Ok g' ->
  i < h /\ j < w /\ dims h w g' /\
  grid_get i j g' = Ok (Some c) /\
  (forall i' j', (i', j') <> (i, j) -> grid_get i' j' g' = grid_get i' j' g).
Proof.
  intros [Hh Hw] H. unfold grid_set in H.
  destruct (list_get i g) as [row | e] eqn:Hrow; simpl in H; [ | discriminate].
  destruct (list_set j (Some c) row) as [row' | e] eqn:Hrow'; simpl in H;
    [ | discriminate].
  destruct (list_set_spec _ _ _ _ Hrow') as [Hj [Hlen [Hnth [Hother _]]]].
  destruct (list_set_spec _ _ _ _ H) as [Hi [Hlen' [Hnth' [Hother' Hin']]]].
  assert (Hrin : In row g).
  { unfold list_get in Hrow. destruct (nth_error g i) eqn:E; [ | discriminate].
    injection Hrow as <-. eapply nth_error_In; eassumption. }
  split; [lia | ]. split; [rewrite <- (Hw row Hrin); exact Hj | ].
  split; [ | split].
  - split; [lia | ]. intros r Hr. destruct (Hin' r Hr) as [-> | Hr'].
    + rewrite Hlen. apply (Hw row Hrin).
    + apply (Hw r Hr').
  - unfold grid_get, list_get. rewrite Hnth'. simpl. rewrite Hnth. reflexivity.
  - intros i' j' Hne. unfold grid_get, list_get.
    destruct (Nat.eq_dec i' i) as [-> | Hi'].
    + rewrite Hnth'. unfold list_get in Hrow.
      destruct (nth_error g i) eqn:E; [ | discriminate].
      injection Hrow as ->. simpl. rewrite Hother; [reflexivity | congruence].
    + rewrite (Hother' i' Hi'). reflexivity.
Qed.

Lemma grid_set_raise h w i j c (g : Grid) e :
  dims h w g -> grid_set i j c g = Raise e ->
  e = IndexError /\ (h <= i \/ w <= j).
Proof.
  intros [Hh Hw] H. unfold grid_set in H.
  destruct (list_get i g) as [row | e'] eqn:Hrow; simpl in H.
  - assert (Hrin : In row g).
    { unfold list_get in Hrow.
      destruct (nth_error g i) eqn:E; [ | discriminate].
      injection Hrow as <-. eapply nth_error_In; eassumption. }
    destruct (list_set j (Some c) row) as [row' | e'] eqn:Hrow'; simpl in H.
    + apply list_set_raise in H. destruct H as [-> Hle].
      unfold list_get in Hrow.
      destruct (nth_error g i) eqn:E; [ | discriminate].
      assert (i < List.length g) by (apply nth_error_Some; congruence). lia.
    + injection H as <-. apply list_set_raise in Hrow'.
      destruct Hrow' as [-> Hle]. rewrite (Hw row Hrin) in Hle. auto.
  - injection H as <-. apply list_get_raise in Hrow.
    destruct Hrow as [-> Hle]. split; [reflexivity | lia].
Qed.

(** [letter_grid] makes its writes one after the other. *)
Lemma letter_grid_word variable word (ks : list nat) (g : Grid) :
  (forall k, In k ks -> k < String.length word) ->
  for_each ks
    (fun k letters =>
       let i := Var.i variable
                + (match Var.direction variable with DOWN => k | ACROSS => 0 end) in
       let j := Var.j variable
                + (match Var.direction variable with ACROSS => k | DOWN => 0 end) in
       c <- str_index word k ;;
       grid_set i j c letters) g
  = for_each (writes_word variable word ks) write g.
Proof.
  revert g. induction ks as [ | k ks IH]; intros g Hks; simpl; [reflexivity | ].
  destruct (str_index_lt word k (Hks k (or_introl eq_refl))) as [c [Hc Hg]].
  rewrite Hc, Hg. simpl. unfold write at 1. simpl.
  destruct (grid_set _ _ c g) as [g1 | e]; simpl; [ | reflexivity].
  apply IH. intros; apply Hks; simpl; auto.
Qed.

Lemma for_each_app {A S : Type} (l1 l2 : list A) (body : A -> S -> result S)
  (s : S) :
  for_each (l1 ++ l2) body s = (s' <- for_each l1 body s ;; for_each l2 body s').
Proof.
  revert s. induction l1 as [ | a l1 IH]; intros s; simpl; [reflexivity | ].
  destruct (body a s) as [s1 | e]; simpl; [apply IH | reflexivity].
Qed.

Lemma letter_grid_writes height width (a : Assignment) :
  letter_grid height width a
  = for_each (writes a) write (repeat (repeat None width) height).
Proof.
  unfold letter_grid. generalize (repeat (repeat (@None ascii) width) height).
  induction a as [ | [variable word] a IH]; intros g; simpl; [reflexivity | ].
  rewrite letter_grid_word by (intros k Hk; apply in_seq in Hk; lia).
  unfold writes. simpl. rewrite for_each_app.
  destruct (for_each (writes_word variable word (seq 0 (String.length word)))
              write g) as [g1 | e]; simpl; [apply IH | reflexivity].
Qed.

Lemma string_get_some_lt (s : string) (k : nat) c :
  String.get k s = Some c -> k < String.length s.
Proof.
  revert k. induction s as [ | a s IH]; simpl; intros k H; [discriminate | ].
  destruct k as [ | k]; [lia | ]. apply IH in H. lia.
Qed.

Lemma writes_In (a : Assignment) p c :
  In (p, c) (writes a) <->
  exists v word k, In (v, word) a /\ cell v k = p /\ String.get k word = Some c.
Proof.
  unfold writes, writes_word. rewrite in_flat_map. split.
  - intros [[v word] [Hin H]]. simpl in H. apply in_flat_map in H.
    destruct H as [k [_ Hk]].
    destruct (String.get k word) as [c' | ] eqn:E; [ | destruct Hk].
    destruct Hk as [Hk | []]. injection Hk as <- <-.
    exists v, word, k. auto.
  - intros [v [word [k [Hin [Hcell Hget]]]]].
    exists (v, word). split; [exact Hin | ]. simpl.
    apply in_flat_map. exists k. split.
    + apply in_seq. pose proof (string_get_some_lt word k c Hget). lia.
    + rewrite Hget, Hcell. simpl. auto.
Qed.

Lemma dims_empty height width :
  dims height width (repeat (repeat None width) height).
Proof.
  split; [apply repeat_length | ].
  intros row H. apply repeat_spec in H. subst. apply repeat_length.
Qed.

Lemma grid_get_empty height width i j c :
  grid_get i j (repeat (repeat None width) height) = Ok (Some c) -> False.
Proof.
  unfold grid_get, list_get.
  destruct (nth_error (repeat (repeat None width) height) i) as [row | ] eqn:E;
    simpl; [ | discriminate].
  apply nth_error_In, repeat_spec in E. subst row.
  destruct (nth_error (repeat None width) j) as [o | ] eqn:E; [ | discriminate].
  apply nth_error_In, repeat_spec in E. subst. discriminate.
Qed.

(** The grid after a run of writes. *)
Lemma writes_run h w (ws : list ((nat * nat) * ascii)) :
  forall g g',
    dims h w g -> for_each ws write g = Ok g' ->
    dims h w g' /\
    (forall p c, In (p, c) ws -> fst p < h /\ snd p < w) /\
    (forall i j c, grid_get i j g' = Ok (Some c) ->
                   grid_get i j g = Ok (Some c) \/ In ((i, j), c) ws) /\
    (forall i j c, grid_get i j g = Ok (Some c) ->
                   (forall c', In ((i, j), c') ws -> c' = c) ->
                   grid_get i j g' = Ok (Some c)).
Proof.
  induction ws as [ | [[i0 j0] c0] ws IH]; intros g g' Hd H; simpl in H.
  - injection H as <-. split; [exact Hd | ].
    split; [intros p c [] | ]. split; [auto | auto].
  - unfold write at 1 in H. simpl in H.
    destruct (grid_set i0 j0 c0 g) as [g1 | e] eqn:Hset; simpl in H;
      [ | discriminate].
    destruct (grid_set_spec h w i0 j0 c0 g g1 Hd Hset)
      as [Hi [Hj [Hd1 [Hget Hother]]]].
    destruct (IH g1 g' Hd1 H) as [Hd' [Hfit [Hsound Hkeep]]].
    split; [exact Hd' | ]. split; [ | split].
    + intros p c [E | Hin]; [injection E as <- <-; auto | eauto].
    + intros i j c Hg. destruct (Hsound i j c Hg) as [H1 | H1]; [ | simpl; auto].
      destruct (Nat.eq_dec i i0) as [-> | Hni];
        [destruct (Nat.eq_dec j j0) as [-> | Hnj] | ].
      * rewrite Hget in H1. injection H1 as <-. right. simpl. auto.
      * rewrite Hother in H1 by congruence. auto.
      * rewrite Hother in H1 by congruence. auto.
    + intros i j c Hg Hall. apply Hkeep.
      * destruct (Nat.eq_dec i i0) as [-> | Hni];
          [destruct (Nat.eq_dec j j0) as [-> | Hnj] | ].
        -- rewrite Hget. rewrite (Hall c0) by (simpl; auto). reflexivity.
        -- rewrite Hother by congruence. exact Hg.
        -- rewrite Hother by congruence. exact Hg.
      * intros c' Hin. apply Hall. simpl; auto.
Qed.

(** After a run of writes that agree wherever they meet, every written cell
    shows its letter. *)
Lemma writes_run_agree h w (ws : list ((nat * nat) * ascii)) :
  forall g g',
    dims h w g -> for_each ws write g = Ok g' ->
    (forall p c1 c2, In (p, c1) ws -> In (p, c2) ws -> c1 = c2) ->
    forall i j c, In ((i, j), c) ws -> grid_get i j g' = Ok (Some c).
Proof.
  induction ws as [ | [[i0 j0] c0] ws IH]; intros g g' Hd H Hag i j c Hin;
    [destruct Hin | ].
  simpl in H. unfold write at 1 in H. simpl in H.
  destruct (grid_set i0 j0 c0 g) as [g1 | e] eqn:Hset; simpl in H;
    [ | discriminate].
  destruct (grid_set_spec h w i0 j0 c0 g g1 Hd Hset)
    as [_ [_ [Hd1 [Hget _]]]].
  destruct Hin as [E | Hin].
  - injection E as -> -> ->.
    destruct (writes_run h w ws g1 g' Hd1 H) as [_ [_ [_ Hkeep]]].
    apply Hkeep; [exact Hget | ].
    intros c' Hc'. apply (Hag (i, j) c' c); simpl; auto.
  - apply (IH g1 g' Hd1 H); [ | exact Hin].
    intros p c1 c2 H1 H2. apply (Hag p c1 c2); simpl; auto.
Qed.

Lemma writes_raise h w (ws : list ((nat * nat) * ascii)) :
  forall g e,
    dims h w g -> for_each ws write g = Raise e ->
    e = IndexError /\ exists p c, In (p, c) ws /\ (h <= fst p \/ w <= snd p).
Proof.
  induction ws as [ | [[i0 j0] c0] ws IH]; intros g e Hd H; simpl in H;
    [discriminate | ].
  unfold write at 1 in H. simpl in H.
  destruct (grid_set i0 j0 c0 g) as [g1 | e1] eqn:Hset; simpl in H.
  - destruct (grid_set_spec h w i0 j0 c0 g g1 Hd Hset) as [_ [_ [Hd1 _]]].
    destruct (IH g1 e Hd1 H) as [He [p [c [Hin Hout]]]].
    split; [exact He | ]. exists p, c. simpl; auto.
  - injection H as <-.
    destruct (grid_set_raise h w i0 j0 c0 g e1 Hd Hset) as [He Hout].
    split; [exact He | ]. exists (i0, j0), c0. simpl; auto.
Qed.

(** X14. [letter_grid] returns exactly when every letter of every assigned
    word falls inside the grid; what it returns has [height] rows of
    [width] cells; and when a letter falls outside it raises
    [IndexError]. *)
Theorem letter_grid_fits height width (a : Assignment) :
  ((forall v word k, In (v, word) a -> k < String.length word ->
                     fst (cell v k) < height /\ snd (cell v k) < width) <->
   exists g, letter_grid height width a = Ok g) /\
  (forall g, letter_grid height width a = Ok g -> dims height width g) /\
  (forall e, letter_grid height width a = Raise e -> e = IndexError).
Proof.
  rewrite letter_grid_writes.
  pose proof (dims_empty height width) as Hd.
  split; [split | split].
  - intros Hfit.
    destruct (for_each (writes a) write (repeat (repeat None width) height))
      as [g | e] eqn:E; [eauto | ].
    destruct (writes_raise height width _ _ e Hd E) as [_ [p [c [Hin Hout]]]].
    apply writes_In in Hin. destruct Hin as [v [word [k [Hin [<- Hget]]]]].
    pose proof (string_get_some_lt word k c Hget) as Hk.
    destruct (Hfit v word k Hin Hk). lia.
  - intros [g Hg] v word k Hin Hk.
    destruct (writes_run height width _ _ g Hd Hg) as [_ [Hfit _]].
    destruct (string_get_lt word k Hk) as [c Hc].
    apply (Hfit (cell v k) c). apply writes_In. exists v, word, k. auto.
  - intros g Hg. apply (writes_run height width _ _ g Hd Hg).
  - intros e He. apply (writes_raise height width _ _ e Hd He).
Qed.

(** X15. Every letter in the grid of [letter_grid] is a letter of an assigned
    word, standing in the cell of its position in that word; the cells no
    word covers hold [None]. *)
Theorem letter_grid_sound height width (a : Assignment) g i j c :
  letter_grid height width a = Ok g ->
  grid_get i j g = Ok (Some c) ->
  exists v word k,
    In (v, word) a /\ cell v k = (i, j) /\ String.get k word = Some c.
Proof.
  rewrite letter_grid_writes. intros Hg Hget.
  destruct (writes_run height width _ _ g (dims_empty height width) Hg)
    as [_ [_ [Hsound _]]].
  destruct (Hsound i j c Hget) as [H | H].
  - destruct (grid_get_empty height width i j c H).
  - apply writes_In. exact H.
Qed.

(** X16. When the assigned words agree wherever two of their letters share a
    cell, the grid of [letter_grid] shows every word in full: the cell of
    the [k]-th letter of each assigned word holds that letter. *)
Theorem letter_grid_shows_words height width (a : Assignment) g :
  letter_grid height width a = Ok g ->
  (forall v1 w1 k1 c1 v2 w2 k2 c2,
      In (v1, w1) a -> In (v2, w2) a -> cell v1 k1 = cell v2 k2 ->
      String.get k1 w1 = Some c1 -> String.get k2 w2 = Some c2 -> c1 = c2) ->
  forall v word k c,
    In (v, word) a -> String.get k word = Some c ->
    grid_get (fst (cell v k)) (snd (cell v k)) g = Ok (Some c).
Proof.
  rewrite letter_grid_writes. intros Hg Hag v word k c Hin Hget.
  apply (writes_run_agree height width (writes a) _ g
           (dims_empty height width) Hg).
  - intros p c1 c2 H1 H2. apply writes_In in H1, H2.
    destruct H1 as [v1 [w1 [k1 [Hin1 [Hc1 Hg1]]]]].
    destruct H2 as [v2 [w2 [k2 [Hin2 [Hc2 Hg2]]]]].
    apply (Hag v1 w1 k1 c1 v2 w2 k2 c2); auto. congruence.
  - apply writes_In. exists v, word, k.
    split; [exact Hin | ]. split; [ | exact Hget].
    destruct (cell v k); reflexivity.
Qed.

(** ** The further properties at the example puzzles *)

Module ExtraWitness.

Import Puzzles.
Local Open Scope string_scope.

Lemma two_slots_store_keys : NoDup (dict_keys two_slots_store).
Proof. exact (wf_variables _ two_slots_wf). Qed.

Lemma two_arcs_ok : arcs_ok two_slots [(across, down); (down, across)].
Proof.
  intros x y [E | [E | []]]; injection E as <- <-; simpl; auto.
Qed.

Lemma two_arcs_ok_rev : arcs_ok two_slots [(down, across); (across, down)].
Proof.
  intros x y [E | [E | []]]; injection E as <- <-; simpl; auto.
Qed.

Lemma two_arcs_settled (l : Arcs) d :
  In (across, down) l -> In (down, across) l ->
  forall x y, In x (variables two_slots) -> In y (variables two_slots) ->
              ~ In (x, y) l -> arc_consistent two_slots d x y.
Proof.
  intros H1 H2 x y [<- | [<- | []]] [<- | [<- | []]] Hnot;
    try contradiction;
    intros ox oy lx ly wx Hov; vm_compute in Hov; discriminate.
Qed.

Lemma select_minimum_remaining_values_witness :
  exists var,
    select_unassigned_variable two_slots two_slots_store [] = Ok var /\
    List.length (dom_of var two_slots_store)
    <= List.length (dom_of down two_slots_store).
Proof.
  destruct (select_minimum_remaining_values two_slots two_slots_store []
              two_slots_store_keys eq_refl) as [var [Hsel [_ [_ Hmin]]]].
  exists var. split; [exact Hsel | ].
  apply (Hmin down); [simpl; auto | reflexivity].
Defined.

Lemma select_on_complete_assignment_witness :
  select_unassigned_variable two_slots two_slots_store
    [(across, "CAT"); (down, "EAR")] = Raise ValueError.
Proof.
  apply (select_on_complete_assignment two_slots two_slots_store
           [(across, "CAT"); (down, "EAR")] two_slots_store_keys).
  reflexivity.
Defined.

Lemma enforce_node_consistency_filters_witness :
  exists d',
    enforce_node_consistency (init two_slots) = Ok d' /\
    enforce_node_consistency d' = Ok d'.
Proof.
  destruct (enforce_node_consistency_filters (init two_slots))
    as [d' [H1 [_ [_ H2]]]].
  - rewrite init_keys. exact (wf_variables _ two_slots_wf).
  - intros x l H. unfold init in H. apply in_map_iff in H.
    destruct H as [v [E _]]. injection E as _ <-.
    exact (wf_words _ two_slots_wf).
  - exists d'. auto.
Defined.

Lemma revise_idempotent_witness :
  revise clash top left clash_store = Ok (true, [(top, []); (left, ["TO"])]) /\
  revise clash top left [(top, []); (left, ["TO"])]
  = Ok (false, [(top, []); (left, ["TO"])]).
Proof.
  split; [reflexivity | ].
  apply (revise_idempotent clash clash_store top left true
           [(top, []); (left, ["TO"])] clash_wf Witness.clash_store_inv).
  - simpl; auto.
  - simpl; auto.
  - reflexivity.
Defined.

Lemma ac3_only_removes_witness :
  dict_keys [(top, ["CAT"]); (left, @nil string)] = dict_keys clash_store.
Proof.
  apply (ac3_only_removes clash None clash_store false
           [(top, ["CAT"]); (left, [])] clash_wf
           (inv_rep _ _ Witness.clash_store_inv) (initial_arcs_ok clash)).
  reflexivity.
Defined.

Lemma ac3_keeps_supported_words_witness :
  within two_slots two_slots_store (fun _ w => In w ["CAT"; "EAR"]).
Proof.
  apply (ac3_keeps_supported_words two_slots None two_slots_store true
           two_slots_store (fun _ w => In w ["CAT"; "EAR"]) two_slots_wf
           (inv_rep _ _ Witness.two_slots_store_inv)
           (initial_arcs_ok two_slots)).
  - intros x y ox oy wx [<- | [<- | []]] [<- | [<- | []]] Hov Hw;
      vm_compute in Hov; try discriminate; injection Hov as <- <-;
      destruct Hw as [<- | [<- | []]];
      exists "CAT"; (split; [simpl; auto | reflexivity]).
  - intros x w [<- | [<- | []]] [<- | [<- | []]]; simpl; auto.
  - reflexivity.
Defined.

Lemma ac3_idempotent_witness :
  ac3 two_slots None two_slots_store = Ok (true, two_slots_store).
Proof.
  apply (ac3_idempotent two_slots two_slots_store two_slots_store None
           two_slots_wf Witness.two_slots_store_inv
           (initial_arcs_ok two_slots) (initial_arcs_distinct two_slots)).
  reflexivity.
Defined.

Lemma ac3_given_arcs_witness :
  arc_consistent two_slots two_slots_store across down.
Proof.
  apply (ac3_given_arcs two_slots [(across, down); (down, across)]
           two_slots_store two_slots_store two_slots_wf
           (inv_rep _ _ Witness.two_slots_store_inv) two_arcs_ok).
  - apply two_arcs_settled; simpl; auto.
  - reflexivity.
  - simpl; auto.
  - simpl; auto.
Defined.

Lemma ac3_terminates_witness :
  exists b d',
    ac3_loop clash 6 (initial_arcs clash) clash_store = Ok (b, d') /\
    ac3 clash None clash_store = Ok (b, d') /\ domains_inv clash d'.
Proof.
  exact (ac3_terminates clash None clash_store clash_wf
           Witness.clash_store_inv (initial_arcs_ok clash)
           (initial_arcs_distinct clash)).
Defined.

Lemma consistent_decides_witness :
  exists b,
    consistent two_slots [(across, "CATS"); (down, "EAR")] = Ok b /\
    (b = true <->
     valid_assignment two_slots [(across, "CATS"); (down, "EAR")]).
Proof.
  apply (consistent_decides two_slots [(across, "CATS"); (down, "EAR")]
           two_slots_wf).
  intros v w H. unfold asg_get in H. simpl in H.
  destruct (Var.eqb v across) eqn:E1.
  - apply var_eqb_eq in E1. subst v. injection H as <-. simpl. auto.
  - destruct (Var.eqb v down) eqn:E2; [ | discriminate].
    apply var_eqb_eq in E2. subst v. injection H as <-. simpl. auto.
Defined.

Lemma order_domain_values_keeps_order_witness :
  order_domain_values two_slots two_slots_store across [(down, "EAR")]
  = Ok ["CAT"; "EAR"; "DOG"].
Proof.
  apply (order_domain_values_keeps_order two_slots two_slots_store across
           [(down, "EAR")] ["CAT"; "EAR"; "DOG"] two_slots_wf
           Witness.two_slots_store_inv).
  - simpl; auto.
  - reflexivity.
  - intros n Hn. apply neighbors_In in Hn.
    destruct Hn as [[<- | [<- | []]] [Hne _]]; [congruence | reflexivity].
Defined.

Lemma one_word_ok : asg_ok two_slots two_slots_store [(across, "CAT")].
Proof.
  apply (asg_ok_set two_slots two_slots_store across "CAT" []).
  - apply asg_ok_empty.
  - simpl; auto.
  - simpl; auto.
  - reflexivity.
Qed.

Lemma one_word_valid : valid_assignment two_slots [(across, "CAT")].
Proof. apply consistent_value_valid. reflexivity. Qed.

Lemma backtrack_from_partial_witness :
  exists res,
    backtrack two_slots two_slots_store [(across, "CAT")] = Ok (Some res, res)
    /\ extends [(across, "CAT")] res.
Proof.
  destruct (backtrack_from_partial two_slots two_slots_store
              [(across, "CAT")] two_slots_wf Witness.two_slots_store_inv
              one_word_ok one_word_valid) as [r [a' [Hbt Hr]]].
  destruct r as [res | ].
  - destruct Hr as [-> [Hext _]]. exists a'. auto.
  - exfalso. vm_compute in Hbt. discriminate.
Defined.

Lemma solve_assignment_shape_witness :
  Permutation (dict_keys [(across, "CAT"); (down, "EAR")])
    (variables two_slots).
Proof.
  apply (solve_assignment_shape two_slots [(across, "CAT"); (down, "EAR")]
           two_slots_store two_slots_wf).
  reflexivity.
Defined.

Lemma crossing_grid :
  letter_grid 3 3 [(across, "CAT"); (down, "EAR")]
  = Ok [[None; Some "E"%char; None];
        [Some "C"%char; Some "A"%char; Some "T"%char];
        [None; Some "R"%char; None]].
Proof. reflexivity. Qed.

Lemma letter_grid_sound_witness :
  exists v word k,
    In (v, word) [(across, "CAT"); (down, "EAR")] /\
    cell v k = (2, 1) /\ String.get k word = Some "R"%char.
Proof.
  apply (letter_grid_sound 3 3 [(across, "CAT"); (down, "EAR")] _ 2 1 "R"
           crossing_grid).
  reflexivity.
Defined.

Lemma letter_grid_shows_words_witness :
  grid_get (fst (cell down 2)) (snd (cell down 2))
    [[None; Some "E"%char; None];
     [Some "C"%char; Some "A"%char; Some "T"%char];
     [None; Some "R"%char; None]] = Ok (Some "R"%char).
Proof.
  apply (letter_grid_shows_words 3 3 [(across, "CAT"); (down, "EAR")] _
           crossing_grid) with (word := "EAR").
  - intros v1 w1 k1 c1 v2 w2 k2 c2 H1 H2 Hcell G1 G2.
    destruct H1 as [E1 | [E1 | []]]; injection E1 as <- <-;
      destruct H2 as [E2 | [E2 | []]]; injection E2 as <- <-;
      destruct k1 as [ | [ | [ | k1]]]; try discriminate;
      destruct k2 as [ | [ | [ | k2]]]; try discriminate;
      simpl in G1, G2; congruence.
  - simpl; auto.
  - reflexivity.
Defined.

Lemma backtrack_depth_witness :
  backtrack_rec 5 two_slots two_slots_store []
  = backtrack_rec 3 two_slots two_slots_store [].
Proof.
  apply (backtrack_depth two_slots two_slots_store [] 5 two_slots_wf
           Witness.two_slots_store_inv (asg_ok_empty _ _) (valid_empty _)).
  vm_compute. lia.
Defined.

Lemma ac3_order_irrelevant_witness :
  ac3 two_slots (Some [(across, down); (down, across)]) two_slots_store
  = Ok (true, two_slots_store) /\
  ac3 two_slots (Some [(down, across); (across, down)]) two_slots_store
  = Ok (true, two_slots_store) /\
  (In "DOG" (dom_of across two_slots_store)
   <-> In "DOG" (dom_of across two_slots_store)).
Proof.
  split; [reflexivity | ]. split; [reflexivity | ].
  apply (ac3_order_irrelevant two_slots [(across, down); (down, across)]
           [(down, across); (across, down)] two_slots_store two_slots_store
           two_slots_store two_slots_wf
           (inv_rep _ _ Witness.two_slots_store_inv)
           two_arcs_ok two_arcs_ok_rev).
  - apply two_arcs_settled; simpl; auto.
  - apply two_arcs_settled; simpl; auto.
  - reflexivity.
  - reflexivity.
  - simpl; auto.
Defined.

End ExtraWitness.
